(** * nepar-fintech: reconciliation, netting and settlement

    A shallow embedding of the computational core of the repository:

    - [Netting]         src/app/api/netting/route.ts
    - [Reconciliation]  src/app/api/reconciliation/route.ts
    - [Ledger]          the Prisma tables the handlers read and write
    - [Blockchain]      the smart-contract route (approveSettlement,
                        executeSettlement, simulateConsensus)
    - [Treasury]        src/app/api/treasury/route.ts

    JavaScript numbers are IEEE-754 doubles.  The modules named above carry
    them as rationals ([Q]) with exact arithmetic, which is what the code
    computes as long as no operation rounds; equality of amounts is [Qeq]
    ([==]).  Where a property depends on rounding the code is embedded a
    second time with the arithmetic of doubles: [DoubleNetting] keeps [Q]
    and rounds every operation to the nearest double ([Double.round]),
    [FloatReconciliation] computes on the kernel's binary64 numbers.  Dates
    are milliseconds since the epoch ([Z]).  What a handler reads from its
    environment ([Date.now()], [Math.random()], a digest) is an argument of
    its model.

    Further modules refine the handlers where a property needs it:
    [UniqueDisputes] has [db.dispute.create] throw on a dispute id that is
    taken, [Overlap] cuts the smart-contract handlers at their [await] and
    lets requests overlap.

    The definitions come first; the properties follow, one module of
    proofs for each module of definitions. *)

From Stdlib Require Import List String ZArith QArith Qabs Qminmax Qround Qpower.
From Stdlib Require Floats.
From Stdlib Require Import DecimalString DecimalZ DecimalPos.
From Stdlib Require Import Lia Lqa Bool.
Import ListNotations.

Open Scope Q_scope.

(** ** Numbers *)

(** [a < b] on JavaScript numbers, as a boolean. *)
Definition Qltb (a b : Q) : bool := negb (Qle_bool b a).

(** [xs.reduce((sum, x) => sum + f(x), 0)] *)
Definition reduce_sum {A : Type} (f : A -> Q) (xs : list A) : Q :=
  fold_left (fun sum x => sum + f x) xs 0.

(** Mathematical sum, used in statements. *)
Definition Qsum (xs : list Q) : Q := fold_right Qplus 0 xs.

(** [xs.length] as a number. *)
Definition ofNat (n : nat) : Q := inject_Z (Z.of_nat n).

(** An amount that is a whole number of hundredths of a currency unit. *)
Definition whole_cents (q : Q) : Prop := exists z : Z, q == z # 100.

(** Decimal rendering of an integer, as string interpolation gives it. *)
Definition string_of_Z (z : Z) : string := NilZero.string_of_int (Z.to_int z).

(** [Number.prototype.toFixed(1)]: the nearest tenth, ties upwards in
    magnitude (numbers of 1e21 and more, which JavaScript prints in
    exponent form, do not occur as percentages here). *)
Definition toFixed1 (x : Q) : string :=
  let mag := Qabs x in
  let n := Qfloor (mag * 10 + (1 # 2)) in
  ((if Qltb x 0 then "-" else "") ++
   string_of_Z (n / 10) ++ "." ++ string_of_Z (n mod 10))%string.

(** ** Doubles

    Arithmetic of IEEE-754 binary64 on rationals: an operation of the code
    is the exact operation followed by [round], rounding to the nearest
    number with a 53-bit significand and an exponent of at least [emin],
    ties to the even significand.  Results of magnitude [2^1024] and more,
    which the code turns into [Infinity], and divisions by zero are not
    modelled: where they could arise the properties below bound the
    amounts or the code tests the divisor. *)

Module Double.

(** Bits of the significand, and the exponent of the least positive
    double [2^-1074]. *)
Definition prec : Z := 53.
Definition emin : Z := -1074.

Definition pow2 (e : Z) : Q := 2 ^ e.

(** For positive [q], the exponent [k] with [2^k <= q < 2^(k+1)]. *)
Definition ilog2 (q : Q) : Z :=
  let k := (Z.log2 (Qnum q) - Z.log2 (Zpos (Qden q)))%Z in
  if Qle_bool (pow2 k) q then k else (k - 1)%Z.

(** The exponent of the unit in the last place of the doubles around [q]. *)
Definition ulp_exp (q : Q) : Z := Z.max emin (ilog2 (Qabs q) - (prec - 1)).

(** The nearest integer, ties to the even one. *)
Definition rne (x : Q) : Z :=
  let f := Qfloor x in
  match Qcompare (x - inject_Z f) (1 # 2) with
  | Lt => f
  | Gt => (f + 1)%Z
  | Eq => if Z.even f then f else (f + 1)%Z
  end.

Definition round (x : Q) : Q :=
  let q := Qred x in
  if Qeq_bool q 0 then 0
  else let e := ulp_exp q in Qred (inject_Z (rne (q / pow2 e)) * pow2 e).

(** [x + y], [x - y], [x * y] and [x / y] of the code. *)
Definition add (x y : Q) : Q := round (x + y).
Definition sub (x y : Q) : Q := round (x - y).
Definition mul (x y : Q) : Q := round (x * y).
Definition div (x y : Q) : Q := round (x / y).

(** The rationals that are doubles. *)
Definition representable (x : Q) : Prop :=
  exists m e : Z, (emin <= e)%Z /\ (Z.abs m < 2 ^ prec)%Z /\ x == inject_Z m * pow2 e.

End Double.

(** ** A state monad for the handlers *)

Definition M (S A : Type) : Type := S -> A * S.

Definition ret {S A : Type} (a : A) : M S A := fun s => (a, s).

Definition bind {S A B : Type} (m : M S A) (k : A -> M S B) : M S B :=
  fun s => let (a, s') := m s in k a s'.

Definition modify {S : Type} (f : S -> S) : M S unit := fun s => (tt, f s).

Definition gets {S A : Type} (f : S -> A) : M S A := fun s => (f s, s).

Notation "x <- m ;; k" := (bind m (fun x => k))
  (at level 61, m at next level, right associativity).
Notation "m ;;; k" := (bind m (fun _ => k))
  (at level 61, right associativity).

(** [for (const x of xs) { await body(x) }] *)
Fixpoint forEach {S A : Type} (xs : list A) (body : A -> M S unit) : M S unit :=
  match xs with
  | [] => ret tt
  | x :: xs' => body x ;;; forEach xs' body
  end.

(** ** Netting engine *)

Module Netting.

Record Party := { id : string; name : string }.

Module Payment.
Record t := { amount : Q }.
End Payment.

(** An invoice as returned by [db.invoice.findMany] with [issuer],
    [counterparty] and the completed [payments] included. *)
Record Invoice := {
  totalAmount : Q;
  issuer : Party;
  counterparty : Party;
  payments : list Payment.t
}.

Record NettingPosition := {
  partyId : string;
  partyName : string;
  totalReceivable : Q;
  totalPayable : Q;
  netPosition : Q
}.

Record SettlementLeg := {
  payerId : string;
  payerName : string;
  payeeId : string;
  payeeName : string;
  amount : Q;
  currency : string
}.

(** [Map<string, NettingPosition>]: keys are unique and iteration follows
    insertion order, so the map is an association list. *)
Definition PositionMap := list (string * NettingPosition).

Fixpoint Map_has (k : string) (m : PositionMap) : bool :=
  match m with
  | [] => false
  | (k', _) :: m' => if String.eqb k k' then true else Map_has k m'
  end.

Fixpoint Map_set (k : string) (v : NettingPosition) (m : PositionMap) : PositionMap :=
  match m with
  | [] => [(k, v)]
  | (k', v') :: m' =>
      if String.eqb k k' then (k', v) :: m' else (k', v') :: Map_set k v m'
  end.

(** [const pos = map.get(k)!] followed by assignments to fields of [pos]:
    the object stored under [k] is updated in place. *)
Fixpoint Map_modify (k : string) (f : NettingPosition -> NettingPosition)
    (m : PositionMap) : PositionMap :=
  match m with
  | [] => []
  | (k', v') :: m' =>
      if String.eqb k k' then (k', f v') :: m' else (k', v') :: Map_modify k f m'
  end.

Definition Map_values (m : PositionMap) : list NettingPosition := map snd m.

Definition newPosition (p : Party) : NettingPosition :=
  {| partyId := id p; partyName := name p;
     totalReceivable := 0; totalPayable := 0; netPosition := 0 |}.

Definition addReceivable (outstanding : Q) (p : NettingPosition) : NettingPosition :=
  {| partyId := partyId p; partyName := partyName p;
     totalReceivable := totalReceivable p + outstanding;
     totalPayable := totalPayable p;
     netPosition := netPosition p + outstanding |}.

Definition addPayable (outstanding : Q) (p : NettingPosition) : NettingPosition :=
  {| partyId := partyId p; partyName := partyName p;
     totalReceivable := totalReceivable p;
     totalPayable := totalPayable p + outstanding;
     netPosition := netPosition p - outstanding |}.

Definition ensure (p : Party) (m : PositionMap) : PositionMap :=
  if Map_has (id p) m then m else Map_set (id p) (newPosition p) m.

(** One iteration of the [for (const invoice of invoices)] loop. *)
Definition nettingStep (positionMap : PositionMap) (invoice : Invoice) : PositionMap :=
  let totalPaid := reduce_sum Payment.amount (payments invoice) in
  let outstanding := totalAmount invoice - totalPaid in
  if Qle_bool outstanding 0 then positionMap
  else
    let m1 := ensure (issuer invoice) positionMap in
    let m2 := Map_modify (id (issuer invoice)) (addReceivable outstanding) m1 in
    let m3 := ensure (counterparty invoice) m2 in
    Map_modify (id (counterparty invoice)) (addPayable outstanding) m3.

Definition calculateNettingPositions (invoices : list Invoice) : list NettingPosition :=
  Map_values (fold_left nettingStep invoices []).

(** [Array.prototype.sort] with a comparator is stable; the stable sort of a
    list under a comparator is unique, here written as an insertion sort.
    [le a b] is the sign test [compare(a, b) <= 0]. *)
Fixpoint sort_insert (le : NettingPosition -> NettingPosition -> bool)
    (x : NettingPosition) (l : list NettingPosition) : list NettingPosition :=
  match l with
  | [] => [x]
  | y :: l' => if le x y then x :: y :: l' else y :: sort_insert le x l'
  end.

Definition sort (le : NettingPosition -> NettingPosition -> bool)
    (l : list NettingPosition) : list NettingPosition :=
  fold_right (sort_insert le) [] l.

Definition setNet (p : NettingPosition) (n : Q) : NettingPosition :=
  {| partyId := partyId p; partyName := partyName p;
     totalReceivable := totalReceivable p; totalPayable := totalPayable p;
     netPosition := n |}.

(** The [while (debtorIndex < debtors.length && creditorIndex < creditors.length)]
    loop.  The two lists are the parts of the arrays from the current indices
    on; their heads carry the positions as mutated so far.  An iteration
    whose [settlementAmount] is not positive changes nothing and the
    JavaScript loop spins: the model then consumes fuel, and [None] is
    running out of it. *)
Fixpoint settle (fuel : nat) (debtors creditors : list NettingPosition)
    {struct fuel} : option (list SettlementLeg) :=
  match debtors, creditors with
  | debtor :: ds, creditor :: cs =>
      match fuel with
      | O => None
      | S fuel' =>
          let debtorOwes := Qabs (netPosition debtor) in
          let creditorIsOwed := netPosition creditor in
          let settlementAmount := Qmin debtorOwes creditorIsOwed in
          if Qltb 0 settlementAmount then
            let leg := {| payerId := partyId debtor; payerName := partyName debtor;
                          payeeId := partyId creditor; payeeName := partyName creditor;
                          amount := settlementAmount; currency := "GHS" |} in
            let debtor' := setNet debtor (netPosition debtor + settlementAmount) in
            let creditor' := setNet creditor (netPosition creditor - settlementAmount) in
            let debtors' :=
              if Qltb (Qabs (netPosition debtor')) (1 # 100) then ds else debtor' :: ds in
            let creditors' :=
              if Qltb (netPosition creditor') (1 # 100) then cs else creditor' :: cs in
            option_map (cons leg) (settle fuel' debtors' creditors')
          else settle fuel' debtors creditors
      end
  | _, _ => Some []
  end.

Definition debtorsOf (positions : list NettingPosition) : list NettingPosition :=
  sort (fun a b => Qle_bool (netPosition a - netPosition b) 0)
       (filter (fun p => Qltb (netPosition p) 0) positions).

Definition creditorsOf (positions : list NettingPosition) : list NettingPosition :=
  sort (fun a b => Qle_bool (netPosition b - netPosition a) 0)
       (filter (fun p => Qltb 0 (netPosition p)) positions).

Definition generateSettlementLegs (fuel : nat) (positions : list NettingPosition)
    : option (list SettlementLeg) :=
  settle fuel (debtorsOf positions) (creditorsOf positions).

(** Quantities the coverage property speaks about. *)
Definition legTotal (legs : list SettlementLeg) : Q := Qsum (map amount legs).

Definition netTotal (positions : list NettingPosition) : Q :=
  Qsum (map netPosition positions).

Definition positiveTotal (positions : list NettingPosition) : Q :=
  Qsum (map netPosition (filter (fun p => Qltb 0 (netPosition p)) positions)).


(** What a list of debtors still owes, and what a list of creditors is
    still owed. *)
Definition owed (debtors : list NettingPosition) : Q :=
  Qsum (map (fun p => - netPosition p) debtors).

Definition due (creditors : list NettingPosition) : Q :=
  Qsum (map netPosition creditors).

Definition mapNet (m : PositionMap) : Q := netTotal (Map_values m).

Definition allCents (positions : list NettingPosition) : Prop :=
  Forall (fun p => whole_cents (netPosition p)) positions.

Definition isNeg (p : NettingPosition) : Prop := netPosition p < 0.
Definition isPos (p : NettingPosition) : Prop := 0 < netPosition p.

(** The pointer-advance threshold of the loop, [0.01]. *)
Definition cent : Q := 1 # 100.

(** What the legs of a run of the loop cover: never more than either side,
    all but a hundredth per party of one side, and one side exactly when
    the positions are whole hundredths. *)
Definition covers (ds cs : list NettingPosition) (legs : list SettlementLeg) : Prop :=
  legTotal legs <= owed ds /\ legTotal legs <= due cs /\
  (owed ds - legTotal legs <= cent * ofNat (List.length ds) \/
   due cs - legTotal legs <= cent * ofNat (List.length cs)) /\
  (allCents ds -> allCents cs ->
   legTotal legs == owed ds \/ legTotal legs == due cs).

(** Sample books. *)
Definition position (party : string) (net : Q) : NettingPosition :=
  {| partyId := party; partyName := party;
     totalReceivable := 0; totalPayable := 0; netPosition := net |}.

Definition threeParties : list NettingPosition :=
  [position "B" 0; position "A" (-60); position "C" 60].


End Netting.

(** ** Ledger store: the Prisma tables behind [db]

    The Prisma schema is not part of the sources; rows carry the columns the
    handlers read or write, and the enumerations list the values the sources
    use. *)

Module Ledger.

Module InvoiceStatus.
Inductive t := PENDING | MATCHED | PARTIALLY_MATCHED | DISPUTED | PAID | PARTIALLY_PAID.
End InvoiceStatus.

Module DisputeStatus.
Inductive t :=
  OPEN | UNDER_REVIEW | EVIDENCE_REQUESTED | RESOLVED | ESCALATED | CLOSED
| PARTIALLY_ACCEPTED.
End DisputeStatus.

Module DisputeReason.
Inductive t :=
  QUANTITY_VARIANCE | PRICE_VARIANCE | MISSING_DELIVERY_PROOF | LATE_DELIVERY
| QUALITY_ISSUE | DUPLICATE_INVOICE | FX_MISMATCH | CONTRACT_BREACH | OTHER.
End DisputeReason.

Module SettlementStatus.
Inductive t := PENDING | COMPUTED | APPROVED | EXECUTED | FAILED | REJECTED.
End SettlementStatus.

Module PaymentStatus.
Inductive t := PENDING | PROCESSING | COMPLETED | FAILED | REVERSED.
End PaymentStatus.

Module Invoice.
(** [lineItems] after [JSON.parse], its quantities being numbers; a
    property that is absent reads as [undefined] ([None]). *)
Record LineItems := { energy : option Q; gas : option Q; fuel : option Q }.

(** [lineItems] is [None] when [JSON.parse(invoice.lineItems)] or the
    property reads on its result throw. *)
Record t := {
  id : string;
  invoiceId : string;
  contractId : string;
  issuerId : string;
  counterpartyId : string;
  periodStart : Z;
  periodEnd : Z;
  lineItems : option LineItems;
  totalAmount : Q;
  status : InvoiceStatus.t;
  confidenceScore : option Q;
  matchedDeliveries : option (list string)
}.
End Invoice.

Module Delivery.
Record t := {
  deliveryId : string;
  contractId : string;
  timestamp : Z;
  quantity : Q
}.
End Delivery.

Module Dispute.
Record t := {
  disputeId : string;
  invoiceId : string;
  contractId : string;
  raisedById : string;
  receivedById : string;
  reasonCode : DisputeReason.t;
  description : string;
  status : DisputeStatus.t;
  slaDeadline : Z
}.

(** Modelled from the spec: the column default of [Dispute.status] in the
    Prisma schema, which the sources do not include.  The spec gives a
    dispute the status [OPEN] on creation; the other routes that create
    disputes pass [status: 'OPEN'] explicitly. *)
Definition status_default : DisputeStatus.t := DisputeStatus.OPEN.
End Dispute.

Module SettlementBatch.
Record t := {
  batchId : string;
  period : string;
  fxRate : Q;
  totalNetAmount : Q;
  status : SettlementStatus.t;
  smartContractTxId : option string;
  executedAt : option Z
}.
End SettlementBatch.

Module Payment.
Record t := {
  paymentId : string;
  payerId : string;
  payeeId : string;
  amount : Q;
  currency : string;
  valueDate : Z;
  bankReference : option string;
  status : PaymentStatus.t;
  settlementBatchId : option string
}.
End Payment.

Module AuditLog.
Record t := {
  action : string;
  entityType : string;
  entityId : string;
  newValues : string;
  timestamp : Z
}.
End AuditLog.

Module User.
Record t := { id : string; role : string }.
End User.

Record Db := {
  invoice : list Invoice.t;
  dispute : list Dispute.t;
  settlementBatch : list SettlementBatch.t;
  payment : list Payment.t;
  auditLog : list AuditLog.t;
  user : list User.t
}.

Definition with_invoice (f : list Invoice.t -> list Invoice.t) (d : Db) : Db :=
  {| invoice := f (invoice d); dispute := dispute d;
     settlementBatch := settlementBatch d; payment := payment d;
     auditLog := auditLog d; user := user d |}.

Definition with_dispute (f : list Dispute.t -> list Dispute.t) (d : Db) : Db :=
  {| invoice := invoice d; dispute := f (dispute d);
     settlementBatch := settlementBatch d; payment := payment d;
     auditLog := auditLog d; user := user d |}.

Definition with_settlementBatch
    (f : list SettlementBatch.t -> list SettlementBatch.t) (d : Db) : Db :=
  {| invoice := invoice d; dispute := dispute d;
     settlementBatch := f (settlementBatch d); payment := payment d;
     auditLog := auditLog d; user := user d |}.

Definition with_payment (f : list Payment.t -> list Payment.t) (d : Db) : Db :=
  {| invoice := invoice d; dispute := dispute d;
     settlementBatch := settlementBatch d; payment := f (payment d);
     auditLog := auditLog d; user := user d |}.

(** [db.invoice.updateMany({ where: { invoiceId }, data })] *)
Definition invoice_updateMany (invoiceId : string) (data : Invoice.t -> Invoice.t)
    : Db -> Db :=
  with_invoice (map (fun r =>
    if String.eqb (Invoice.invoiceId r) invoiceId then data r else r)).

(** [db.invoice.findUnique({ where: { invoiceId } })] *)
Definition invoice_findUnique (invoiceId : string) (d : Db) : option Invoice.t :=
  find (fun r => String.eqb (Invoice.invoiceId r) invoiceId) (invoice d).

(** [db.dispute.create({ data })], for a call that succeeds.  The column
    [disputeId] is unique: [UniqueDisputes] has the call that throws when
    the id is taken. *)
Definition dispute_create (row : Dispute.t) : Db -> Db :=
  with_dispute (fun rows => rows ++ [row]).

(** [db.settlementBatch.updateMany({ where: { batchId }, data })] *)
Definition settlementBatch_updateMany (batchId : string)
    (data : SettlementBatch.t -> SettlementBatch.t) : Db -> Db :=
  with_settlementBatch (map (fun r =>
    if String.eqb (SettlementBatch.batchId r) batchId then data r else r)).

(** [db.settlementBatch.findUnique({ where: { batchId } })] *)
Definition settlementBatch_findUnique (batchId : string) (d : Db)
    : option SettlementBatch.t :=
  find (fun r => String.eqb (SettlementBatch.batchId r) batchId) (settlementBatch d).

(** [db.payment.create({ data })] *)
Definition payment_create (row : Payment.t) : Db -> Db :=
  with_payment (fun rows => rows ++ [row]).

(** [db.auditLog.create({ data })] *)
Definition auditLog_create (row : AuditLog.t) (d : Db) : Db :=
  {| invoice := invoice d; dispute := dispute d;
     settlementBatch := settlementBatch d; payment := payment d;
     auditLog := auditLog d ++ [row]; user := user d |}.

(** [db.user.findUnique({ where: { id } })] *)
Definition user_findUnique (id : string) (d : Db) : option User.t :=
  find (fun r => String.eqb (User.id r) id) (user d).

Definition setInvoiceStatus (s : InvoiceStatus.t) (r : Invoice.t) : Invoice.t :=
  {| Invoice.id := Invoice.id r; Invoice.invoiceId := Invoice.invoiceId r;
     Invoice.contractId := Invoice.contractId r;
     Invoice.issuerId := Invoice.issuerId r;
     Invoice.counterpartyId := Invoice.counterpartyId r;
     Invoice.periodStart := Invoice.periodStart r;
     Invoice.periodEnd := Invoice.periodEnd r;
     Invoice.lineItems := Invoice.lineItems r;
     Invoice.totalAmount := Invoice.totalAmount r;
     Invoice.status := s;
     Invoice.confidenceScore := Invoice.confidenceScore r;
     Invoice.matchedDeliveries := Invoice.matchedDeliveries r |}.

Definition setInvoiceMatched (score : Q) (deliveryIds : list string) (r : Invoice.t)
    : Invoice.t :=
  {| Invoice.id := Invoice.id r; Invoice.invoiceId := Invoice.invoiceId r;
     Invoice.contractId := Invoice.contractId r;
     Invoice.issuerId := Invoice.issuerId r;
     Invoice.counterpartyId := Invoice.counterpartyId r;
     Invoice.periodStart := Invoice.periodStart r;
     Invoice.periodEnd := Invoice.periodEnd r;
     Invoice.lineItems := Invoice.lineItems r;
     Invoice.totalAmount := Invoice.totalAmount r;
     Invoice.status := InvoiceStatus.MATCHED;
     Invoice.confidenceScore := Some score;
     Invoice.matchedDeliveries := Some deliveryIds |}.

Definition setBatchStatus (s : SettlementStatus.t) (tx : option string)
    (at_ : option Z) (r : SettlementBatch.t) : SettlementBatch.t :=
  {| SettlementBatch.batchId := SettlementBatch.batchId r;
     SettlementBatch.period := SettlementBatch.period r;
     SettlementBatch.fxRate := SettlementBatch.fxRate r;
     SettlementBatch.totalNetAmount := SettlementBatch.totalNetAmount r;
     SettlementBatch.status := s;
     SettlementBatch.smartContractTxId := tx;
     SettlementBatch.executedAt := at_ |}.

End Ledger.

(** ** Reconciliation engine (src/app/api/reconciliation/route.ts) *)

Module Reconciliation.

Import Ledger.

Inductive RuleType := TIME_WINDOW | TOLERANCE_BAND | CONTRACT_TERMS.
Inductive RuleUnit := DAYS | PERCENTAGE | FIXED.

Record ReconciliationRule := {
  type : RuleType;
  value : Q;
  unit_ : RuleUnit
}.

Inductive Severity := HIGH | MEDIUM | LOW.

Module Matched.
Record t := {
  invoiceId : string;
  deliveryIds : list string;
  confidenceScore : Q;
  matchedAmount : Q;
  variance : Q
}.
End Matched.

Module Exception.
Record t := {
  invoiceId : string;
  reason : string;
  severity : Severity;
  recommendation : string
}.
End Exception.

Record Summary := {
  totalInvoices : nat;
  matchedInvoices : nat;
  exceptionalInvoices : nat;
  matchRate : Q;
  totalMatchedAmount : Q
}.

Record ReconciliationResult := {
  matched : list Matched.t;
  exceptions : list Exception.t;
  summary : Summary
}.

Definition getDefaultRules : list ReconciliationRule :=
  [ {| type := TIME_WINDOW; value := 7; unit_ := DAYS |};
    {| type := TOLERANCE_BAND; value := 5; unit_ := PERCENTAGE |};
    {| type := CONTRACT_TERMS; value := 1; unit_ := FIXED |} ].

Definition isTimeWindow (r : ReconciliationRule) : bool :=
  match type r with TIME_WINDOW => true | _ => false end.

Definition isToleranceBand (r : ReconciliationRule) : bool :=
  match type r with TOLERANCE_BAND => true | _ => false end.

Definition timeWindowMs (rules : list ReconciliationRule) : Q :=
  match find isTimeWindow rules with
  | Some timeWindowRule => value timeWindowRule * 24 * 60 * 60 * 1000
  | None => 7 * 24 * 60 * 60 * 1000
  end.

Definition tolerancePercent (rules : list ReconciliationRule) : Q :=
  match find isToleranceBand rules with
  | Some toleranceRule => value toleranceRule
  | None => 5
  end.

(** The [deliveries.filter] callback. *)
Definition inWindow (rules : list ReconciliationRule) (invoice : Invoice.t)
    (delivery : Delivery.t) : bool :=
  if negb (String.eqb (Delivery.contractId delivery) (Invoice.contractId invoice))
  then false
  else
    let deliveryTime := inject_Z (Delivery.timestamp delivery) in
    let invoiceStart := inject_Z (Invoice.periodStart invoice) in
    let invoiceEnd := inject_Z (Invoice.periodEnd invoice) in
    Qle_bool (invoiceStart - timeWindowMs rules) deliveryTime &&
    Qle_bool deliveryTime (invoiceEnd + timeWindowMs rules).

Definition matchingDeliveries (rules : list ReconciliationRule)
    (deliveries : list Delivery.t) (invoice : Invoice.t) : list Delivery.t :=
  filter (inWindow rules invoice) deliveries.

Definition totalDelivered (ds : list Delivery.t) : Q :=
  reduce_sum Delivery.quantity ds.

(** Truthiness of a numeric property: [undefined] and [0] are falsy. *)
Definition truthy (v : option Q) : bool :=
  match v with
  | Some q => negb (Qeq_bool q 0)
  | None => false
  end.

Definition numberOr0 (v : option Q) : Q :=
  match v with Some q => q | None => 0 end.

(** [lineItems.energy || lineItems.gas || lineItems.fuel || 0] inside the
    [try]; the [catch] leaves [expectedQuantity] at [0]. *)
Definition expectedQuantity (invoice : Invoice.t) : Q :=
  match Invoice.lineItems invoice with
  | None => 0
  | Some lineItems =>
      if truthy (Invoice.energy lineItems) then numberOr0 (Invoice.energy lineItems)
      else if truthy (Invoice.gas lineItems) then numberOr0 (Invoice.gas lineItems)
      else if truthy (Invoice.fuel lineItems) then numberOr0 (Invoice.fuel lineItems)
      else 0
  end.

Definition varianceOf (totalDelivered expectedQuantity : Q) : Q :=
  if Qltb 0 expectedQuantity
  then Qabs ((totalDelivered - expectedQuantity) / expectedQuantity * 100)
  else 100.

Definition confidenceOf (variance : Q) : Q := Qmax 0 (100 - variance).

Definition severityOf (variance : Q) : Severity :=
  if Qltb 20 variance then HIGH
  else if Qltb 10 variance then MEDIUM
  else LOW.

(** The body of [for (const invoice of invoices)]: what is pushed, and on
    which of the two arrays. *)
Definition reconcileInvoice (rules : list ReconciliationRule)
    (deliveries : list Delivery.t) (invoice : Invoice.t) : Matched.t + Exception.t :=
  let matching := matchingDeliveries rules deliveries invoice in
  if Nat.eqb (List.length matching) 0 then
    inr {| Exception.invoiceId := Invoice.invoiceId invoice;
           Exception.reason := "NO_MATCHING_DELIVERIES";
           Exception.severity := HIGH;
           Exception.recommendation := "Verify delivery data or invoice period" |}
  else
    let variance := varianceOf (totalDelivered matching) (expectedQuantity invoice) in
    let confidenceScore := confidenceOf variance in
    if Qle_bool variance (tolerancePercent rules) then
      inl {| Matched.invoiceId := Invoice.invoiceId invoice;
             Matched.deliveryIds := map Delivery.deliveryId matching;
             Matched.confidenceScore := confidenceScore;
             Matched.matchedAmount := Invoice.totalAmount invoice;
             Matched.variance := variance |}
    else
      inr {| Exception.invoiceId := Invoice.invoiceId invoice;
             Exception.reason := "QUANTITY_VARIANCE";
             Exception.severity := severityOf variance;
             Exception.recommendation :=
               ("Quantity variance of " ++ toFixed1 variance ++
                "% exceeds tolerance")%string |}.

Definition pushResult (acc : list Matched.t * list Exception.t)
    (r : Matched.t + Exception.t) : list Matched.t * list Exception.t :=
  match r with
  | inl m => (fst acc ++ [m], snd acc)
  | inr e => (fst acc, snd acc ++ [e])
  end.

Definition performReconciliation (invoices : list Invoice.t)
    (deliveries : list Delivery.t) (rules : list ReconciliationRule)
    : ReconciliationResult :=
  let '(matched, exceptions) :=
    fold_left (fun acc invoice =>
                 pushResult acc (reconcileInvoice rules deliveries invoice))
              invoices ([], []) in
  let summary :=
    {| totalInvoices := List.length invoices;
       matchedInvoices := List.length matched;
       exceptionalInvoices := List.length exceptions;
       matchRate :=
         if Nat.ltb 0 (List.length invoices)
         then ofNat (List.length matched) / ofNat (List.length invoices) * 100
         else 0;
       totalMatchedAmount := reduce_sum Matched.matchedAmount matched |} in
  {| matched := matched; exceptions := exceptions; summary := summary |}.

(** The results pushed on [matched] and on [exceptions], in order. *)
Fixpoint lefts {A B : Type} (l : list (A + B)) : list A :=
  match l with
  | [] => []
  | inl a :: l' => a :: lefts l'
  | inr _ :: l' => lefts l'
  end.

Fixpoint rights {A B : Type} (l : list (A + B)) : list B :=
  match l with
  | [] => []
  | inl _ :: l' => rights l'
  | inr b :: l' => b :: rights l'
  end.

(** A delivery matches an invoice: same contract, and its timestamp within
    the time window around the invoice period. *)
Definition eligible (rules : list ReconciliationRule) (invoice : Invoice.t)
    (delivery : Delivery.t) : Prop :=
  Delivery.contractId delivery = Invoice.contractId invoice /\
  inject_Z (Invoice.periodStart invoice) - timeWindowMs rules
    <= inject_Z (Delivery.timestamp delivery) /\
  inject_Z (Delivery.timestamp delivery)
    <= inject_Z (Invoice.periodEnd invoice) + timeWindowMs rules.

(** The variance formula in the words of the specification:
    [|totalDelivered - expectedQuantity| / expectedQuantity * 100], and 100
    when [expectedQuantity] is 0. *)
Definition statedVariance (totalDelivered expectedQuantity : Q) : Q :=
  if Qeq_bool expectedQuantity 0 then 100
  else Qabs (totalDelivered - expectedQuantity) / expectedQuantity * 100.

(** State of [updateInvoiceStatuses]: the tables and the number of
    [Date.now()] readings taken so far; [clock k] is the k-th reading. *)
Definition State : Type := Db * nat.

Definition Date_now (clock : nat -> Z) : M State Z :=
  fun s => (clock (snd s), (fst s, S (snd s))).

Definition onDb (f : Db -> Db) : M State unit :=
  modify (fun s => (f (fst s), snd s)).

Definition sevenDaysMs : Z := 7 * 24 * 60 * 60 * 1000.

Definition isHigh (s : Severity) : bool :=
  match s with HIGH => true | _ => false end.

Definition createDisputeFor (clock : nat -> Z) (exception : Exception.t)
    (invoice : Invoice.t) : M State unit :=
  t1 <- Date_now clock ;;
  t2 <- Date_now clock ;;
  onDb (dispute_create
    {| Dispute.disputeId := ("DSP-" ++ string_of_Z t1)%string;
       Dispute.invoiceId := Invoice.id invoice;
       Dispute.contractId := Invoice.contractId invoice;
       Dispute.raisedById := Invoice.counterpartyId invoice;
       Dispute.receivedById := Invoice.issuerId invoice;
       Dispute.reasonCode := DisputeReason.QUANTITY_VARIANCE;
       Dispute.description := Exception.recommendation exception;
       Dispute.status := Dispute.status_default;
       Dispute.slaDeadline := (t2 + sevenDaysMs)%Z |}).

Definition applyMatched (match_ : Matched.t) : M State unit :=
  onDb (invoice_updateMany (Matched.invoiceId match_)
          (setInvoiceMatched (Matched.confidenceScore match_)
                             (Matched.deliveryIds match_))).

Definition applyException (clock : nat -> Z) (exception : Exception.t) : M State unit :=
  onDb (invoice_updateMany (Exception.invoiceId exception)
          (setInvoiceStatus InvoiceStatus.PARTIALLY_MATCHED)) ;;;
  if isHigh (Exception.severity exception) then
    invoice <- gets (fun s => invoice_findUnique (Exception.invoiceId exception) (fst s)) ;;
    match invoice with
    | Some invoice => createDisputeFor clock exception invoice
    | None => ret tt
    end
  else ret tt.

Definition updateInvoiceStatuses (clock : nat -> Z) (matched : list Matched.t)
    (exceptions : list Exception.t) : M State unit :=
  forEach matched applyMatched ;;;
  forEach exceptions (applyException clock).

(** What the exception loop does to an invoice row. *)
Definition isException (exceptions : list Exception.t) (r : Invoice.t) : bool :=
  existsb (fun e => String.eqb (Invoice.invoiceId r) (Exception.invoiceId e)) exceptions.

(** An exception for which [updateInvoiceStatuses] creates a dispute: high
    severity, and [findUnique] returns its invoice. *)
Definition willDispute (db : Db) (e : Exception.t) : bool :=
  isHigh (Exception.severity e) &&
  match invoice_findUnique (Exception.invoiceId e) db with
  | Some _ => true
  | None => false
  end.

Definition markException (e : Exception.t) (r : Invoice.t) : Invoice.t :=
  if String.eqb (Invoice.invoiceId r) (Exception.invoiceId e)
  then setInvoiceStatus InvoiceStatus.PARTIALLY_MATCHED r else r.

Definition markExceptions (exceptions : list Exception.t) (r : Invoice.t) : Invoice.t :=
  if isException exceptions r
  then setInvoiceStatus InvoiceStatus.PARTIALLY_MATCHED r else r.

(** The tables [updateInvoiceStatuses] never touches. *)
Definition sameOthers (db db' : Db) : Prop :=
  settlementBatch db' = settlementBatch db /\ payment db' = payment db /\
  auditLog db' = auditLog db /\ user db' = user db.

(** Rows that are the same invoice: the columns [updateInvoiceStatuses]
    never writes. *)
Definition sameInvoice (r r' : Invoice.t) : Prop :=
  Invoice.id r = Invoice.id r' /\
  Invoice.invoiceId r = Invoice.invoiceId r' /\
  Invoice.contractId r = Invoice.contractId r' /\
  Invoice.issuerId r = Invoice.issuerId r' /\
  Invoice.counterpartyId r = Invoice.counterpartyId r'.

(** Dispute [d] is the one raised for exception [e]: against the invoice the
    exception names in [db], by its counterparty, with the SLA deadline
    seven days after a clock reading taken from reading [n] on. *)
Definition raisedFor (clock : nat -> Z) (db : Db) (n : nat)
    (e : Exception.t) (d : Dispute.t) : Prop :=
  exists inv k,
    invoice_findUnique (Exception.invoiceId e) db = Some inv /\
    (n <= k)%nat /\
    Dispute.invoiceId d = Invoice.id inv /\
    Dispute.contractId d = Invoice.contractId inv /\
    Dispute.reasonCode d = DisputeReason.QUANTITY_VARIANCE /\
    Dispute.status d = DisputeStatus.OPEN /\
    Dispute.raisedById d = Invoice.counterpartyId inv /\
    Dispute.receivedById d = Invoice.issuerId inv /\
    Dispute.slaDeadline d = (clock k + 7 * 24 * 60 * 60 * 1000)%Z /\
    Dispute.description d = Exception.recommendation e.

(** Sample data: one contract, one invoice for 1000 units over a day, and
    deliveries of 1030, 700 and 5 units. *)
Definition sampleInvoice (invoiceId : string) (energy : Q) : Invoice.t :=
  {| Invoice.id := ("id-" ++ invoiceId)%string; Invoice.invoiceId := invoiceId;
     Invoice.contractId := "CTR-1";
     Invoice.issuerId := "VRA"; Invoice.counterpartyId := "ECG";
     Invoice.periodStart := 0; Invoice.periodEnd := 86400000;
     Invoice.lineItems :=
       Some {| Invoice.energy := Some energy; Invoice.gas := None;
               Invoice.fuel := None |};
     Invoice.totalAmount := 5000;
     Invoice.status := InvoiceStatus.PENDING;
     Invoice.confidenceScore := None;
     Invoice.matchedDeliveries := None |}.

Definition sampleDelivery (quantity : Q) : Delivery.t :=
  {| Delivery.deliveryId := "DEL-1"; Delivery.contractId := "CTR-1";
     Delivery.timestamp := 3600000; Delivery.quantity := quantity |}.

Definition otherDelivery : Delivery.t :=
  {| Delivery.deliveryId := "DEL-9"; Delivery.contractId := "CTR-2";
     Delivery.timestamp := 3600000; Delivery.quantity := 1000 |}.

Definition sampleDb (rows : list Invoice.t) : Db :=
  {| invoice := rows; dispute := []; settlementBatch := []; payment := [];
     auditLog := []; user := [] |}.

Definition sampleClock (k : nat) : Z := (1700000000000 + Z.of_nat k)%Z.

Definition inv1 : Invoice.t := sampleInvoice "INV-1" 1000.
Definition inv2 : Invoice.t := sampleInvoice "INV-2" 2000.

(** A run over two invoices and one delivery of 1030 units: INV-1 matches
    (variance 3), INV-2 is a HIGH exception (variance 48.5). *)
Definition sampleRun : ReconciliationResult :=
  performReconciliation [inv1; inv2] [sampleDelivery 1030] getDefaultRules.

End Reconciliation.

(** ** Smart-contract route: the settlement handlers of the ledger simulator *)

Module Blockchain.

Import Ledger.

Inductive ContractType :=
  INVOICE_REGISTRATION | DELIVERY_LINK | DISPUTE_OPEN
| SETTLEMENT_APPROVAL | SETTLEMENT_EXECUTION.

Module TxStatus.
Inductive t := PENDING | CONFIRMED | FAILED.
End TxStatus.

(** An element of [executionData.settlementLegs]. *)
Record Leg := {
  payerId : string;
  payeeId : string;
  amount : Q;
  currency : string;
  bankReference : option string
}.

(** The [data] object of a transaction, by handler. *)
Inductive TxData :=
| RegistrationData (invoiceId contractId : string) (amount : Q)
    (period invoiceHash : string)
| ApprovalData (batchId : string) (totalAmount : Q)
    (netPositions : list (string * Q)) (approvals : list string)
| ExecutionData (batchId : string) (settlementLegs : list Leg) (totalAmount : Q)
    (bankReferences : list string) (executionTime : option Z).

Record SmartContractTransaction := {
  txId : string;
  contractType : ContractType;
  parties : list string;
  data : TxData;
  hash : string;
  timestamp : Z;
  blockNumber : nat;
  status : TxStatus.t
}.

(** The module-level [blockchainState]; its [consensus] map is never read
    or written. *)
Record BlockchainState := {
  transactions : list SmartContractTransaction;
  currentBlock : nat
}.

Definition State : Type := Db * BlockchainState.

(** What one handler call reads from its environment: [Date.now()] and the
    random suffix of the transaction id, the SHA-256 digest of the request,
    [new Date()], the [Math.random()] draw of [simulateConsensus], and for
    [executeSettlement] the date of the status update and, per leg, the
    [Date.now()], random suffix and [new Date()] of the payment record. *)
Record Env := {
  txStamp : Z;
  txSuffix : string;
  sha256 : string;
  txTime : Z;
  consensusDraw : Q;
  executedTime : Z;
  payStamp : nat -> Z;
  paySuffix : nat -> string;
  payDate : nat -> Z
}.

(** The body of a REGISTER_INVOICE request. *)
Record InvoiceData := {
  in_invoiceId : string;
  in_contractId : string;
  in_issuerId : string;
  in_counterpartyId : string;
  in_amount : Q;
  in_period : string;
  in_hash : string
}.

Record SettlementData := {
  sd_batchId : string;
  sd_totalAmount : Q;
  sd_netPositions : list (string * Q);
  approvers : list string;
  approvals : list string
}.

Record ExecutionRequest := {
  ex_batchId : string;
  batchIdId : option string;
  ex_parties : list string;
  settlementLegs : list Leg;
  ex_totalAmount : Q;
  bankReferences : list string;
  executionTime : option Z
}.

Record Response := {
  success : bool;
  transaction : SmartContractTransaction;
  message : string
}.

(** [return Math.random() > 0.05] *)
Definition simulateConsensus (env : Env) (transaction : SmartContractTransaction) : bool :=
  Qltb (5 # 100) (consensusDraw env).

Definition setTxStatus (s : TxStatus.t) (tx : SmartContractTransaction)
    : SmartContractTransaction :=
  {| txId := txId tx; contractType := contractType tx; parties := parties tx;
     data := data tx; hash := hash tx; timestamp := timestamp tx;
     blockNumber := blockNumber tx; status := s |}.

(** [blockchainState.transactions.push(transaction); blockchainState.currentBlock++] *)
Definition commit (tx : SmartContractTransaction) : M State unit :=
  modify (fun s =>
    (fst s, {| transactions := transactions (snd s) ++ [tx];
               currentBlock := S (currentBlock (snd s)) |})).

Definition onDb (f : Db -> Db) : M State unit :=
  modify (fun s => (f (fst s), snd s)).

(** [JSON.stringify({ txId, blockNumber: transaction.blockNumber, hash })];
    neither string holds a character that JSON escapes. *)
Definition jsonQuote : string := String (Ascii.ascii_of_nat 34) EmptyString.

Definition registrationValues (txId : string) (blockNumber : nat) (hash : string)
    : string :=
  ("{" ++ jsonQuote ++ "txId" ++ jsonQuote ++ ":" ++ jsonQuote ++ txId ++ jsonQuote
   ++ "," ++ jsonQuote ++ "blockNumber" ++ jsonQuote ++ ":"
   ++ string_of_Z (Z.of_nat blockNumber)
   ++ "," ++ jsonQuote ++ "hash" ++ jsonQuote ++ ":" ++ jsonQuote ++ hash ++ jsonQuote
   ++ "}")%string.

(** [auditTime] is the [new Date()] of the audit row. *)
Definition registerInvoice (env : Env) (auditTime : Z) (invoiceData : InvoiceData)
    : M State Response :=
  let txId := ("TX_INV_" ++ string_of_Z (txStamp env) ++ "_" ++ txSuffix env)%string in
  block <- gets (fun s => currentBlock (snd s)) ;;
  let transaction :=
    {| txId := txId; contractType := INVOICE_REGISTRATION;
       parties := [in_issuerId invoiceData; in_counterpartyId invoiceData];
       data := RegistrationData (in_invoiceId invoiceData) (in_contractId invoiceData)
                 (in_amount invoiceData) (in_period invoiceData) (in_hash invoiceData);
       hash := sha256 env; timestamp := txTime env;
       blockNumber := S block; status := TxStatus.PENDING |} in
  let consensus := simulateConsensus env transaction in
  let transaction :=
    setTxStatus (if consensus then TxStatus.CONFIRMED else TxStatus.FAILED) transaction in
  (if consensus then
     commit transaction ;;;
     onDb (auditLog_create
             {| AuditLog.action := "BLOCKCHAIN_INVOICE_REGISTER";
                AuditLog.entityType := "invoice";
                AuditLog.entityId := in_invoiceId invoiceData;
                AuditLog.newValues :=
                  registrationValues txId (blockNumber transaction) (sha256 env);
                AuditLog.timestamp := auditTime |})
   else ret tt) ;;;
  ret {| success := consensus; transaction := transaction;
         message := if consensus then "Invoice registered on blockchain"
                    else "Consensus failed" |}.

(** [Math.ceil(settlementData.approvers.length * 0.67)]: the literal is
    the double nearest to 0.67 and the product is rounded. *)
Definition requiredApprovals (settlementData : SettlementData) : Z :=
  Qceiling (Double.mul (ofNat (List.length (approvers settlementData)))
                       (Double.round (67 # 100))).

Definition hasQuorum (settlementData : SettlementData) : bool :=
  Z.leb (requiredApprovals settlementData)
        (Z.of_nat (List.length (approvals settlementData))).

Definition approveSettlement (env : Env) (settlementData : SettlementData)
    : M State Response :=
  let txId := ("TX_APP_" ++ string_of_Z (txStamp env) ++ "_" ++ txSuffix env)%string in
  block <- gets (fun s => currentBlock (snd s)) ;;
  let transaction :=
    {| txId := txId; contractType := SETTLEMENT_APPROVAL;
       parties := approvers settlementData;
       data := ApprovalData (sd_batchId settlementData) (sd_totalAmount settlementData)
                 (sd_netPositions settlementData) (approvals settlementData);
       hash := sha256 env; timestamp := txTime env;
       blockNumber := S block; status := TxStatus.PENDING |} in
  let consensus := simulateConsensus env transaction && hasQuorum settlementData in
  let transaction :=
    setTxStatus (if consensus then TxStatus.CONFIRMED else TxStatus.FAILED) transaction in
  (if consensus then
     commit transaction ;;;
     onDb (settlementBatch_updateMany (sd_batchId settlementData)
             (fun r => setBatchStatus SettlementStatus.APPROVED (Some txId)
                         (SettlementBatch.executedAt r) r))
   else ret tt) ;;;
  ret {| success := consensus; transaction := transaction;
         message := if consensus then "Settlement approved on blockchain"
                    else "Insufficient approvals or consensus failed" |}.

(** The payment record of the [i]-th leg. *)
Definition paymentOf (env : Env) (executionData : ExecutionRequest) (i : nat)
    (leg : Leg) : Payment.t :=
  {| Payment.paymentId :=
       ("PAY_SETT_" ++ string_of_Z (payStamp env i) ++ "_" ++ paySuffix env i)%string;
     Payment.payerId := payerId leg;
     Payment.payeeId := payeeId leg;
     Payment.amount := amount leg;
     Payment.currency := currency leg;
     Payment.valueDate := payDate env i;
     Payment.bankReference := bankReference leg;
     Payment.status := PaymentStatus.COMPLETED;
     Payment.settlementBatchId := batchIdId executionData |}.

Fixpoint createPayments (env : Env) (executionData : ExecutionRequest) (i : nat)
    (legs : list Leg) : M State unit :=
  match legs with
  | [] => ret tt
  | leg :: legs' =>
      onDb (payment_create (paymentOf env executionData i leg)) ;;;
      createPayments env executionData (S i) legs'
  end.

Definition executeSettlement (env : Env) (executionData : ExecutionRequest)
    : M State Response :=
  let txId := ("TX_EXEC_" ++ string_of_Z (txStamp env) ++ "_" ++ txSuffix env)%string in
  block <- gets (fun s => currentBlock (snd s)) ;;
  let transaction :=
    {| txId := txId; contractType := SETTLEMENT_EXECUTION;
       parties := ex_parties executionData;
       data := ExecutionData (ex_batchId executionData) (settlementLegs executionData)
                 (ex_totalAmount executionData) (bankReferences executionData)
                 (executionTime executionData);
       hash := sha256 env; timestamp := txTime env;
       blockNumber := S block; status := TxStatus.PENDING |} in
  let consensus := simulateConsensus env transaction in
  let transaction :=
    setTxStatus (if consensus then TxStatus.CONFIRMED else TxStatus.FAILED) transaction in
  (if consensus then
     commit transaction ;;;
     onDb (settlementBatch_updateMany (ex_batchId executionData)
             (fun r => setBatchStatus SettlementStatus.EXECUTED
                         (SettlementBatch.smartContractTxId r)
                         (Some (executedTime env)) r)) ;;;
     createPayments env executionData 0 (settlementLegs executionData)
   else ret tt) ;;;
  ret {| success := consensus; transaction := transaction;
         message := if consensus then "Settlement executed on blockchain"
                    else "Consensus failed" |}.

Local Open Scope string_scope.

(** Sample data: one batch for January 2025 whose single leg is A pays C
    60, and an environment in which consensus succeeds. *)
Definition sampleBatch (s : SettlementStatus.t) : SettlementBatch.t :=
  {| SettlementBatch.batchId := "SB-202501-1";
     SettlementBatch.period := "2025-01";
     SettlementBatch.fxRate := 1;
     SettlementBatch.totalNetAmount := 60;
     SettlementBatch.status := s;
     SettlementBatch.smartContractTxId := None;
     SettlementBatch.executedAt := None |}.

Definition sampleDb (s : SettlementStatus.t) : Db :=
  {| invoice := []; dispute := []; settlementBatch := [sampleBatch s];
     payment := []; auditLog := [];
     user := [ {| User.id := "u-moe"; User.role := "MINISTER" |};
               {| User.id := "u-mof"; User.role := "MINISTER" |};
               {| User.id := "u-cagd"; User.role := "TREASURY" |} ] |}.

Definition genesis : BlockchainState := {| transactions := []; currentBlock := 0 |}.

Definition sampleEnv : Env :=
  {| txStamp := 1700000000000; txSuffix := "k3j9x2m1p";
     sha256 := "9f2c41d0"; txTime := 1700000000000;
     consensusDraw := 1 # 2; executedTime := 1700000000250;
     payStamp := fun i => (1700000000300 + Z.of_nat i)%Z;
     paySuffix := fun _ => "a1b2c3";
     payDate := fun i => (1700000000300 + Z.of_nat i)%Z |}.

(** Two listed approvers, and two approvals that are both from MoE. *)
Definition repeatedApproval : SettlementData :=
  {| sd_batchId := "SB-202501-1"; sd_totalAmount := 60;
     sd_netPositions := [("A", -60); ("C", 60)];
     approvers := ["MoE"; "MoF"]; approvals := ["MoE"; "MoE"] |}.

Definition sampleExecution : ExecutionRequest :=
  {| ex_batchId := "SB-202501-1"; batchIdId := None;
     ex_parties := ["A"; "C"];
     settlementLegs := [ {| payerId := "A"; payeeId := "C"; amount := 60;
                            currency := "GHS"; bankReference := None |} ];
     ex_totalAmount := 60; bankReferences := []; executionTime := None |}.

Definition sampleRegistration : InvoiceData :=
  {| in_invoiceId := "INV-1"; in_contractId := "CTR-1";
     in_issuerId := "VRA"; in_counterpartyId := "ECG";
     in_amount := 5000; in_period := "2025-01"; in_hash := "5d41402a" |}.

Definition batchStatuses (db : Db) : list SettlementStatus.t :=
  map SettlementBatch.status (settlementBatch db).

(** The payment records [createPayments] appends, from leg index [i]. *)
Fixpoint paymentsFrom (env : Env) (executionData : ExecutionRequest) (i : nat)
    (legs : list Leg) : list Payment.t :=
  match legs with
  | [] => []
  | leg :: legs' =>
      paymentOf env executionData i leg :: paymentsFrom env executionData (S i) legs'
  end.

End Blockchain.

(** ** Treasury route (src/app/api/treasury/route.ts) *)

Module Treasury.

Import Ledger.

Record Approval := {
  userId : string;
  userName : string;
  role : string;
  signature : string
}.

Record NetPosition := {
  partyId : string;
  partyName : string;
  netPosition : Q;
  type : string
}.

Record Leg := {
  payerId : string;
  payeeId : string;
  amount : Q
}.

Record ReserveRequest := {
  rq_amount : Q;
  rq_currency : string;
  reference : string;
  reservePeriod : Z
}.

Record ApproveRequest := {
  ap_batchId : string;
  ap_userId : string;
  ap_userName : string;
  ap_role : string;
  ap_signature : string
}.

(** The helper functions the handlers call.  The route defines them at its
    end as placeholders; the handlers are written against their
    signatures, so the model takes them as a record, and [stubs] below gives
    the bodies the file has. *)
Record Helpers := {
  checkExistingApproval : string -> string -> Db -> bool;
  recordApproval : string -> string -> string -> string -> string -> Db -> Db;
  getApprovals : string -> Db -> list Approval;
  triggerBlockchainApproval : string -> list Approval -> Db -> Db;
  calculateNetPositions : string -> list NetPosition;
  generateSettlementLegs : list NetPosition -> list Leg;
  reserveFunds : ReserveRequest -> Db -> bool * Db;
  executeSettlementLeg : Leg -> string -> Db -> bool * Db;
  triggerBlockchainExecution : string -> list Leg -> list bool -> Db -> Db;
  releaseFunds : string -> Q -> Db -> Db;
  rollbackSettlement : list bool -> Db -> Db
}.

Definition stubs : Helpers :=
  {| checkExistingApproval := fun _ _ _ => false;
     recordApproval := fun _ _ _ _ _ d => d;
     getApprovals := fun _ _ => [];
     triggerBlockchainApproval := fun _ _ d => d;
     calculateNetPositions := fun _ =>
       [ {| partyId := "1"; partyName := "ECG";
            netPosition := -2345678900; type := "PAYABLE" |};
         {| partyId := "2"; partyName := "VRA";
            netPosition := 1234567890; type := "RECEIVABLE" |};
         {| partyId := "3"; partyName := "IPP Alpha";
            netPosition := 567890123; type := "RECEIVABLE" |} ];
     generateSettlementLegs := fun _ => [];
     reserveFunds := fun _ d => (true, d);
     executeSettlementLeg := fun _ _ d => (true, d);
     triggerBlockchainExecution := fun _ _ _ d => d;
     releaseFunds := fun _ _ d => d;
     rollbackSettlement := fun _ d => d |}.

Inductive Response :=
| Error (error : string) (httpStatus : Z)
| Approved (quorumReached : bool) (approvalsCount : nat) (requiredApprovals : nat)
| Executed (success : bool) (batchId : string) (executionResults : list bool)
    (totalAmount : Q) (legsExecuted : nat) (totalLegs : nat).

Definition hasAuthority (u : option User.t) : bool :=
  match u with
  | Some user => String.eqb (User.role user) "TREASURY"
                 || String.eqb (User.role user) "MINISTER"
  | None => false
  end.

Definition totalRequiredApprovers : nat := 3.

Definition approveSettlement (h : Helpers) (data : ApproveRequest) : M Db Response :=
  user <- gets (user_findUnique (ap_userId data)) ;;
  if negb (hasAuthority user) then ret (Error "Insufficient authority" 403)
  else
    existingApproval <- gets (checkExistingApproval h (ap_batchId data) (ap_userId data)) ;;
    if (existingApproval : bool) then ret (Error "Already approved" 400)
    else
      modify (recordApproval h (ap_batchId data) (ap_userId data) (ap_userName data)
                (ap_role data) (ap_signature data)) ;;;
      approvals <- gets (getApprovals h (ap_batchId data)) ;;
      let quorumReached := Nat.leb totalRequiredApprovers (List.length approvals) in
      (if quorumReached then
         modify (settlementBatch_updateMany (ap_batchId data)
                   (fun r => setBatchStatus SettlementStatus.APPROVED
                               (SettlementBatch.smartContractTxId r)
                               (SettlementBatch.executedAt r) r)) ;;;
         modify (triggerBlockchainApproval h (ap_batchId data) approvals)
       else ret tt) ;;;
      ret (Approved quorumReached (List.length approvals) totalRequiredApprovers).

Definition isApproved (b : option SettlementBatch.t) : bool :=
  match b with
  | Some batch =>
      match SettlementBatch.status batch with
      | SettlementStatus.APPROVED => true
      | _ => false
      end
  | None => false
  end.

Definition periodOf (b : option SettlementBatch.t) : string :=
  match b with Some batch => SettlementBatch.period batch | None => "" end.

(** [for (const leg of settlementLegs) executionResults.push(await executeSettlementLeg(leg, batchId))] *)
Fixpoint executeLegs (h : Helpers) (batchId : string) (legs : list Leg)
    : M Db (list bool) :=
  match legs with
  | [] => ret []
  | leg :: legs' =>
      r <- executeSettlementLeg h leg batchId ;;
      rs <- executeLegs h batchId legs' ;;
      ret (r :: rs)
  end.

Definition executeSettlement (h : Helpers) (now : Z) (batchId : string)
    : M Db Response :=
  batch <- gets (settlementBatch_findUnique batchId) ;;
  if negb (isApproved batch) then ret (Error "Settlement not approved" 400)
  else
    let netPositions := calculateNetPositions h (periodOf batch) in
    let settlementLegs := generateSettlementLegs h netPositions in
    let totalAmount := reduce_sum amount settlementLegs in
    reserved <- reserveFunds h
      {| rq_amount := totalAmount; rq_currency := "GHS";
         reference := ("SETTLEMENT-" ++ batchId)%string;
         reservePeriod := 24 * 60 * 60 * 1000 |} ;;
    if negb reserved then ret (Error "Insufficient escrow funds" 400)
    else
      executionResults <- executeLegs h batchId settlementLegs ;;
      let allSuccessful := forallb (fun r => r) executionResults in
      (if allSuccessful then
         modify (settlementBatch_updateMany batchId
                   (fun r => setBatchStatus SettlementStatus.EXECUTED
                               (SettlementBatch.smartContractTxId r) (Some now) r)) ;;;
         modify (triggerBlockchainExecution h batchId settlementLegs executionResults) ;;;
         modify (releaseFunds h ("SETTLEMENT-" ++ batchId)%string totalAmount)
       else modify (rollbackSettlement h executionResults)) ;;;
      ret (Executed allSuccessful batchId executionResults totalAmount
             (List.length (filter (fun r => r) executionResults))
             (List.length settlementLegs)).

Local Open Scope string_scope.

(** An escrow collaborator that refuses every reservation, the other
    helpers as in the file. *)
Definition refusingEscrow : Helpers :=
  {| checkExistingApproval := checkExistingApproval stubs;
     recordApproval := recordApproval stubs;
     getApprovals := getApprovals stubs;
     triggerBlockchainApproval := triggerBlockchainApproval stubs;
     calculateNetPositions := calculateNetPositions stubs;
     generateSettlementLegs := generateSettlementLegs stubs;
     reserveFunds := fun _ d => (false, d);
     executeSettlementLeg := executeSettlementLeg stubs;
     triggerBlockchainExecution := triggerBlockchainExecution stubs;
     releaseFunds := releaseFunds stubs;
     rollbackSettlement := rollbackSettlement stubs |}.

Definition approvalBy (userId userName role : string) : ApproveRequest :=
  {| ap_batchId := "SB-202501-1"; ap_userId := userId; ap_userName := userName;
     ap_role := role; ap_signature := "sig" |}.

(** Approvals by three distinct authorised users, then the first one again. *)
Definition fourApprovals : M Db (list Response) :=
  r1 <- approveSettlement stubs (approvalBy "u-moe" "MoE" "MINISTER") ;;
  r2 <- approveSettlement stubs (approvalBy "u-mof" "MoF" "MINISTER") ;;
  r3 <- approveSettlement stubs (approvalBy "u-cagd" "CAGD" "TREASURY") ;;
  r4 <- approveSettlement stubs (approvalBy "u-moe" "MoE" "MINISTER") ;;
  ret [r1; r2; r3; r4].

End Treasury.

(** ** Netting summary (src/app/api/netting/route.ts, calculateSummary)

    [calculateSummary] reads [totalReceivable] and [totalPayable] of the
    positions, which the leg loop does not write, and the legs. *)

Module NettingSummary.

Import Netting.

Record LegCounts := { gross : Z; net : Z; reduction : Z }.

Record Summary := {
  totalGrossAmount : Q;
  totalNetAmount : Q;
  cashLegsReduction : Q;
  efficiencyGain : Q;
  numberOfLegs : LegCounts
}.

Definition lengthZ {A : Type} (l : list A) : Z := Z.of_nat (List.length l).

Definition calculateSummary (positions : list NettingPosition)
    (legs : list SettlementLeg) : Summary :=
  let totalReceivable := reduce_sum totalReceivable positions in
  let totalPayable := reduce_sum totalPayable positions in
  let totalGrossAmount := Qmax totalReceivable totalPayable in
  let totalNetAmount := reduce_sum amount legs in
  let grossLegs :=
    (lengthZ (filter (fun p => Qltb 0 (Netting.totalPayable p)) positions) +
     lengthZ (filter (fun p => Qltb 0 (Netting.totalReceivable p)) positions))%Z in
  {| totalGrossAmount := totalGrossAmount;
     totalNetAmount := totalNetAmount;
     cashLegsReduction := totalGrossAmount - totalNetAmount;
     efficiencyGain :=
       if Qltb 0 totalGrossAmount
       then (totalGrossAmount - totalNetAmount) / totalGrossAmount * 100
       else 0;
     numberOfLegs :=
       {| gross := grossLegs; net := lengthZ legs;
          reduction := (grossLegs - lengthZ legs)%Z |} |}.

(** The amount of an invoice still to be paid, and whether the loop of
    [calculateNettingPositions] takes the invoice up. *)
Definition outstanding (invoice : Invoice) : Q :=
  totalAmount invoice - reduce_sum Payment.amount (payments invoice).

Definition isOpen (invoice : Invoice) : bool := negb (Qle_bool (outstanding invoice) 0).

(** A position as [calculateNettingPositions] leaves it: the net is
    receivable minus payable, neither side is negative, and one is positive. *)
Definition balanced (p : NettingPosition) : Prop :=
  netPosition p == totalReceivable p - totalPayable p /\
  0 <= totalReceivable p /\ 0 <= totalPayable p.

Definition touched (p : NettingPosition) : Prop :=
  0 < totalReceivable p \/ 0 < totalPayable p.

(** A leg goes from a party that owes to a party that is owed. *)
Definition debtorToCreditor (positions : list NettingPosition)
    (leg : SettlementLeg) : Prop :=
  0 < amount leg /\ currency leg = "GHS"%string /\
  (exists d, In d positions /\ netPosition d < 0 /\
             payerId leg = partyId d /\ payerName leg = partyName d) /\
  (exists c, In c positions /\ 0 < netPosition c /\
             payeeId leg = partyId c /\ payeeName leg = partyName c).

(** The map is keyed by party: each entry sits under the id of its party,
    and no key occurs twice. *)
Definition keyed (m : PositionMap) : Prop :=
  Forall (fun kv => partyId (snd kv) = fst kv) m /\ NoDup (map fst m).

Definition sound (p : NettingPosition) : Prop := balanced p /\ touched p.

(** What an invoice adds to its issuer's receivable and its counterparty's
    payable. *)
Definition share (invoice : Invoice) : Q :=
  if isOpen invoice then outstanding invoice else 0.

(** A leg between a debtor and a creditor of the two lists, parties being
    told by id and name (the loop changes only their net position). *)
Definition ident (p : NettingPosition) : string * string := (partyId p, partyName p).

Definition legBetween (ds cs : list NettingPosition) (leg : SettlementLeg) : Prop :=
  0 < amount leg /\ currency leg = "GHS"%string /\
  In (payerId leg, payerName leg) (map ident ds) /\
  In (payeeId leg, payeeName leg) (map ident cs).

(** Sample invoices: A owes B 100, B owes C 100, C owes A 40, and an
    invoice of B on A that is paid in full. *)
Definition party (i : string) : Party := {| id := i; name := i |}.

Definition invoiceOf (issuer counterparty : string) (total : Q) (paid : list Q)
    : Invoice :=
  {| totalAmount := total; issuer := party issuer;
     counterparty := party counterparty;
     payments := map (fun a => {| Payment.amount := a |}) paid |}.

Definition sampleInvoices : list Invoice :=
  [ invoiceOf "B" "A" 100 []; invoiceOf "C" "B" 100 [];
    invoiceOf "A" "C" 40 []; invoiceOf "B" "A" 70 [30; 40] ].

End NettingSummary.

(** ** Reconciliation route: the POST handler and what the loops leave
    (src/app/api/reconciliation/route.ts) *)

Module ReconciliationRoute.

Import Ledger Reconciliation.

(** The body of a request; [rules] is [None] when the property is absent or
    [null]. *)
Record Request := {
  periodStart : Z;
  periodEnd : Z;
  rules : option (list ReconciliationRule)
}.

Definition reconcilable (s : InvoiceStatus.t) : bool :=
  match s with
  | InvoiceStatus.PENDING | InvoiceStatus.PARTIALLY_MATCHED => true
  | _ => false
  end.

(** [where] of [db.invoice.findMany] *)
Definition invoiceInScope (request : Request) (r : Invoice.t) : bool :=
  Z.leb (periodStart request) (Invoice.periodStart r) &&
  Z.leb (Invoice.periodEnd r) (periodEnd request) &&
  reconcilable (Invoice.status r).

(** [where] of [db.delivery.findMany] *)
Definition deliveryInScope (request : Request) (d : Delivery.t) : bool :=
  Z.leb (periodStart request) (Delivery.timestamp d) &&
  Z.leb (Delivery.timestamp d) (periodEnd request).

(** [rules || getDefaultRules()] *)
Definition rulesOf (request : Request) : list ReconciliationRule :=
  match rules request with
  | Some rules => rules
  | None => getDefaultRules
  end.

(** The handler, for a request whose database calls succeed (the [catch]
    branch answers 500).  [deliveryTable] is [db.delivery], which the route
    only reads. *)
Definition POST (clock : nat -> Z) (deliveryTable : list Delivery.t)
    (request : Request) : M State ReconciliationResult :=
  invoices <- gets (fun s => filter (invoiceInScope request) (invoice (fst s))) ;;
  let deliveries := filter (deliveryInScope request) deliveryTable in
  let result := performReconciliation invoices deliveries (rulesOf request) in
  updateInvoiceStatuses clock (matched result) (exceptions result) ;;;
  ret result.

(** What the matched loop does to an invoice row. *)
Definition markMatched (m : Matched.t) (r : Invoice.t) : Invoice.t :=
  if String.eqb (Invoice.invoiceId r) (Matched.invoiceId m)
  then setInvoiceMatched (Matched.confidenceScore m) (Matched.deliveryIds m) r
  else r.

Definition applyMatches (ms : list Matched.t) (r : Invoice.t) : Invoice.t :=
  fold_left (fun r m => markMatched m r) ms r.

Definition isMatch (ms : list Matched.t) (r : Invoice.t) : bool :=
  existsb (fun m => String.eqb (Invoice.invoiceId r) (Matched.invoiceId m)) ms.

(** How [updateInvoiceStatuses] leaves row [r'] of the invoice table, [r]
    being the row before: an exception's invoice is PARTIALLY_MATCHED; a
    match's invoice that no exception names is MATCHED with the score and
    deliveries of a match; any other row is as it was. *)
Definition rowAfter (ms : list Matched.t) (excs : list Exception.t)
    (r r' : Invoice.t) : Prop :=
  sameInvoice r r' /\
  (isException excs r = true ->
   Invoice.status r' = InvoiceStatus.PARTIALLY_MATCHED) /\
  (isException excs r = false -> isMatch ms r = true ->
   Invoice.status r' = InvoiceStatus.MATCHED /\
   exists m, In m ms /\ Matched.invoiceId m = Invoice.invoiceId r /\
             Invoice.confidenceScore r' = Some (Matched.confidenceScore m) /\
             Invoice.matchedDeliveries r' = Some (Matched.deliveryIds m)) /\
  (isException excs r = false -> isMatch ms r = false -> r' = r).

(** Rules with the CONTRACT_TERMS entries left out, and rules with every
    unit replaced. *)
Definition isContractTerms (r : ReconciliationRule) : bool :=
  match type r with CONTRACT_TERMS => true | _ => false end.

Definition withoutContractTerms (rules : list ReconciliationRule)
    : list ReconciliationRule :=
  filter (fun r => negb (isContractTerms r)) rules.

Definition withUnit (u : RuleUnit) (r : ReconciliationRule) : ReconciliationRule :=
  {| type := type r; value := value r; unit_ := u |}.

(** Sample requests and rows. *)
Definition dayRequest : Request :=
  {| periodStart := 0; periodEnd := 86400000; rules := None |}.

Definition paidInvoice : Invoice.t :=
  setInvoiceStatus InvoiceStatus.PAID (sampleInvoice "INV-3" 1000).

Definition unparsedInvoice : Invoice.t :=
  {| Invoice.id := "id-INV-4"; Invoice.invoiceId := "INV-4";
     Invoice.contractId := "CTR-1";
     Invoice.issuerId := "VRA"; Invoice.counterpartyId := "ECG";
     Invoice.periodStart := 0; Invoice.periodEnd := 86400000;
     Invoice.lineItems := None;
     Invoice.totalAmount := 5000;
     Invoice.status := InvoiceStatus.PENDING;
     Invoice.confidenceScore := None;
     Invoice.matchedDeliveries := None |}.

(** A delivery a day after the requested period, within the seven-day
    window of the sample invoices. *)
Definition lateDelivery : Delivery.t :=
  {| Delivery.deliveryId := "DEL-7"; Delivery.contractId := "CTR-1";
     Delivery.timestamp := 172800000; Delivery.quantity := 1000 |}.

End ReconciliationRoute.

(** ** Smart-contract route: the queries and the life of the ledger log *)

Module Chain.

Import Ledger Blockchain.

Definition findTransaction (id : string) (chain : BlockchainState)
    : option SmartContractTransaction :=
  find (fun tx => String.eqb (txId tx) id) (transactions chain).

Inductive TransactionResponse :=
| TransactionFound (transaction : SmartContractTransaction)
| TransactionMissing (error : string) (httpStatus : Z).

Definition getTransaction (id : string) (chain : BlockchainState)
    : TransactionResponse :=
  match findTransaction id chain with
  | Some transaction => TransactionFound transaction
  | None => TransactionMissing "Transaction not found" 404
  end.

Record ProofData := {
  pd_txId : string;
  merkleProof : string;
  expectedHash : string
}.

Inductive ProofResponse :=
| ProofUnknown (error : string)
| ProofChecked (valid : bool) (transaction : option SmartContractTransaction)
    (merkleRoot : string) (verifiedAt : Z).

(** [ledgerDigest] is the SHA-256 digest of the serialised transaction
    list, [now] the date of the check. *)
Definition verifyProof (ledgerDigest : string) (now : Z) (proofData : ProofData)
    (chain : BlockchainState) : ProofResponse :=
  match findTransaction (pd_txId proofData) chain with
  | None => ProofUnknown "Transaction not found"
  | Some transaction =>
      let isValid := String.eqb (hash transaction) (expectedHash proofData) in
      ProofChecked isValid (if isValid then Some transaction else None)
        ("0x" ++ ledgerDigest)%string now
  end.

Definition isPending (tx : SmartContractTransaction) : bool :=
  match status tx with TxStatus.PENDING => true | _ => false end.

Definition isConfirmed (tx : SmartContractTransaction) : bool :=
  match status tx with TxStatus.CONFIRMED => true | _ => false end.

Record ConsensusStatus := {
  pendingCount : nat;
  confirmedCount : nat;
  consensusRate : Q;
  lastConsensus : option Z
}.

Definition getConsensusStatus (chain : BlockchainState) : ConsensusStatus :=
  let pendingTransactions := filter isPending (transactions chain) in
  let confirmedTransactions := filter isConfirmed (transactions chain) in
  {| pendingCount := List.length pendingTransactions;
     confirmedCount := List.length confirmedTransactions;
     consensusRate :=
       if Nat.ltb 0 (List.length (transactions chain))
       then ofNat (List.length confirmedTransactions)
            / ofNat (List.length (transactions chain)) * 100
       else 0;
     lastConsensus := option_map timestamp (last (map Some (transactions chain)) None) |}.

Record BlockHeight := { bh_blockHeight : nat; bh_timestamp : Z }.

Definition getBlockHeight (now : Z) (chain : BlockchainState) : BlockHeight :=
  {| bh_blockHeight := currentBlock chain; bh_timestamp := now |}.

Record LedgerSnapshot := {
  blockHeight : nat;
  totalTransactions : nat;
  ledgerHash : string;
  snapshotTime : Z
}.

Definition getLedgerSnapshot (ledgerDigest : string) (now : Z)
    (chain : BlockchainState) : LedgerSnapshot :=
  {| blockHeight := currentBlock chain;
     totalTransactions := List.length (transactions chain);
     ledgerHash := ledgerDigest;
     snapshotTime := now |}.

(** The ledger logs that calls of the two settlement handlers produce from the
    initial one when no two calls overlap, whatever the tables hold at each
    call.  [Overlap] has the calls that overlap. *)
Inductive reachable : BlockchainState -> Prop :=
| reach_genesis : reachable genesis
| reach_approve chain db env settlementData :
    reachable chain ->
    reachable (snd (snd (approveSettlement env settlementData (db, chain))))
| reach_execute chain db env executionData :
    reachable chain ->
    reachable (snd (snd (executeSettlement env executionData (db, chain)))).

(** The payment of a leg: the leg's parties, amount, currency and bank
    reference, COMPLETED, tagged with the request's [batchIdId]. *)
Definition paysLeg (executionData : ExecutionRequest) (leg : Leg)
    (pay : Payment.t) : Prop :=
  Payment.payerId pay = payerId leg /\ Payment.payeeId pay = payeeId leg /\
  Payment.amount pay = amount leg /\ Payment.currency pay = currency leg /\
  Payment.bankReference pay = bankReference leg /\
  Payment.status pay = PaymentStatus.COMPLETED /\
  Payment.settlementBatchId pay = batchIdId executionData.

(** A batch row after an execution that reached consensus. *)
Definition executedRow (env : Env) (executionData : ExecutionRequest)
    (b b' : SettlementBatch.t) : Prop :=
  if String.eqb (SettlementBatch.batchId b) (ex_batchId executionData)
  then SettlementBatch.batchId b' = SettlementBatch.batchId b /\
       SettlementBatch.status b' = SettlementStatus.EXECUTED /\
       SettlementBatch.executedAt b' = Some (executedTime env) /\
       SettlementBatch.totalNetAmount b' = SettlementBatch.totalNetAmount b
  else b' = b.

(** A ledger log in order: the block height is the number of transactions,
    blocks are numbered from 1 without gaps, and every transaction kept is
    CONFIRMED. *)
Definition wellFormed (chain : BlockchainState) : Prop :=
  currentBlock chain = List.length (transactions chain) /\
  map blockNumber (transactions chain) = seq 1 (List.length (transactions chain)) /\
  Forall (fun tx => status tx = TxStatus.CONFIRMED) (transactions chain).

Local Open Scope string_scope.

(** A request that lists no approver and carries no approval. *)
Definition noApprovers : SettlementData :=
  {| sd_batchId := "SB-202501-1"; sd_totalAmount := 60;
     sd_netPositions := []; approvers := []; approvals := [] |}.

(** The log after an approval and an execution from the initial one. *)
Definition twoCalls : BlockchainState :=
  snd (snd (executeSettlement sampleEnv sampleExecution
    (sampleDb SettlementStatus.APPROVED,
     snd (snd (approveSettlement sampleEnv repeatedApproval
                 (sampleDb SettlementStatus.COMPUTED, genesis)))))).

End Chain.

(** ** Treasury route: queue priority, risk assessment, helper contracts
    (src/app/api/treasury/route.ts) *)

Module TreasuryDesk.

Import Ledger Treasury.

Inductive Priority := CRITICAL | HIGH | MEDIUM | LOW.

Definition calculatePriority (amount ageInHours : Q) : Priority :=
  if Qltb 1000000000 amount && Qltb 24 ageInHours then CRITICAL
  else if Qltb 500000000 amount && Qltb 12 ageInHours then HIGH
  else if Qltb 100000000 amount || Qltb 6 ageInHours then MEDIUM
  else LOW.

(** The order of the priorities, LOW lowest. *)
Definition urgency (p : Priority) : nat :=
  match p with CRITICAL => 3 | HIGH => 2 | MEDIUM => 1 | LOW => 0 end.

(** [String.prototype.includes] *)
Fixpoint includes (sub s : string) : bool :=
  String.prefix sub s ||
  match s with
  | EmptyString => false
  | String _ s' => includes sub s'
  end.

(** [Math.max(...xs)]; [None] is the [-Infinity] of the empty list. *)
Fixpoint Math_max (xs : list Q) : option Q :=
  match xs with
  | [] => None
  | x :: xs' =>
      match Math_max xs' with
      | None => Some x
      | Some y => Some (Qmax x y)
      end
  end.

Record RiskAssessment := {
  score : Q;
  factors : list string;
  recommendation : string
}.

(** One [if (...) { riskFactors.push(name); riskScore += weight }]. *)
Definition addFactor (test : bool) (name : string) (weight : Q)
    (acc : list string * Q) : list string * Q :=
  if test then (fst acc ++ [name], snd acc + weight) else acc.

(** [assessSettlementRisk(batch, netPositions)]: [totalNetAmount] and
    [createdAt] are the two columns of the batch it reads, [now] is
    [Date.now()] and [disputeRate] what [getDisputeRate] resolves to.  The
    concentration ratio of an empty list is [-Infinity / 0] and that of
    all-zero positions [0 / 0]; neither exceeds 0.5, as here. *)
Definition assessSettlementRisk (now : Z) (disputeRate : Q) (totalNetAmount : Q)
    (createdAt : Z) (netPositions : list NetPosition) : RiskAssessment :=
  let acc0 : list string * Q := ([], 0) in
  let acc1 := addFactor (Qltb 1000000000 totalNetAmount)
                "HIGH_VALUE_SETTLEMENT" 25 acc0 in
  let largestPosition :=
    Math_max (map (fun p => Qabs (netPosition p)) netPositions) in
  let totalExposure := reduce_sum (fun p => Qabs (netPosition p)) netPositions in
  let concentrated :=
    match largestPosition with
    | Some largest => Qltb (5 # 10) (largest / totalExposure)
    | None => false
    end in
  let acc2 := addFactor concentrated "CONCENTRATION_RISK" 20 acc1 in
  let highRiskParties :=
    filter (fun p => includes "IPP" (partyName p) || includes "BOST" (partyName p))
           netPositions in
  let acc3 := addFactor (Nat.ltb 0 (List.length highRiskParties))
                "COUNTERPARTY_RISK" 15 acc2 in
  let ageInHours := inject_Z (now - createdAt) / (1000 * 60 * 60) in
  let acc4 := addFactor (Qltb 24 ageInHours) "SETTLEMENT_DELAY" 10 acc3 in
  let acc5 := addFactor (Qltb (1 # 10) disputeRate) "HIGH_DISPUTE_RATE" 20 acc4 in
  let riskScore := snd acc5 in
  let recommendation :=
    if Qltb 80 riskScore then "REJECT_OR_REQUIRE_ADDITIONAL_COLLATERAL"%string
    else if Qltb 60 riskScore then "REVIEW_MANUALLY"%string
    else "APPROVE"%string in
  {| score := Qmin riskScore 100; factors := fst acc5;
     recommendation := recommendation |}.

(** What [getDisputeRate] resolves to in the file. *)
Definition fileDisputeRate : Q := 5 # 100.

(** The points a listed factor stands for. *)
Definition weight (factor : string) : Q :=
  if String.eqb factor "HIGH_VALUE_SETTLEMENT" then 25
  else if String.eqb factor "CONCENTRATION_RISK" then 20
  else if String.eqb factor "COUNTERPARTY_RISK" then 15
  else if String.eqb factor "SETTLEMENT_DELAY" then 10
  else if String.eqb factor "HIGH_DISPUTE_RATE" then 20
  else 0.

(** Helpers that leave the settlement batches to the handler. *)
Definition keepsBatches (h : Helpers) : Prop :=
  (forall batchId userId userName role signature d,
     settlementBatch (recordApproval h batchId userId userName role signature d)
     = settlementBatch d) /\
  (forall batchId approvals d,
     settlementBatch (triggerBlockchainApproval h batchId approvals d)
     = settlementBatch d) /\
  (forall request d,
     settlementBatch (snd (reserveFunds h request d)) = settlementBatch d) /\
  (forall leg batchId d,
     settlementBatch (snd (executeSettlementLeg h leg batchId d)) = settlementBatch d) /\
  (forall batchId legs results d,
     settlementBatch (triggerBlockchainExecution h batchId legs results d)
     = settlementBatch d) /\
  (forall reference amount d,
     settlementBatch (releaseFunds h reference amount d) = settlementBatch d) /\
  (forall results d,
     settlementBatch (rollbackSettlement h results d) = settlementBatch d).

(** A batch row after the treasury execution of [batchId] at [now]. *)
Definition treasuryExecutedRow (now : Z) (batchId : string)
    (b b' : SettlementBatch.t) : Prop :=
  if String.eqb (SettlementBatch.batchId b) batchId
  then SettlementBatch.status b' = SettlementStatus.EXECUTED /\
       SettlementBatch.executedAt b' = Some now /\
       SettlementBatch.batchId b' = SettlementBatch.batchId b /\
       SettlementBatch.totalNetAmount b' = SettlementBatch.totalNetAmount b
  else b' = b.

(** A batch row after an approval of [batchId] that reaches the quorum. *)
Definition treasuryApprovedRow (batchId : string)
    (b b' : SettlementBatch.t) : Prop :=
  if String.eqb (SettlementBatch.batchId b) batchId
  then SettlementBatch.status b' = SettlementStatus.APPROVED /\
       SettlementBatch.executedAt b' = SettlementBatch.executedAt b /\
       SettlementBatch.batchId b' = SettlementBatch.batchId b /\
       SettlementBatch.totalNetAmount b' = SettlementBatch.totalNetAmount b
  else b' = b.

(** The approvals [approveSettlement] counts: those listed for the batch
    once the new one is recorded. *)
Definition approvalsAfter (h : Helpers) (data : ApproveRequest) (d : Db)
    : list Approval :=
  getApprovals h (ap_batchId data)
    (recordApproval h (ap_batchId data) (ap_userId data) (ap_userName data)
       (ap_role data) (ap_signature data) d).

(** The reservation [executeSettlement] asks for. *)
Definition reservationFor (h : Helpers) (batchId period : string) : ReserveRequest :=
  {| rq_amount :=
       reduce_sum amount (generateSettlementLegs h (calculateNetPositions h period));
     rq_currency := "GHS";
     reference := ("SETTLEMENT-" ++ batchId)%string;
     reservePeriod := 86400000 |}.

Local Open Scope string_scope.

(** Helpers with one leg to execute, which fails. *)
Definition failingLeg : Helpers :=
  {| checkExistingApproval := checkExistingApproval stubs;
     recordApproval := recordApproval stubs;
     getApprovals := getApprovals stubs;
     triggerBlockchainApproval := triggerBlockchainApproval stubs;
     calculateNetPositions := calculateNetPositions stubs;
     generateSettlementLegs := fun _ =>
       [ {| payerId := "1"; payeeId := "2"; amount := 60 |} ];
     reserveFunds := reserveFunds stubs;
     executeSettlementLeg := fun _ _ d => (false, d);
     triggerBlockchainExecution := triggerBlockchainExecution stubs;
     releaseFunds := releaseFunds stubs;
     rollbackSettlement := rollbackSettlement stubs |}.

(** Helpers that report every approval as already given. *)
Definition alreadyApproved : Helpers :=
  {| checkExistingApproval := fun _ _ _ => true;
     recordApproval := recordApproval stubs;
     getApprovals := getApprovals stubs;
     triggerBlockchainApproval := triggerBlockchainApproval stubs;
     calculateNetPositions := calculateNetPositions stubs;
     generateSettlementLegs := generateSettlementLegs stubs;
     reserveFunds := reserveFunds stubs;
     executeSettlementLeg := executeSettlementLeg stubs;
     triggerBlockchainExecution := triggerBlockchainExecution stubs;
     releaseFunds := releaseFunds stubs;
     rollbackSettlement := rollbackSettlement stubs |}.

End TreasuryDesk.

(** ** Netting in double arithmetic

    [calculateNettingPositions] and [generateSettlementLegs] once more, with
    every addition and subtraction of the code rounded to a double.  The
    records and the map are those of [Netting]. *)

Module DoubleNetting.
Import Netting.

(** [invoice.payments.reduce((sum, payment) => sum + payment.amount, 0)] *)
Definition totalPaid (invoice : Invoice) : Q :=
  fold_left (fun sum payment => Double.add sum (Payment.amount payment))
            (payments invoice) 0.

Definition outstanding (invoice : Invoice) : Q :=
  Double.sub (totalAmount invoice) (totalPaid invoice).

Definition addReceivable (outstanding : Q) (p : NettingPosition) : NettingPosition :=
  {| partyId := partyId p; partyName := partyName p;
     totalReceivable := Double.add (totalReceivable p) outstanding;
     totalPayable := totalPayable p;
     netPosition := Double.add (netPosition p) outstanding |}.

Definition addPayable (outstanding : Q) (p : NettingPosition) : NettingPosition :=
  {| partyId := partyId p; partyName := partyName p;
     totalReceivable := totalReceivable p;
     totalPayable := Double.add (totalPayable p) outstanding;
     netPosition := Double.sub (netPosition p) outstanding |}.

Definition nettingStep (positionMap : PositionMap) (invoice : Invoice) : PositionMap :=
  let outstanding := outstanding invoice in
  if Qle_bool outstanding 0 then positionMap
  else
    let m1 := ensure (issuer invoice) positionMap in
    let m2 := Map_modify (id (issuer invoice)) (addReceivable outstanding) m1 in
    let m3 := ensure (counterparty invoice) m2 in
    Map_modify (id (counterparty invoice)) (addPayable outstanding) m3.

Definition calculateNettingPositions (invoices : list Invoice) : list NettingPosition :=
  Map_values (fold_left nettingStep invoices []).

Definition isOpen (invoice : Invoice) : bool := negb (Qle_bool (outstanding invoice) 0).

(** The invoices the loop takes up, and their outstanding total. *)
Definition openInvoices (invoices : list Invoice) : list Invoice := filter isOpen invoices.

Definition grossOutstanding (invoices : list Invoice) : Q :=
  Qsum (map outstanding (openInvoices invoices)).

(** Every net position of the map is a double of magnitude at most [bound]. *)
Definition netWithin (bound : Q) (m : PositionMap) : Prop :=
  Forall (fun kv => Double.representable (netPosition (snd kv)) /\
                    Qabs (netPosition (snd kv)) <= bound) m.

(** Half a unit in the last place of 1: [2^-53]. *)
Definition u53 : Q := 1 # 9007199254740992.

(** Amounts far from the overflow threshold of doubles: an invoice total
    and payments of magnitude up to [10^15], at most a million payments to
    an invoice.  No sum of the run then reaches [2^1024]. *)
Definition amountLimit : Q := 1000000000000000.

Definition inRange (invoice : Invoice) : Prop :=
  Qabs (totalAmount invoice) <= amountLimit /\
  Forall (fun payment => Qabs (Payment.amount payment) <= amountLimit)
         (payments invoice) /\
  (Z.of_nat (List.length (payments invoice)) <= 1000000)%Z.

(** The sum of the net positions as a caller computes it,
    [positions.reduce((sum, p) => sum + p.netPosition, 0)]. *)
Definition netSum (positions : list NettingPosition) : Q :=
  fold_left (fun sum p => Double.add sum (netPosition p)) positions 0.

Local Open Scope string_scope.

(** An invoice read from the database: its total is a double. *)
Definition invoiceOf (issuerId counterpartyId : string) (total : Q)
    (paid : list Q) : Invoice :=
  {| totalAmount := Double.round total;
     issuer := {| id := issuerId; name := issuerId |};
     counterparty := {| id := counterpartyId; name := counterpartyId |};
     payments := map (fun a => {| Payment.amount := Double.round a |}) paid |}.

(** A issues 10000000000.1 to B and 10000000000.3 to C. *)
Definition largeBook : list Invoice :=
  [ invoiceOf "A" "B" (100000000001 # 10) [];
    invoiceOf "A" "C" (100000000003 # 10) [] ].

(** A issues 100.10 to B, who has paid 0.10; B issues 40.30 to A;
    C's invoice of 25 has been paid in full. *)
Definition smallBook : list Invoice :=
  [ invoiceOf "A" "B" (1001 # 10) [1 # 10];
    invoiceOf "B" "A" (403 # 10) [];
    invoiceOf "C" "A" 25 [25] ].

(** An invoice of 1 paid in ten instalments of 0.1. *)
Definition instalments : Invoice :=
  invoiceOf "A" "B" 1 (repeat (1 # 10) 10).

Local Close Scope string_scope.


(** *** Settlement legs *)

(** The literal [0.01]: the double nearest to one hundredth. *)
Definition cent : Q := Double.round (1 # 100).

Fixpoint settle (fuel : nat) (debtors creditors : list NettingPosition)
    {struct fuel} : option (list SettlementLeg) :=
  match debtors, creditors with
  | debtor :: ds, creditor :: cs =>
      match fuel with
      | O => None
      | S fuel' =>
          let debtorOwes := Qabs (netPosition debtor) in
          let creditorIsOwed := netPosition creditor in
          let settlementAmount := Qmin debtorOwes creditorIsOwed in
          if Qltb 0 settlementAmount then
            let leg := {| payerId := partyId debtor; payerName := partyName debtor;
                          payeeId := partyId creditor; payeeName := partyName creditor;
                          amount := settlementAmount; currency := "GHS" |} in
            let debtor' :=
              setNet debtor (Double.add (netPosition debtor) settlementAmount) in
            let creditor' :=
              setNet creditor (Double.sub (netPosition creditor) settlementAmount) in
            let debtors' :=
              if Qltb (Qabs (netPosition debtor')) cent then ds else debtor' :: ds in
            let creditors' :=
              if Qltb (netPosition creditor') cent then cs else creditor' :: cs in
            option_map (cons leg) (settle fuel' debtors' creditors')
          else settle fuel' debtors creditors
      end
  | _, _ => Some []
  end.

Definition debtorsOf (positions : list NettingPosition) : list NettingPosition :=
  sort (fun a b => Qle_bool (Double.sub (netPosition a) (netPosition b)) 0)
       (filter (fun p => Qltb (netPosition p) 0) positions).

Definition creditorsOf (positions : list NettingPosition) : list NettingPosition :=
  sort (fun a b => Qle_bool (Double.sub (netPosition b) (netPosition a)) 0)
       (filter (fun p => Qltb 0 (netPosition p)) positions).

Definition generateSettlementLegs (fuel : nat) (positions : list NettingPosition)
    : option (list SettlementLeg) :=
  settle fuel (debtorsOf positions) (creditorsOf positions).


Local Open Scope string_scope.

Definition positionOf (party : string) (net : Q) : NettingPosition :=
  {| partyId := party; partyName := party;
     totalReceivable := Double.round (Qmax net 0);
     totalPayable := Double.round (Qmax (- net) 0);
     netPosition := Double.round net |}.


(** A owes 5.01, B is owed 5 and C is owed 0.01. *)
Definition centPositions : list NettingPosition :=
  [ positionOf "A" (-501 # 100); positionOf "B" 5; positionOf "C" (1 # 100) ].

Local Close Scope string_scope.


(** The totals of a position: doubles that are not negative, and a net
    position that is the receivable total when nothing is payable and minus
    the payable total when nothing is receivable. *)
Definition oneSided (p : NettingPosition) : Prop :=
  Double.representable (totalReceivable p) /\ Double.representable (totalPayable p) /\
  0 <= totalReceivable p /\ 0 <= totalPayable p /\
  (totalPayable p == 0 -> netPosition p == totalReceivable p) /\
  (totalReceivable p == 0 -> netPosition p == - totalPayable p).

Local Open Scope string_scope.
(** A issues 0.1 to B, B issues 0.3 to A, A issues 0.2 to B. *)
Definition crossBook : list Invoice :=
  [ invoiceOf "A" "B" (1 # 10) []; invoiceOf "B" "A" (3 # 10) [];
    invoiceOf "A" "B" (2 # 10) [] ].
Local Close Scope string_scope.

End DoubleNetting.

(** ** Doubles of the kernel

    The binary64 numbers of Rocq's kernel ([PrimFloat]) with their IEEE-754
    operations and comparisons, and the functions of JavaScript the
    reconciliation engine calls on them. *)

Module Binary64.

Import Floats.PrimFloat Floats.SpecFloat Floats.FloatOps.

(** The rational a finite double stands for; [None] for infinities and NaN. *)
Definition toQ (x : float) : option Q :=
  match Prim2SF x with
  | S754_zero _ => Some 0
  | S754_finite s m e =>
      Some (Qred ((if s then -1 else 1) * inject_Z (Zpos m) * Double.pow2 e))
  | _ => None
  end.

(** [Math.max(a, b)] *)
Definition Math_max (a b : float) : float :=
  if is_nan a || is_nan b then nan
  else if (a <? b)%float then b
  else if (b <? a)%float then a
  else if get_sign a then b else a.

(** [x.toFixed(1)] *)
Definition toFixed1 (x : float) : string :=
  match toQ x with
  | Some q => toFixed1 q
  | None => if is_nan x then "NaN"
            else if (x <? 0)%float then "-Infinity" else "Infinity"
  end.

End Binary64.

(** ** Reconciliation in double arithmetic

    The loop body of [performReconciliation] once more, on doubles:
    quantities, rule values and timestamps are binary64 numbers and every
    operation and comparison is that of IEEE-754, NaN included.  The
    exception record and the enumerations are those of [Reconciliation]. *)

Module FloatReconciliation.

Import Floats.PrimFloat Binary64.
Import Reconciliation.
Local Set Warnings "-inexact-float".

Record LineItems := { energy : option float; gas : option float; fuel : option float }.

Record Invoice := {
  invoiceId : string;
  contractId : string;
  periodStart : float;
  periodEnd : float;
  lineItems : option LineItems;
  totalAmount : float
}.

Record Delivery := {
  deliveryId : string;
  d_contractId : string;
  timestamp : float;
  quantity : float
}.

Record Rule := { type : RuleType; value : float; unit_ : RuleUnit }.

Record Matched := {
  m_invoiceId : string;
  deliveryIds : list string;
  confidenceScore : float;
  matchedAmount : float;
  variance : float
}.

Definition isTimeWindow (r : Rule) : bool :=
  match type r with TIME_WINDOW => true | _ => false end.

Definition isToleranceBand (r : Rule) : bool :=
  match type r with TOLERANCE_BAND => true | _ => false end.

Definition timeWindowMs (rules : list Rule) : float :=
  match find isTimeWindow rules with
  | Some timeWindowRule => (value timeWindowRule * 24 * 60 * 60 * 1000)%float
  | None => (7 * 24 * 60 * 60 * 1000)%float
  end.

Definition tolerancePercent (rules : list Rule) : float :=
  match find isToleranceBand rules with
  | Some toleranceRule => value toleranceRule
  | None => 5%float
  end.

Definition inWindow (rules : list Rule) (invoice : Invoice) (delivery : Delivery) : bool :=
  if negb (String.eqb (d_contractId delivery) (contractId invoice)) then false
  else
    let deliveryTime := timestamp delivery in
    let invoiceStart := periodStart invoice in
    let invoiceEnd := periodEnd invoice in
    (invoiceStart - timeWindowMs rules <=? deliveryTime)%float &&
    (deliveryTime <=? invoiceEnd + timeWindowMs rules)%float.

Definition matchingDeliveries (rules : list Rule) (deliveries : list Delivery)
    (invoice : Invoice) : list Delivery :=
  filter (inWindow rules invoice) deliveries.

Definition totalDelivered (ds : list Delivery) : float :=
  fold_left (fun sum d => (sum + quantity d)%float) ds 0%float.

(** Truthiness of a numeric property: [undefined], [0], [-0] and [NaN] are
    falsy. *)
Definition truthy (v : option float) : bool :=
  match v with
  | Some x => negb (is_nan x) && negb (x =? 0)%float
  | None => false
  end.

Definition numberOr0 (v : option float) : float :=
  match v with Some x => x | None => 0%float end.

Definition expectedQuantity (invoice : Invoice) : float :=
  match lineItems invoice with
  | None => 0%float
  | Some items =>
      if truthy (energy items) then numberOr0 (energy items)
      else if truthy (gas items) then numberOr0 (gas items)
      else if truthy (fuel items) then numberOr0 (fuel items)
      else 0%float
  end.

Definition varianceOf (totalDelivered expectedQuantity : float) : float :=
  if (0 <? expectedQuantity)%float
  then abs ((totalDelivered - expectedQuantity) / expectedQuantity * 100)%float
  else 100%float.

Definition confidenceOf (variance : float) : float := Math_max 0 (100 - variance).

Definition severityOf (variance : float) : Severity :=
  if (20 <? variance)%float then HIGH
  else if (10 <? variance)%float then MEDIUM
  else LOW.

Definition reconcileInvoice (rules : list Rule) (deliveries : list Delivery)
    (invoice : Invoice) : Matched + Exception.t :=
  let matching := matchingDeliveries rules deliveries invoice in
  if Nat.eqb (List.length matching) 0 then
    inr {| Exception.invoiceId := invoiceId invoice;
           Exception.reason := "NO_MATCHING_DELIVERIES";
           Exception.severity := HIGH;
           Exception.recommendation := "Verify delivery data or invoice period" |}
  else
    let variance := varianceOf (totalDelivered matching) (expectedQuantity invoice) in
    let confidenceScore := confidenceOf variance in
    if (variance <=? tolerancePercent rules)%float then
      inl {| m_invoiceId := invoiceId invoice;
             deliveryIds := map deliveryId matching;
             confidenceScore := confidenceScore;
             matchedAmount := totalAmount invoice;
             variance := variance |}
    else
      inr {| Exception.invoiceId := invoiceId invoice;
             Exception.reason := "QUANTITY_VARIANCE";
             Exception.severity := severityOf variance;
             Exception.recommendation :=
               ("Quantity variance of " ++ toFixed1 variance ++
                "% exceeds tolerance")%string |}.

Local Open Scope string_scope.

Definition sampleInvoice (energy : float) : Invoice :=
  {| invoiceId := "INV-1"; contractId := "CTR-1";
     periodStart := 0; periodEnd := 86400000;
     lineItems := Some {| energy := Some energy; gas := None; fuel := None |};
     totalAmount := 5000 |}.

Definition sampleDelivery (quantity : float) : Delivery :=
  {| deliveryId := "DEL-1"; d_contractId := "CTR-1";
     timestamp := 3600000; quantity := quantity |}.

(** A delivery under another contract. *)
Definition otherDelivery (quantity : float) : Delivery :=
  {| deliveryId := "DEL-9"; d_contractId := "CTR-2";
     timestamp := 3600000; quantity := quantity |}.

Definition bandOf (percent : float) : list Rule :=
  [ {| type := TOLERANCE_BAND; value := percent; unit_ := PERCENTAGE |} ].

End FloatReconciliation.

(** ** The reconciliation summary in double arithmetic *)

Module DoubleSummary.

(** [invoices.length > 0 ? (matched.length / invoices.length * 100) : 0],
    on the two lengths. *)
Definition matchRate (matchedInvoices totalInvoices : nat) : Q :=
  if Nat.ltb 0 totalInvoices
  then Double.mul (Double.div (ofNat matchedInvoices) (ofNat totalInvoices)) 100
  else 0.

(** [matched.reduce((sum, m) => sum + m.matchedAmount, 0)], on the
    amounts. *)
Definition totalMatchedAmount (matchedAmounts : list Q) : Q :=
  fold_left Double.add matchedAmounts 0.

End DoubleSummary.

(** ** Dispute ids: the unique index

    [disputeId] is a unique column of the dispute table: the import routes
    look a dispute up with [db.dispute.findUnique({ where: { disputeId } })]
    and create it only when none is found.  [db.dispute.create] therefore
    throws when the id is taken.  [updateInvoiceStatuses] builds the id from
    [Date.now()] alone and has no [try]: the exception ends its loop and
    reaches the [catch] of POST, which answers 500; what was written before
    stays written. *)

Module UniqueDisputes.

Import Ledger Reconciliation ReconciliationRoute.

(** How an [async] function ends. *)
Inductive Outcome (A : Type) : Type :=
| Returned (a : A)
| Thrown.
Arguments Returned {A} a.
Arguments Thrown {A}.

(** A computation on the tables and the clock that may throw. *)
Definition T (A : Type) : Type := M State (Outcome A).

Definition lift {A : Type} (m : M State A) : T A :=
  a <- m ;; ret (Returned a).

(** [await m; k], leaving at a throw. *)
Definition andThen {A B : Type} (m : T A) (k : A -> T B) : T B :=
  o <- m ;;
  match o with
  | Returned a => k a
  | Thrown => ret Thrown
  end.

(** [for (const x of xs) { await body(x) }] *)
Fixpoint forEachT {A : Type} (xs : list A) (body : A -> T unit) : T unit :=
  match xs with
  | [] => ret (Returned tt)
  | x :: xs' => andThen (body x) (fun _ => forEachT xs' body)
  end.

Definition idTaken (disputeId : string) (d : Db) : bool :=
  existsb (fun r => String.eqb (Dispute.disputeId r) disputeId) (dispute d).

(** [db.dispute.create({ data })] *)
Definition dispute_create (row : Dispute.t) : T unit :=
  taken <- gets (fun s => idTaken (Dispute.disputeId row) (fst s)) ;;
  if taken then ret Thrown
  else lift (onDb (Ledger.dispute_create row)).

(** The argument of [create] is evaluated first: both [Date.now()] readings
    are taken before the call. *)
Definition createDisputeFor (clock : nat -> Z) (exception : Exception.t)
    (invoice : Invoice.t) : T unit :=
  andThen (lift (Date_now clock)) (fun t1 =>
  andThen (lift (Date_now clock)) (fun t2 =>
  dispute_create
    {| Dispute.disputeId := ("DSP-" ++ string_of_Z t1)%string;
       Dispute.invoiceId := Invoice.id invoice;
       Dispute.contractId := Invoice.contractId invoice;
       Dispute.raisedById := Invoice.counterpartyId invoice;
       Dispute.receivedById := Invoice.issuerId invoice;
       Dispute.reasonCode := DisputeReason.QUANTITY_VARIANCE;
       Dispute.description := Exception.recommendation exception;
       Dispute.status := Dispute.status_default;
       Dispute.slaDeadline := (t2 + sevenDaysMs)%Z |})).

Definition applyException (clock : nat -> Z) (exception : Exception.t) : T unit :=
  andThen (lift (onDb (invoice_updateMany (Exception.invoiceId exception)
                         (setInvoiceStatus InvoiceStatus.PARTIALLY_MATCHED))))
  (fun _ =>
    if isHigh (Exception.severity exception) then
      andThen (lift (gets (fun s =>
                 invoice_findUnique (Exception.invoiceId exception) (fst s))))
      (fun invoice =>
         match invoice with
         | Some invoice => createDisputeFor clock exception invoice
         | None => ret (Returned tt)
         end)
    else ret (Returned tt)).

Definition updateInvoiceStatuses (clock : nat -> Z) (matched : list Matched.t)
    (exceptions : list Exception.t) : T unit :=
  andThen (forEachT matched (fun match_ => lift (applyMatched match_)))
          (fun _ => forEachT exceptions (applyException clock)).

(** What POST answers: the result, or
    [{ error: 'Failed to run reconciliation' }] with status 500. *)
Inductive Response : Type :=
| Ok (result : ReconciliationResult)
| Failed.

Definition POST (clock : nat -> Z) (deliveryTable : list Delivery.t)
    (request : Request) : M State Response :=
  invoices <- gets (fun s => filter (invoiceInScope request) (invoice (fst s))) ;;
  let deliveries := filter (deliveryInScope request) deliveryTable in
  let result := performReconciliation invoices deliveries (rulesOf request) in
  o <- updateInvoiceStatuses clock (matched result) (exceptions result) ;;
  match o with
  | Returned _ => ret (Ok result)
  | Thrown => ret Failed
  end.


(** A clock that does not advance during the request. *)
Definition stoppedClock (k : nat) : Z := 1700000000000.

Definition inv3 : Invoice.t := sampleInvoice "INV-3" 1000.

End UniqueDisputes.

(** ** Smart-contract route: requests that overlap

    A handler reads [blockchainState.currentBlock] when it builds its
    transaction and then awaits [simulateConsensus], which sleeps for 100 to
    300 ms.  Only afterwards does it push the transaction and raise the
    block height.  Requests that arrive in the meantime are served in
    between: each handler is cut at its [await]. *)

Module Overlap.

Import Ledger Blockchain.

Inductive Call :=
| Approve (env : Env) (settlementData : SettlementData)
| Execute (env : Env) (executionData : ExecutionRequest).

(** A handler up to its [await]: the transaction as built, with the block
    number read at that moment. *)
Definition begin (c : Call) : M State SmartContractTransaction :=
  block <- gets (fun s => currentBlock (snd s)) ;;
  ret match c with
      | Approve env settlementData =>
          {| txId := ("TX_APP_" ++ string_of_Z (txStamp env) ++ "_" ++ txSuffix env)%string;
             contractType := SETTLEMENT_APPROVAL;
             parties := approvers settlementData;
             data := ApprovalData (sd_batchId settlementData)
                       (sd_totalAmount settlementData)
                       (sd_netPositions settlementData) (approvals settlementData);
             hash := sha256 env; timestamp := txTime env;
             blockNumber := S block; status := TxStatus.PENDING |}
      | Execute env executionData =>
          {| txId := ("TX_EXEC_" ++ string_of_Z (txStamp env) ++ "_" ++ txSuffix env)%string;
             contractType := SETTLEMENT_EXECUTION;
             parties := ex_parties executionData;
             data := ExecutionData (ex_batchId executionData)
                       (settlementLegs executionData)
                       (ex_totalAmount executionData) (bankReferences executionData)
                       (executionTime executionData);
             hash := sha256 env; timestamp := txTime env;
             blockNumber := S block; status := TxStatus.PENDING |}
      end.

(** A handler from its [await] on, run on the state of that later
    moment. *)
Definition resume (c : Call) (transaction : SmartContractTransaction)
    : M State Response :=
  match c with
  | Approve env settlementData =>
      let consensus := simulateConsensus env transaction && hasQuorum settlementData in
      let transaction :=
        setTxStatus (if consensus then TxStatus.CONFIRMED else TxStatus.FAILED)
                    transaction in
      (if consensus then
         commit transaction ;;;
         onDb (settlementBatch_updateMany (sd_batchId settlementData)
                 (fun r => setBatchStatus SettlementStatus.APPROVED
                             (Some (txId transaction))
                             (SettlementBatch.executedAt r) r))
       else ret tt) ;;;
      ret {| success := consensus; transaction := transaction;
             message := if consensus then "Settlement approved on blockchain"
                        else "Insufficient approvals or consensus failed" |}
  | Execute env executionData =>
      let consensus := simulateConsensus env transaction in
      let transaction :=
        setTxStatus (if consensus then TxStatus.CONFIRMED else TxStatus.FAILED)
                    transaction in
      (if consensus then
         commit transaction ;;;
         onDb (settlementBatch_updateMany (ex_batchId executionData)
                 (fun r => setBatchStatus SettlementStatus.EXECUTED
                             (SettlementBatch.smartContractTxId r)
                             (Some (executedTime env)) r)) ;;;
         createPayments env executionData 0 (settlementLegs executionData)
       else ret tt) ;;;
      ret {| success := consensus; transaction := transaction;
             message := if consensus then "Settlement executed on blockchain"
                        else "Consensus failed" |}
  end.

(** A request in flight: the call and the transaction it has built. *)
Record Pending := { call : Call; built : SmartContractTransaction }.

(** The server: the tables, the ledger log, and the requests in flight. *)
Definition Server : Type := State * list Pending.

(** A request arrives and runs to its [await]; a request in flight
    resumes; or another route writes to the tables. *)
Inductive step : Server -> Server -> Prop :=
| arrives c s pool :
    step (s, pool) (snd (begin c s), pool ++ [{| call := c; built := fst (begin c s) |}])
| resumes p s before after :
    step (s, before ++ p :: after)
         (snd (resume (call p) (built p) s), before ++ after)
| elsewhere db db' chain pool :
    step ((db, chain), pool) ((db', chain), pool).

Inductive runs : Server -> Prop :=
| runs_start db : runs ((db, genesis), [])
| runs_step x y : runs x -> step x y -> runs y.

(** A ledger log whose height is its length, whose transactions are all
    CONFIRMED, and in which a transaction's block number is at least 1 and
    at most its position. *)
Definition orderly (chain : BlockchainState) : Prop :=
  currentBlock chain = List.length (transactions chain) /\
  Forall (fun tx => status tx = TxStatus.CONFIRMED) (transactions chain) /\
  (forall i tx, nth_error (transactions chain) i = Some tx ->
                (1 <= blockNumber tx <= S i)%nat).

(** Two approvals arrive before either resumes. *)
Definition twoOverlapping : Server :=
  let s0 := (sampleDb SettlementStatus.COMPUTED, genesis) in
  let c := Approve sampleEnv repeatedApproval in
  let p := {| call := c; built := fst (begin c s0) |} in
  let s1 := snd (resume (call p) (built p) s0) in
  (snd (resume (call p) (built p) s1), []).

End Overlap.

(** * Properties *)

(** ** Rounding to doubles *)

Module DoubleFacts.
Import Double.

Lemma pow2_pos e : 0 < pow2 e.
Proof. apply Qpower_0_lt. reflexivity. Qed.

Lemma pow2_add a b : pow2 (a + b) == pow2 a * pow2 b.
Proof. apply Qpower_plus. discriminate. Qed.

Lemma pow2_le a b : (a <= b)%Z -> pow2 a <= pow2 b.
Proof. intros H. apply Qpower_le_compat_l; [exact H | discriminate]. Qed.

Lemma pow2_lt a b : (a < b)%Z -> pow2 a < pow2 b.
Proof. intros H. apply Qpower_lt_compat_l; [exact H | reflexivity]. Qed.

Lemma pow2_Z e : (0 <= e)%Z -> pow2 e == inject_Z (2 ^ e).
Proof. intros H. unfold pow2. now rewrite Zpower_Qpower. Qed.

Lemma pow2_sub a b : pow2 (a - b) == pow2 a / pow2 b.
Proof.
  unfold Z.sub. rewrite pow2_add. unfold pow2 at 2. rewrite Qpower_opp. reflexivity.
Qed.

Lemma pow2_0 : pow2 0 == 1.
Proof. reflexivity. Qed.

Lemma pow2_cancel x e : x / pow2 e * pow2 e == x.
Proof. field. pose proof (pow2_pos e). lra. Qed.

Lemma inject_Z_lt a b : (a < b)%Z -> inject_Z a < inject_Z b.
Proof. intros H. now rewrite <- Zlt_Qlt. Qed.

Lemma inject_Z_le a b : (a <= b)%Z -> inject_Z a <= inject_Z b.
Proof. intros H. now rewrite <- Zle_Qle. Qed.

(** *** The binary logarithm *)

Lemma log2_bounds (n : Z) :
  (0 < n)%Z ->
  pow2 (Z.log2 n) <= inject_Z n /\ inject_Z n < pow2 (Z.log2 n + 1).
Proof.
  intros Hn. destruct (Z.log2_spec n Hn) as [H1 H2].
  pose proof (Z.log2_nonneg n) as H0.
  rewrite !pow2_Z by lia. split.
  - now apply inject_Z_le.
  - apply inject_Z_lt. now rewrite <- Z.add_1_r in H2.
Qed.

Lemma ilog2_spec q :
  0 < q -> pow2 (ilog2 q) <= q /\ q < pow2 (ilog2 q + 1).
Proof.
  intros Hq. destruct q as [n d].
  assert (Hn : (0 < n)%Z).
  { unfold Qlt in Hq. cbn in Hq. lia. }
  destruct (log2_bounds n Hn) as [Hn1 Hn2].
  destruct (log2_bounds (Zpos d) eq_refl) as [Hd1 Hd2].
  set (a := Z.log2 n) in *. set (b := Z.log2 (Zpos d)) in *.
  assert (Hq' : n # d == inject_Z n / inject_Z (Zpos d)) by apply Qmake_Qdiv.
  assert (Hdp : 0 < inject_Z (Zpos d)) by reflexivity.
  assert (Hlow : pow2 (a - b - 1) <= n # d).
  { rewrite Hq'. apply Qle_shift_div_l; [exact Hdp|].
    apply Qle_trans with (pow2 (a - b - 1) * pow2 (b + 1)).
    - apply Qmult_le_l; [apply pow2_pos | lra].
    - rewrite <- pow2_add. replace (a - b - 1 + (b + 1))%Z with a by ring. exact Hn1. }
  assert (Hup : n # d < pow2 (a - b + 1)).
  { rewrite Hq'. apply Qlt_shift_div_r; [exact Hdp|].
    apply Qlt_le_trans with (pow2 (a - b + 1) * pow2 b).
    - rewrite <- pow2_add. replace (a - b + 1 + b)%Z with (a + 1)%Z by ring. exact Hn2.
    - apply Qmult_le_l; [apply pow2_pos | exact Hd1]. }
  unfold ilog2. cbn [Qnum Qden]. fold a b.
  destruct (Qle_bool (pow2 (a - b)) (n # d)) eqn:E.
  - apply Qle_bool_iff in E. split; assumption.
  - assert (E' : n # d < pow2 (a - b)).
    { apply Qnot_le_lt. intros H. apply Qle_bool_iff in H. congruence. }
    split; [exact Hlow|]. replace (a - b - 1 + 1)%Z with (a - b)%Z by ring. exact E'.
Qed.

Lemma ilog2_lt q k : 0 < q -> q < pow2 k -> (ilog2 q < k)%Z.
Proof.
  intros Hq Hk. destruct (ilog2_spec q Hq) as [H1 _].
  destruct (Z.lt_ge_cases (ilog2 q) k) as [H|H]; [exact H|].
  apply pow2_le in H. lra.
Qed.

Lemma ilog2_ge q k : 0 < q -> pow2 k <= q -> (k <= ilog2 q)%Z.
Proof.
  intros Hq Hk. destruct (ilog2_spec q Hq) as [_ H2].
  destruct (Z.le_gt_cases k (ilog2 q)) as [H|H]; [exact H|].
  assert (H' : (ilog2 q + 1 <= k)%Z) by lia.
  apply pow2_le in H'. lra.
Qed.

(** *** Rounding to the nearest integer, ties to even *)

Lemma rne_cases x :
  rne x = Qfloor x \/ rne x = (Qfloor x + 1)%Z.
Proof.
  unfold rne. destruct (Qcompare _ _); [destruct (Z.even _)| |]; auto.
Qed.

Lemma rne_error x : Qabs (inject_Z (rne x) - x) <= 1 # 2.
Proof.
  pose proof (Qfloor_le x) as Hf. pose proof (Qlt_floor x) as Hc.
  rewrite inject_Z_plus in Hc. change (inject_Z 1) with 1 in Hc.
  unfold rne.
  destruct (Qcompare (x - inject_Z (Qfloor x)) (1 # 2)) eqn:E.
  - apply Qeq_alt in E.
    destruct (Z.even (Qfloor x)).
    + apply Qabs_case; intros; lra.
    + rewrite inject_Z_plus. change (inject_Z 1) with 1. apply Qabs_case; intros; lra.
  - apply Qlt_alt in E. apply Qabs_case; intros; lra.
  - apply Qgt_alt in E. rewrite inject_Z_plus. change (inject_Z 1) with 1.
    apply Qabs_case; intros; lra.
Qed.

Lemma rne_Z x z : x == inject_Z z -> rne x = z.
Proof.
  intros H. unfold rne.
  assert (Hf : Qfloor x = z).
  { rewrite H. apply Qfloor_Z. }
  rewrite Hf.
  assert (E : Qcompare (x - inject_Z z) (1 # 2) = Lt).
  { apply Qlt_alt. rewrite H. setoid_replace (inject_Z z - inject_Z z) with 0 by ring. reflexivity. }
  now rewrite E.
Qed.

Lemma rne_le x (k : Z) : x <= inject_Z k -> (rne x <= k)%Z.
Proof.
  intros H.
  destruct (Qeq_dec x (inject_Z k)) as [E|E].
  - rewrite (rne_Z _ _ E). lia.
  - assert (Hlt : x < inject_Z k) by (apply Qle_lteq in H; tauto).
    assert (Hf : (Qfloor x < k)%Z).
    { rewrite Zlt_Qlt. eapply Qle_lt_trans; [apply Qfloor_le | exact Hlt]. }
    destruct (rne_cases x) as [-> | ->]; lia.
Qed.

Lemma rne_ge x (k : Z) : inject_Z k <= x -> (k <= rne x)%Z.
Proof.
  intros H.
  assert (Hf : (k <= Qfloor x)%Z).
  { rewrite <- (Qfloor_Z k). now apply Qfloor_resp_le. }
  destruct (rne_cases x) as [-> | ->]; lia.
Qed.


Lemma ilog2_wd p q : 0 < p -> p == q -> ilog2 p = ilog2 q.
Proof.
  intros Hp E. assert (Hq : 0 < q) by now rewrite <- E.
  destruct (ilog2_spec p Hp) as [P1 P2]. destruct (ilog2_spec q Hq) as [Q1 Q2].
  assert (P1' : pow2 (ilog2 p) <= q) by (rewrite <- E; exact P1).
  assert (Q1' : pow2 (ilog2 q) <= p) by (rewrite E; exact Q1).
  assert (H1 : (ilog2 p <= ilog2 q)%Z) by now apply ilog2_ge.
  assert (H2 : (ilog2 q <= ilog2 p)%Z) by now apply ilog2_ge.
  lia.
Qed.

Lemma Qabs_pos_iff x : ~ x == 0 -> 0 < Qabs x.
Proof.
  intros H. apply Qabs_case; intros Hx.
  - apply Qle_lteq in Hx. destruct Hx as [Hx|Hx]; [exact Hx|].
    exfalso. apply H. now symmetry.
  - apply Qle_lteq in Hx. destruct Hx as [Hx|Hx]; [lra|]. contradiction.
Qed.

Lemma ulp_exp_wd p q : ~ p == 0 -> p == q -> ulp_exp p = ulp_exp q.
Proof.
  intros Hp E. unfold ulp_exp.
  rewrite (ilog2_wd (Qabs p) (Qabs q)); [reflexivity | now apply Qabs_pos_iff |].
  now rewrite E.
Qed.

Lemma ulp_exp_min x : (emin <= ulp_exp x)%Z.
Proof. unfold ulp_exp. lia. Qed.

(** *** Rounding to binary64 *)

Lemma round_wd x y : x == y -> round x = round y.
Proof. intros E. unfold round. now rewrite (Qred_complete _ _ E). Qed.

Lemma round_0 : round 0 = 0.
Proof. reflexivity. Qed.

Lemma round_zero x : x == 0 -> round x = 0.
Proof. intros E. now rewrite (round_wd _ _ E). Qed.

Lemma round_unfold x :
  ~ x == 0 ->
  round x == inject_Z (rne (x / pow2 (ulp_exp x))) * pow2 (ulp_exp x).
Proof.
  intros Hx. unfold round.
  assert (E : Qred x == x) by apply Qred_correct.
  destruct (Qeq_bool (Qred x) 0) eqn:B.
  - apply Qeq_bool_iff in B. rewrite E in B. contradiction.
  - cbv zeta. rewrite Qred_correct.
    assert (Hr : ~ Qred x == 0) by (rewrite E; exact Hx).
    rewrite (ulp_exp_wd (Qred x) x Hr E).
    assert (R : rne (Qred x / pow2 (ulp_exp x)) = rne (x / pow2 (ulp_exp x))).
    { unfold rne.
      assert (Ey : Qred x / pow2 (ulp_exp x) == x / pow2 (ulp_exp x)) by now rewrite E.
      rewrite (Qfloor_comp _ _ Ey).
      assert (Ec : Qcompare (Qred x / pow2 (ulp_exp x)
                            - inject_Z (Qfloor (x / pow2 (ulp_exp x)))) (1 # 2)
                 = Qcompare (x / pow2 (ulp_exp x)
                            - inject_Z (Qfloor (x / pow2 (ulp_exp x)))) (1 # 2)).
      { apply Qcompare_comp; [now rewrite Ey | reflexivity]. }
      now rewrite Ec. }
    now rewrite R.
Qed.

Lemma round_error x :
  ~ x == 0 -> Qabs (round x - x) <= (1 # 2) * pow2 (ulp_exp x).
Proof.
  intros Hx. rewrite (round_unfold x Hx).
  set (e := ulp_exp x). set (y := x / pow2 e).
  pose proof (pow2_pos e) as He.
  assert (E : inject_Z (rne y) * pow2 e - x == (inject_Z (rne y) - y) * pow2 e).
  { unfold y. field. lra. }
  rewrite E, Qabs_Qmult, (Qabs_pos (pow2 e)) by lra.
  apply Qmult_le_compat_r; [apply rne_error | lra].
Qed.

Lemma ulp_exp_normal x :
  pow2 (-1022) <= Qabs x -> ulp_exp x = (ilog2 (Qabs x) - 52)%Z.
Proof.
  intros H. unfold ulp_exp, prec, emin.
  assert (Hp : 0 < Qabs x) by (pose proof (pow2_pos (-1022)); lra).
  pose proof (ilog2_ge _ _ Hp H). lia.
Qed.

(** Relative error of rounding in the normal range: half a unit in the last
    place, [2^-53] of the magnitude. *)
Lemma round_rel x :
  pow2 (-1022) <= Qabs x -> Qabs (round x - x) <= pow2 (-53) * Qabs x.
Proof.
  intros H.
  assert (Hp : 0 < Qabs x) by (pose proof (pow2_pos (-1022)); lra).
  assert (Hx : ~ x == 0).
  { intros E. rewrite E in Hp. discriminate Hp. }
  eapply Qle_trans; [apply (round_error x Hx)|].
  rewrite (ulp_exp_normal x H).
  destruct (ilog2_spec _ Hp) as [H1 _].
  rewrite pow2_sub.
  setoid_replace ((1 # 2) * (pow2 (ilog2 (Qabs x)) / pow2 52))
    with (pow2 (-53) * pow2 (ilog2 (Qabs x))).
  - apply Qmult_le_l; [apply pow2_pos | exact H1].
  - generalize (pow2 (ilog2 (Qabs x))). intros P.
    setoid_replace (pow2 52) with (4503599627370496 # 1) by reflexivity.
    setoid_replace (pow2 (-53)) with (1 # 9007199254740992) by reflexivity.
    field.
Qed.

Lemma representable_0 : representable 0.
Proof. exists 0%Z, 0%Z. unfold emin, prec. split; [lia|]. split; [reflexivity|]. reflexivity. Qed.

Lemma representable_wd x y : x == y -> representable x -> representable y.
Proof. intros E (m & e & H1 & H2 & H3). exists m, e. now rewrite <- E. Qed.

Lemma representable_opp x : representable x -> representable (- x).
Proof.
  intros (m & e & H1 & H2 & H3). exists (- m)%Z, e.
  split; [exact H1|]. split; [now rewrite Z.abs_opp|].
  rewrite H3, inject_Z_opp. ring.
Qed.

Lemma Qabs_inject_Z m : Qabs (inject_Z m) == inject_Z (Z.abs m).
Proof.
  destruct m; reflexivity.
Qed.

(** A double is left alone by rounding. *)
Lemma round_representable x : representable x -> round x == x.
Proof.
  intros (m & e & He & Hm & Hx).
  destruct (Qeq_dec x 0) as [E|E]; [now rewrite (round_zero x E)|].
  rewrite (round_unfold x E).
  set (u := ulp_exp x).
  assert (Hp : 0 < Qabs x) by now apply Qabs_pos_iff.
  assert (Hu : (u <= e)%Z).
  { unfold u, ulp_exp, prec.
    assert (Hlt : Qabs x < pow2 (53 + e)).
    { rewrite Hx, Qabs_Qmult, (Qabs_pos (pow2 e)) by (pose proof (pow2_pos e); lra).
      rewrite pow2_add, Qabs_inject_Z, (pow2_Z 53) by lia.
      apply Qmult_lt_r; [apply pow2_pos|]. apply inject_Z_lt. exact Hm. }
    pose proof (ilog2_lt _ _ Hp Hlt). lia. }
  assert (Hy : x / pow2 u == inject_Z (m * 2 ^ (e - u))).
  { rewrite Hx, inject_Z_mult, <- pow2_Z by lia. rewrite pow2_sub.
    field. pose proof (pow2_pos u); lra. }
  rewrite (rne_Z _ _ Hy), <- Hy. apply pow2_cancel.
Qed.

Lemma round_bound x :
  ~ x == 0 -> (Z.abs (rne (x / pow2 (ulp_exp x))) <= 2 ^ 53)%Z.
Proof.
  intros E. set (u := ulp_exp x).
  assert (Hp : 0 < Qabs x) by now apply Qabs_pos_iff.
  destruct (ilog2_spec _ Hp) as [_ H2].
  assert (Hu : (ilog2 (Qabs x) + 1 <= u + 53)%Z).
  { unfold u, ulp_exp, prec. lia. }
  apply pow2_le in Hu.
  assert (Hlt : Qabs x < pow2 u * inject_Z (2 ^ 53)).
  { rewrite <- pow2_Z by lia. rewrite <- pow2_add. lra. }
  pose proof (pow2_pos u) as Hpu.
  assert (Hy : Qabs (x / pow2 u) <= inject_Z (2 ^ 53)).
  { unfold Qdiv. rewrite Qabs_Qmult, (Qabs_pos (/ pow2 u)).
    - apply Qle_shift_div_r; [exact Hpu|]. rewrite Qmult_comm. lra.
    - apply Qlt_le_weak, Qinv_lt_0_compat, Hpu. }
  apply Qabs_Qle_condition in Hy. destruct Hy as [Hy1 Hy2].
  rewrite <- inject_Z_opp in Hy1.
  apply rne_ge in Hy1. apply rne_le in Hy2. lia.
Qed.

(** The result of rounding is a double. *)
Lemma round_is_representable x : representable (round x).
Proof.
  destruct (Qeq_dec x 0) as [E|E].
  - rewrite (round_zero x E). apply representable_0.
  - apply (representable_wd _ _ (Qeq_sym _ _ (round_unfold x E))).
    pose proof (round_bound x E) as Hb. pose proof (ulp_exp_min x) as Hu.
    remember (rne (x / pow2 (ulp_exp x))) as M eqn:EM.
    remember (ulp_exp x) as u eqn:Eu. clear EM Eu.
    destruct (Z.eq_dec (Z.abs M) (2 ^ 53)) as [Hm|Hm].
    + assert (HM : M = (2 ^ 53)%Z \/ M = (- 2 ^ 53)%Z) by lia.
      exists (M / 2)%Z, (u + 1)%Z. split; [lia|]. split.
      * unfold prec. destruct HM as [-> | ->]; vm_compute; reflexivity.
      * assert (Hk : inject_Z M == inject_Z (M / 2) * 2).
        { destruct HM as [-> | ->]; reflexivity. }
        rewrite pow2_add, Hk.
        setoid_replace (pow2 1) with 2 by reflexivity. ring.
    + exists M, u. split; [exact Hu|]. split; [unfold prec; lia | reflexivity].
Qed.

Lemma round_idempotent x : round (round x) == round x.
Proof. apply round_representable, round_is_representable. Qed.

(** Whole numbers below [2^53] are doubles. *)
Lemma representable_Z z : (Z.abs z < 2 ^ 53)%Z -> representable (inject_Z z).
Proof.
  intros H. exists z, 0%Z. unfold emin, prec. split; [lia|]. split; [exact H|].
  rewrite pow2_0. ring.
Qed.

Lemma round_Z z : (Z.abs z < 2 ^ 53)%Z -> round (inject_Z z) == inject_Z z.
Proof. intros H. apply round_representable, representable_Z, H. Qed.

(** Every double is a multiple of [2^emin]. *)
Lemma representable_grid x :
  representable x -> exists k : Z, x == inject_Z k * pow2 emin.
Proof.
  intros (m & e & He & _ & Hx). exists (m * 2 ^ (e - emin))%Z.
  rewrite Hx, inject_Z_mult, <- pow2_Z by lia. rewrite <- Qmult_assoc, <- pow2_add.
  now replace (e - emin + emin)%Z with e by ring.
Qed.

(** A sum of doubles that falls into the subnormal range is a double. *)
Lemma representable_small_sum x y :
  representable x -> representable y -> Qabs (x + y) < pow2 (-1021) ->
  representable (x + y).
Proof.
  intros Hx Hy Hs.
  destruct (representable_grid x Hx) as [a Ha].
  destruct (representable_grid y Hy) as [b Hb].
  exists (a + b)%Z, emin. split; [lia|]. split.
  - assert (E : x + y == inject_Z (a + b) * pow2 emin).
    { rewrite Ha, Hb, inject_Z_plus. ring. }
    rewrite E, Qabs_Qmult, (Qabs_pos (pow2 emin)), Qabs_inject_Z in Hs
      by (pose proof (pow2_pos emin); lra).
    replace (-1021)%Z with (53 + emin)%Z in Hs by reflexivity.
    rewrite pow2_add, (pow2_Z 53) in Hs by lia.
    apply Qmult_lt_r in Hs; [|apply pow2_pos].
    unfold prec. now rewrite Zlt_Qlt.
  - rewrite Ha, Hb, inject_Z_plus. ring.
Qed.

(** The standard model of floating-point addition: for doubles, the rounded
    sum is off by at most [2^-53] of the exact sum. *)
Lemma add_rel x y :
  representable x -> representable y ->
  Qabs (add x y - (x + y)) <= pow2 (-53) * Qabs (x + y).
Proof.
  intros Hx Hy. unfold add.
  destruct (Qlt_le_dec (Qabs (x + y)) (pow2 (-1022))) as [H|H].
  - assert (Hr : representable (x + y)).
    { apply representable_small_sum; auto.
      pose proof (pow2_lt (-1022) (-1021) eq_refl). lra. }
    rewrite (round_representable _ Hr).
    setoid_replace (x + y - (x + y)) with 0 by ring.
    apply Qmult_le_0_compat; [apply Qlt_le_weak, pow2_pos | apply Qabs_nonneg].
  - now apply round_rel.
Qed.

Lemma sub_rel x y :
  representable x -> representable y ->
  Qabs (sub x y - (x - y)) <= pow2 (-53) * Qabs (x - y).
Proof.
  intros Hx Hy. apply (add_rel x (- y)); [exact Hx | now apply representable_opp].
Qed.

Lemma add_representable x y : representable (add x y).
Proof. apply round_is_representable. Qed.

Lemma sub_representable x y : representable (sub x y).
Proof. apply round_is_representable. Qed.

(** *** Order and sign *)

Lemma round_nonneg x : 0 <= x -> 0 <= round x.
Proof.
  intros Hx. destruct (Qeq_dec x 0) as [E|E]; [rewrite (round_zero x E); lra|].
  rewrite (round_unfold x E). pose proof (pow2_pos (ulp_exp x)) as Hp.
  apply Qmult_le_0_compat; [|lra].
  change 0 with (inject_Z 0). rewrite <- Zle_Qle. apply rne_ge.
  change (inject_Z 0) with 0. apply Qle_shift_div_l; [exact Hp | lra].
Qed.




(** A double on a coarser grid than that of [x] is below the binade of [x]. *)
Lemma representable_position y x :
  representable y -> 0 < x ->
  (exists j : Z, y == inject_Z j * pow2 (ulp_exp x)) \/
  (Qabs y < pow2 (ulp_exp x + 52) /\ pow2 (ulp_exp x + 52) <= x).
Proof.
  intros (m & e & He & Hm & Hy) Hx.
  destruct (Z.le_gt_cases (ulp_exp x) e) as [Hle|Hgt].
  - left. exists (m * 2 ^ (e - ulp_exp x))%Z.
    rewrite Hy, inject_Z_mult, <- pow2_Z by lia.
    rewrite <- Qmult_assoc, <- pow2_add.
    replace (e - ulp_exp x + ulp_exp x)%Z with e by lia. reflexivity.
  - right.
    assert (Hax : Qabs x == x) by (apply Qabs_pos; lra).
    assert (Hpx : 0 < Qabs x) by lra.
    destruct (ilog2_spec (Qabs x) Hpx) as [Hlo _].
    assert (Hu : ulp_exp x = (ilog2 (Qabs x) - 52)%Z).
    { unfold ulp_exp in *. unfold prec in *. lia. }
    split.
    + rewrite Hy, Qabs_Qmult, Qabs_inject_Z.
      rewrite (Qabs_pos (pow2 e)) by (apply Qlt_le_weak, pow2_pos).
      assert (Hm' : inject_Z (Z.abs m) < pow2 53).
      { rewrite (pow2_Z 53) by lia. now apply inject_Z_lt. }
      assert (Hp : pow2 53 * pow2 e <= pow2 (ulp_exp x + 52)).
      { rewrite <- pow2_add. apply pow2_le. lia. }
      pose proof (pow2_pos e) as He0.
      assert (Hlt : inject_Z (Z.abs m) * pow2 e < pow2 53 * pow2 e)
        by (apply Qmult_lt_compat_r; assumption).
      lra.
    + rewrite Hu. replace (ilog2 (Qabs x) - 52 + 52)%Z with (ilog2 (Qabs x)) by lia.
      lra.
Qed.

Lemma round_above_binade x :
  0 < x -> pow2 (ulp_exp x + 52) <= x -> pow2 (ulp_exp x + 52) <= round x.
Proof.
  intros Hx Hb. assert (E : ~ x == 0) by lra.
  rewrite (round_unfold x E). pose proof (pow2_pos (ulp_exp x)) as Hp.
  rewrite pow2_add, (Qmult_comm (pow2 (ulp_exp x))).
  apply Qmult_le_compat_r; [|lra].
  rewrite (pow2_Z 52) by lia. apply inject_Z_le. apply rne_ge.
  rewrite <- (pow2_Z 52) by lia. apply Qle_shift_div_l; [exact Hp|].
  rewrite <- pow2_add. replace (52 + ulp_exp x)%Z with (ulp_exp x + 52)%Z by lia.
  exact Hb.
Qed.

(** Rounding does not cross a double: from above ... *)
Lemma round_ge_representable y x :
  representable y -> 0 < x -> y <= x -> y <= round x.
Proof.
  intros Hy Hx Hle. assert (E : ~ x == 0) by lra.
  pose proof (pow2_pos (ulp_exp x)) as Hp.
  destruct (representable_position y x Hy Hx) as [(j & Hj)|(Hlt & Hb)].
  - rewrite (round_unfold x E), Hj.
    apply Qmult_le_compat_r; [|lra].
    apply inject_Z_le. apply rne_ge. apply Qle_shift_div_l; [exact Hp|].
    now rewrite <- Hj.
  - pose proof (round_above_binade x Hx Hb) as Hr.
    pose proof (Qle_Qabs y). lra.
Qed.

(** ... and from below. *)
Lemma round_le_representable y x :
  representable y -> 0 < x -> x <= y -> round x <= y.
Proof.
  intros Hy Hx Hle. assert (E : ~ x == 0) by lra.
  pose proof (pow2_pos (ulp_exp x)) as Hp.
  destruct (representable_position y x Hy Hx) as [(j & Hj)|(Hlt & Hb)].
  - rewrite (round_unfold x E), Hj.
    apply Qmult_le_compat_r; [|lra].
    apply inject_Z_le. apply rne_le. apply Qle_shift_div_r; [exact Hp|].
    now rewrite <- Hj.
  - pose proof (Qle_Qabs y). lra.
Qed.

Lemma round_pos_representable y x :
  representable y -> 0 < y -> y <= x -> 0 < round x.
Proof.
  intros Hy Hy0 Hle.
  assert (Hx : 0 < x) by lra.
  pose proof (round_ge_representable y x Hy Hx Hle). lra.
Qed.


(** *** Symmetry of rounding *)

Lemma rne_spec x :
  Qabs (inject_Z (rne x) - x) < 1 # 2 \/
  (Qabs (inject_Z (rne x) - x) == 1 # 2 /\ Z.even (rne x) = true).
Proof.
  pose proof (Qfloor_le x) as Hf. pose proof (Qlt_floor x) as Hc.
  rewrite inject_Z_plus in Hc. change (inject_Z 1) with 1 in Hc.
  unfold rne.
  destruct (Qcompare (x - inject_Z (Qfloor x)) (1 # 2)) eqn:E.
  - apply Qeq_alt in E. right.
    destruct (Z.even (Qfloor x)) eqn:Ev.
    + split; [|exact Ev]. rewrite Qabs_neg by lra. lra.
    + split.
      * rewrite inject_Z_plus. change (inject_Z 1) with 1. rewrite Qabs_pos by lra. lra.
      * rewrite Z.even_add, Ev. reflexivity.
  - apply Qlt_alt in E. left. apply Qabs_case; intros; lra.
  - apply Qgt_alt in E. left. rewrite inject_Z_plus. change (inject_Z 1) with 1.
    apply Qabs_case; intros; lra.
Qed.

Lemma rne_unique x r :
  Qabs (inject_Z r - x) < 1 # 2 \/
  (Qabs (inject_Z r - x) == 1 # 2 /\ Z.even r = true) ->
  rne x = r.
Proof.
  intros Hr. pose proof (rne_spec x) as Hq. set (q := rne x) in *.
  assert (Hd : inject_Z (q - r) == (inject_Z q - x) - (inject_Z r - x)).
  { unfold Z.sub. rewrite inject_Z_plus, inject_Z_opp. ring. }
  assert (Hcases : (q - r = 0)%Z \/
                   ((q - r = 1 \/ q - r = -1)%Z /\
                    Qabs (inject_Z q - x) == 1 # 2 /\ Qabs (inject_Z r - x) == 1 # 2)).
  { assert (Hb : -1 <= inject_Z (q - r) <= 1).
    { rewrite Hd. destruct Hr as [Hr|[Hr _]], Hq as [Hq|[Hq _]];
        revert Hr Hq; apply Qabs_case; apply Qabs_case; intros; lra. }
    destruct Hb as [Hb1 Hb2].
    change (-1) with (inject_Z (-1)) in Hb1. change 1 with (inject_Z 1) in Hb2.
    rewrite <- Zle_Qle in Hb1, Hb2.
    destruct (Z.eq_dec (q - r) 0) as [E0|E0]; [left; exact E0|].
    right. assert (E1 : (q - r = 1 \/ q - r = -1)%Z) by lia.
    split; [exact E1|].
    assert (Hd1 : inject_Z (q - r) == 1 \/ inject_Z (q - r) == -1).
    { destruct E1 as [->| ->]; [left | right]; reflexivity. }
    rewrite Hd in Hd1.
    destruct Hr as [Hr|[Hr _]], Hq as [Hq|[Hq _]];
      revert Hr Hq; apply Qabs_case; apply Qabs_case; intros;
      destruct Hd1; try lra; split; lra. }
  destruct Hcases as [H0|(H1 & Hq1 & Hr1)]; [lia|].
  exfalso.
  destruct Hr as [Hr|[_ Er]]; [lra|]. destruct Hq as [Hq|[_ Eq]]; [lra|].
  assert (Hodd : Z.even (q - r) = false) by (destruct H1 as [->| ->]; reflexivity).
  rewrite Z.even_sub, Eq, Er in Hodd. discriminate.
Qed.

Lemma rne_opp x : rne (- x) = (- rne x)%Z.
Proof.
  apply rne_unique. rewrite inject_Z_opp.
  setoid_replace (- inject_Z (rne x) - - x) with (- (inject_Z (rne x) - x)) by ring.
  rewrite Qabs_opp, Z.even_opp. apply rne_spec.
Qed.

Lemma round_opp x : round (- x) == - round x.
Proof.
  destruct (Qeq_dec x 0) as [E|E].
  - rewrite (round_zero x E), (round_zero (- x)) by (rewrite E; reflexivity). reflexivity.
  - assert (E' : ~ - x == 0) by (intros H; apply E; lra).
    rewrite (round_unfold x E), (round_unfold (- x) E').
    assert (Hu : ulp_exp (- x) = ulp_exp x).
    { unfold ulp_exp.
      rewrite (ilog2_wd (Qabs (- x)) (Qabs x));
        [reflexivity | now apply Qabs_pos_iff | apply Qabs_opp]. }
    rewrite Hu.
    assert (Hq : - x / pow2 (ulp_exp x) == - (x / pow2 (ulp_exp x))).
    { field. pose proof (pow2_pos (ulp_exp x)). lra. }
    assert (Hr : rne (- x / pow2 (ulp_exp x)) = (- rne (x / pow2 (ulp_exp x)))%Z).
    { rewrite <- rne_opp. unfold rne.
      rewrite !(Qfloor_comp _ _ Hq).
      now rewrite Hq. }
    rewrite Hr, inject_Z_opp. ring.
Qed.

End DoubleFacts.

Lemma Qltb_true (a b : Q) : Qltb a b = true <-> a < b.
Proof.
  unfold Qltb. rewrite negb_true_iff. split.
  - intros H. apply Qnot_le_lt. intros Hle.
    apply Qle_bool_iff in Hle. congruence.
  - intros H. destruct (Qle_bool b a) eqn:E; [|reflexivity].
    apply Qle_bool_iff in E. lra.
Qed.

Lemma Qltb_false (a b : Q) : Qltb a b = false <-> b <= a.
Proof.
  unfold Qltb. rewrite negb_false_iff. apply Qle_bool_iff.
Qed.

Lemma Qle_bool_false (a b : Q) : Qle_bool a b = false <-> b < a.
Proof.
  split.
  - intros H. apply Qnot_le_lt. intros Hle.
    apply Qle_bool_iff in Hle. congruence.
  - intros H. destruct (Qle_bool a b) eqn:E; [|reflexivity].
    apply Qle_bool_iff in E. lra.
Qed.

Lemma ofNat_S n : ofNat (S n) == ofNat n + 1.
Proof.
  unfold ofNat. rewrite Nat2Z.inj_succ. unfold Z.succ.
  rewrite inject_Z_plus. reflexivity.
Qed.

Lemma ofNat_nonneg n : 0 <= ofNat n.
Proof.
  unfold ofNat. change 0 with (inject_Z 0). rewrite <- Zle_Qle. lia.
Qed.

Lemma whole_cents_eq q r : q == r -> whole_cents q -> whole_cents r.
Proof. intros E [z Hz]. exists z. rewrite <- E. exact Hz. Qed.

Lemma whole_cents_plus q r : whole_cents q -> whole_cents r -> whole_cents (q + r).
Proof.
  intros [a Ha] [b Hb]. exists (a + b)%Z. rewrite Ha, Hb.
  unfold Qeq, Qplus. simpl. ring.
Qed.

Lemma whole_cents_opp q : whole_cents q -> whole_cents (- q).
Proof.
  intros [a Ha]. exists (- a)%Z. rewrite Ha. reflexivity.
Qed.

Lemma whole_cents_small q :
  whole_cents q -> - (1 # 100) < q -> q < 1 # 100 -> q == 0.
Proof.
  intros [a Ha] Hlo Hhi. rewrite Ha in *.
  unfold Qlt in Hlo, Hhi. simpl in Hlo, Hhi.
  assert (a = 0)%Z by lia. subst a. reflexivity.
Qed.

(** ** Netting *)

Module NettingProofs.

Import Netting.

Lemma mapNet_cons k v m : mapNet ((k, v) :: m) == netPosition v + mapNet m.
Proof. unfold mapNet, netTotal, Map_values. simpl. lra. Qed.

Lemma mapNet_set_absent k v m :
  Map_has k m = false -> mapNet (Map_set k v m) == mapNet m + netPosition v.
Proof.
  induction m as [|[k' v'] m IH]; simpl; intros H.
  - rewrite mapNet_cons. unfold mapNet, netTotal. simpl. lra.
  - destruct (String.eqb k k'); [discriminate|].
    rewrite !mapNet_cons, IH by assumption. lra.
Qed.

Lemma Map_has_set k v m : Map_has k (Map_set k v m) = true.
Proof.
  induction m as [|[k' v'] m IH]; simpl.
  - now rewrite String.eqb_refl.
  - destruct (String.eqb k k') eqn:E; simpl; rewrite E; auto.
Qed.

Lemma Map_has_ensure p m : Map_has (id p) (ensure p m) = true.
Proof.
  unfold ensure. destruct (Map_has (id p) m) eqn:E; [assumption|].
  apply Map_has_set.
Qed.

Lemma mapNet_ensure p m : mapNet (ensure p m) == mapNet m.
Proof.
  unfold ensure. destruct (Map_has (id p) m) eqn:E; [reflexivity|].
  rewrite mapNet_set_absent by assumption. simpl. lra.
Qed.

(** *** Settlement legs *)

Lemma owed_nonneg ds : Forall isNeg ds -> 0 <= owed ds.
Proof.
  unfold owed. induction 1 as [|d ds Hd _ IH]; simpl; [lra|].
  unfold isNeg in Hd. lra.
Qed.

Lemma due_nonneg cs : Forall isPos cs -> 0 <= due cs.
Proof.
  unfold due. induction 1 as [|c cs Hc _ IH]; simpl; [lra|].
  unfold isPos in Hc. lra.
Qed.

Lemma settle_nil_l fuel cs : settle fuel [] cs = Some [].
Proof. destruct fuel; reflexivity. Qed.

Lemma settle_nil_r fuel ds : settle fuel ds [] = Some [].
Proof. destruct fuel, ds; reflexivity. Qed.

(** One iteration on a debtor of position [d < 0] and a creditor of
    position [c > 0]: the amount and the two remainders. *)
Lemma iteration_facts (d c : Q) :
  d < 0 -> 0 < c ->
  let a := Qmin (Qabs d) c in
  0 < a /\ d + a <= 0 /\ 0 <= c - a /\
  Qabs (d + a) == - (d + a) /\
  (d + a == 0 \/ c - a == 0) /\
  (whole_cents d -> whole_cents c -> whole_cents a).
Proof.
  intros Hd Hc a.
  assert (Habs : Qabs d == - d) by (apply Qabs_neg; lra).
  destruct (Q.min_spec (Qabs d) c) as [[Hlt Ha]|[Hle Ha]]; fold a in Ha;
    rewrite Habs in *.
  - assert (Hda : d + a <= 0) by lra.
    split; [lra|]. split; [lra|]. split; [lra|].
    split; [apply Qabs_neg; lra|]. split; [left; lra|].
    intros Wd _. apply (whole_cents_eq (- d)); [lra|].
    now apply whole_cents_opp.
  - assert (Hda : d + a <= 0) by lra.
    split; [lra|]. split; [lra|]. split; [lra|].
    split; [apply Qabs_neg; lra|]. split; [right; lra|].
    intros _ Wc. apply (whole_cents_eq c); [lra|assumption].
Qed.

Lemma covers_nil_l cs : Forall isPos cs -> covers [] cs [].
Proof.
  intros Hcs. pose proof (due_nonneg cs Hcs) as H.
  unfold covers, legTotal, owed, cent. cbn [map Qsum fold_right List.length].
  change (ofNat 0) with 0.
  split; [lra|]. split; [exact H|]. split; [left; lra|]. intros _ _. left. lra.
Qed.

Lemma covers_nil_r ds : Forall isNeg ds -> covers ds [] [].
Proof.
  intros Hds. pose proof (owed_nonneg ds Hds) as H.
  unfold covers, legTotal, due, cent. cbn [map Qsum fold_right List.length].
  change (ofNat 0) with 0.
  split; [exact H|]. split; [lra|]. split; [right; lra|]. intros _ _. right. lra.
Qed.

Lemma settle_spec fuel : forall ds cs,
  Forall isNeg ds -> Forall isPos cs ->
  (List.length ds + List.length cs <= fuel)%nat ->
  exists legs, settle fuel ds cs = Some legs /\ covers ds cs legs.
Proof.
  induction fuel as [|fuel IH]; intros ds cs Hds Hcs Hlen.
  - destruct ds as [|d ds]; [|destruct cs as [|c cs]; [|simpl in Hlen; lia]].
    + exists []. split; [reflexivity|]. now apply covers_nil_l.
    + exists []. split; [reflexivity|]. now apply covers_nil_r.
  - destruct ds as [|d ds].
    { exists []. rewrite settle_nil_l. split; [reflexivity|]. now apply covers_nil_l. }
    destruct cs as [|c cs].
    { exists []. rewrite settle_nil_r. split; [reflexivity|]. now apply covers_nil_r. }
    inversion Hds as [|? ? Hd Hds']; subst.
    inversion Hcs as [|? ? Hc Hcs']; subst.
    unfold isNeg in Hd. unfold isPos in Hc.
    destruct (iteration_facts _ _ Hd Hc) as (Ha & Hda & Hca & Habs & Hzero & Hcents).
    cbn [settle].
    set (a := Qmin (Qabs (netPosition d)) (netPosition c)) in *.
    assert (Hpos : Qltb 0 a = true) by (apply Qltb_true; exact Ha).
    rewrite Hpos. cbn [netPosition setNet].
    destruct (Qltb (Qabs (netPosition d + a)) (1 # 100)) eqn:Ed;
    destruct (Qltb (netPosition c - a) (1 # 100)) eqn:Ec.
    all: try (apply Qltb_true in Ed; rewrite Habs in Ed).
    all: try (apply Qltb_false in Ed; rewrite Habs in Ed).
    all: try apply Qltb_true in Ec.
    all: try apply Qltb_false in Ec.
    4: { exfalso. destruct Hzero; lra. }
    all: match goal with
         | |- context [settle _ ?ds' ?cs'] =>
             destruct (IH ds' cs') as (legs & Hs & H1 & H2 & H3 & H4)
         end.
    all: try assumption.
    all: try (constructor; [unfold isNeg, isPos; cbn [netPosition setNet]; lra | assumption]).
    all: try (simpl in Hlen |- *; lia).
    all: rewrite Hs; eexists; (split; [reflexivity|]).
    all: unfold covers, legTotal, owed, due, cent, Qsum in *.
    all: cbn [map fold_right amount netPosition setNet List.length option_map] in *.
    all: rewrite ?ofNat_S in *.
    all: pose proof (ofNat_nonneg (List.length ds)); pose proof (ofNat_nonneg (List.length cs)).
    all: (split; [lra|]); (split; [lra|]).
    all: (split; [destruct H3; [left|right]; lra|]).
    all: intros Wd Wc; inversion Wd as [|? ? Wd1 Wd2]; inversion Wc as [|? ? Wc1 Wc2]; subst.
    all: pose proof (Hcents Wd1 Wc1) as Wa.
    all: pose proof (whole_cents_plus _ _ Wd1 Wa) as Wda.
    all: pose proof (whole_cents_plus _ _ Wc1 (whole_cents_opp _ Wa)) as Wca.
    all: try (assert (netPosition d + a == 0) by (apply whole_cents_small; [assumption|lra|lra])).
    all: try (assert (netPosition c + - a == 0) by (apply whole_cents_small; [assumption|lra|lra])).
    all: destruct H4 as [H4|H4]; try assumption.
    all: try (constructor; [cbn [netPosition setNet]; assumption | assumption]).
    all: try (left; lra); try (right; lra).
Qed.

Section SortFacts.
Variable le : NettingPosition -> NettingPosition -> bool.



Lemma sort_insert_Forall (P : NettingPosition -> Prop) x l :
  P x -> Forall P l -> Forall P (sort_insert le x l).
Proof.
  intros Hx. induction 1 as [|y l Hy Hl IH]; simpl.
  - constructor; [assumption|constructor].
  - destruct (le x y); repeat (constructor; try assumption).
Qed.

Lemma sort_Forall (P : NettingPosition -> Prop) l :
  Forall P l -> Forall P (sort le l).
Proof.
  induction 1 as [|x l Hx Hl IH]; simpl; [constructor|].
  now apply sort_insert_Forall.
Qed.

Lemma sort_insert_length x l :
  List.length (sort_insert le x l) = S (List.length l).
Proof.
  induction l as [|y l IH]; simpl; [reflexivity|].
  destruct (le x y); simpl; [reflexivity | now rewrite IH].
Qed.

Lemma sort_length l : List.length (sort le l) = List.length l.
Proof.
  induction l as [|x l IH]; simpl; [reflexivity|].
  now rewrite sort_insert_length, IH.
Qed.
End SortFacts.

Lemma filter_Forall_true {A : Type} (f : A -> bool) (l : list A) :
  Forall (fun x => f x = true) (filter f l).
Proof.
  apply Forall_forall. intros x Hx. now apply filter_In in Hx.
Qed.

Lemma debtors_neg ps : Forall isNeg (debtorsOf ps).
Proof.
  unfold debtorsOf. apply sort_Forall.
  eapply Forall_impl; [|apply filter_Forall_true].
  intros p Hp. now apply Qltb_true in Hp.
Qed.

Lemma creditors_pos ps : Forall isPos (creditorsOf ps).
Proof.
  unfold creditorsOf. apply sort_Forall.
  eapply Forall_impl; [|apply filter_Forall_true].
  intros p Hp. now apply Qltb_true in Hp.
Qed.

Lemma parties_length ps :
  (List.length (debtorsOf ps) + List.length (creditorsOf ps) <= List.length ps)%nat.
Proof.
  unfold debtorsOf, creditorsOf. rewrite !sort_length.
  induction ps as [|p ps IH]; simpl; [lia|].
  destruct (Qltb (netPosition p) 0) eqn:En, (Qltb 0 (netPosition p)) eqn:Ep;
    simpl; try lia.
  apply Qltb_true in En, Ep. lra.
Qed.



End NettingProofs.

(** ** Reconciliation *)

Module ReconciliationProofs.

Import Ledger Reconciliation.

Lemma inWindow_eligible rules invoice d :
  inWindow rules invoice d = true <-> eligible rules invoice d.
Proof.
  unfold inWindow, eligible.
  destruct (String.eqb_spec (Delivery.contractId d) (Invoice.contractId invoice))
    as [E|E]; simpl.
  - rewrite andb_true_iff, !Qle_bool_iff. tauto.
  - split; [discriminate | intros [H _]; contradiction].
Qed.

Lemma matching_In rules deliveries invoice d :
  In d (matchingDeliveries rules deliveries invoice) <->
  In d deliveries /\ eligible rules invoice d.
Proof.
  unfold matchingDeliveries. rewrite filter_In, inWindow_eligible. tauto.
Qed.

Lemma some_matching rules deliveries invoice d :
  In d deliveries -> eligible rules invoice d ->
  Nat.eqb (List.length (matchingDeliveries rules deliveries invoice)) 0 = false.
Proof.
  intros Hin Hel.
  assert (Hd : In d (matchingDeliveries rules deliveries invoice))
    by (apply matching_In; split; assumption).
  destruct (matchingDeliveries rules deliveries invoice); [contradiction|reflexivity].
Qed.

Lemma varianceOf_nonneg td e : 0 <= varianceOf td e.
Proof.
  unfold varianceOf. destruct (Qltb 0 e); [apply Qabs_nonneg | lra].
Qed.

Lemma confidenceOf_range v : 0 <= v -> 0 <= confidenceOf v <= 100.
Proof.
  intros Hv. unfold confidenceOf.
  destruct (Q.max_spec 0 (100 - v)) as [[H E]|[H E]]; rewrite E; lra.
Qed.

(** C5 as stated fails on a negative declared quantity.  An invoice declaring
    [energy = -10] with one matching delivery of 5 units: the stated formula
    gives [|5 - (-10)| / (-10) * 100 = -150], which is within the 5 percent
    band, while the code's guard [expectedQuantity > 0] sets the variance to
    100 and the invoice is an exception. *)
Lemma stated_variance_fails :
  let invoice := sampleInvoice "INV-1" (-10) in
  let deliveries := [sampleDelivery 5] in
  matchingDeliveries getDefaultRules deliveries invoice = deliveries /\
  expectedQuantity invoice == -10 /\
  totalDelivered deliveries == 5 /\
  varianceOf (totalDelivered deliveries) (expectedQuantity invoice) == 100 /\
  statedVariance (totalDelivered deliveries) (expectedQuantity invoice) == -150 /\
  statedVariance (totalDelivered deliveries) (expectedQuantity invoice)
    <= tolerancePercent getDefaultRules /\
  ~ varianceOf (totalDelivered deliveries) (expectedQuantity invoice)
    == statedVariance (totalDelivered deliveries) (expectedQuantity invoice) /\
  exists e, reconcileInvoice getDefaultRules deliveries invoice = inr e.
Proof.
  cbv zeta.
  split; [reflexivity|]. split; [reflexivity|]. split; [reflexivity|].
  split; [reflexivity|]. split; [reflexivity|].
  split; [vm_compute; discriminate|].
  split; [vm_compute; discriminate|].
  eexists. vm_compute. reflexivity.
Qed.

(** *** Partition of the input *)

Lemma fold_push {I : Type} (f : I -> Matched.t + Exception.t) (invoices : list I) :
  forall ms es,
  fold_left (fun acc invoice => pushResult acc (f invoice)) invoices (ms, es) =
  (ms ++ lefts (map f invoices), es ++ rights (map f invoices)).
Proof.
  induction invoices as [|i invoices IH]; intros ms es; simpl.
  - now rewrite !app_nil_r.
  - destruct (f i) as [m|e]; simpl; rewrite IH, <- app_assoc; reflexivity.
Qed.

Lemma performReconciliation_lists invoices deliveries rules :
  matched (performReconciliation invoices deliveries rules) =
    lefts (map (reconcileInvoice rules deliveries) invoices) /\
  exceptions (performReconciliation invoices deliveries rules) =
    rights (map (reconcileInvoice rules deliveries) invoices).
Proof.
  unfold performReconciliation. rewrite fold_push. simpl. split; reflexivity.
Qed.

Lemma lefts_rights_length {A B : Type} (l : list (A + B)) :
  (List.length (lefts l) + List.length (rights l) = List.length l)%nat.
Proof.
  induction l as [|[a|b] l IH]; simpl; lia.
Qed.

Lemma reconcileInvoice_id rules deliveries invoice :
  match reconcileInvoice rules deliveries invoice with
  | inl m => Matched.invoiceId m
  | inr e => Exception.invoiceId e
  end = Invoice.invoiceId invoice.
Proof.
  unfold reconcileInvoice. cbv zeta.
  destruct (Nat.eqb _ 0); [reflexivity|].
  destruct (Qle_bool _ _); reflexivity.
Qed.

Lemma count_ids rules deliveries invoices id :
  count_occ string_dec (map Invoice.invoiceId invoices) id =
  (count_occ string_dec
     (map Matched.invoiceId (lefts (map (reconcileInvoice rules deliveries) invoices))) id +
   count_occ string_dec
     (map Exception.invoiceId (rights (map (reconcileInvoice rules deliveries) invoices))) id)%nat.
Proof.
  induction invoices as [|i invoices IH]; [reflexivity|].
  cbn [map]. pose proof (reconcileInvoice_id rules deliveries i) as Hid.
  destruct (reconcileInvoice rules deliveries i) as [m|e]; cbn [lefts rights map count_occ];
    rewrite Hid; destruct (string_dec (Invoice.invoiceId i) id); rewrite IH; lia.
Qed.

(** C10 (partition).  Every input invoice is pushed on exactly one of the
    matched and exceptions lists: an invoice id occurs in the input as many
    times as in the two lists together, and when ids are distinct each
    invoice is in one list and not in the other.  So
    [totalInvoices = matchedInvoices + exceptionalInvoices]; and for an empty
    input the match rate is 0. *)
Theorem invoices_partitioned invoices deliveries rules :
  let r := performReconciliation invoices deliveries rules in
  let matchedIds := map Matched.invoiceId (matched r) in
  let exceptionIds := map Exception.invoiceId (exceptions r) in
  (forall id,
     count_occ string_dec (map Invoice.invoiceId invoices) id =
     (count_occ string_dec matchedIds id + count_occ string_dec exceptionIds id)%nat) /\
  (NoDup (map Invoice.invoiceId invoices) ->
   forall invoice, In invoice invoices ->
     (In (Invoice.invoiceId invoice) matchedIds /\
      ~ In (Invoice.invoiceId invoice) exceptionIds) \/
     (~ In (Invoice.invoiceId invoice) matchedIds /\
      In (Invoice.invoiceId invoice) exceptionIds)) /\
  totalInvoices (summary r) = List.length invoices /\
  matchedInvoices (summary r) = List.length (matched r) /\
  exceptionalInvoices (summary r) = List.length (exceptions r) /\
  totalInvoices (summary r) =
    (matchedInvoices (summary r) + exceptionalInvoices (summary r))%nat /\
  matchRate (summary (performReconciliation [] deliveries rules)) = 0.
Proof.
  intros r matchedIds exceptionIds.
  destruct (performReconciliation_lists invoices deliveries rules) as [Hm He].
  assert (Hcount : forall id,
     count_occ string_dec (map Invoice.invoiceId invoices) id =
     (count_occ string_dec matchedIds id + count_occ string_dec exceptionIds id)%nat).
  { intros id. subst matchedIds exceptionIds r. rewrite Hm, He. apply count_ids. }
  split; [exact Hcount|]. split.
  - intros Hnd invoice Hin.
    assert (Hid : In (Invoice.invoiceId invoice) (map Invoice.invoiceId invoices))
      by now apply in_map.
    pose proof (proj1 (NoDup_count_occ string_dec _) Hnd (Invoice.invoiceId invoice)) as Hle.
    pose proof (proj1 (count_occ_In string_dec _ _) Hid) as Hge.
    specialize (Hcount (Invoice.invoiceId invoice)).
    destruct (count_occ string_dec matchedIds (Invoice.invoiceId invoice)) eqn:Em.
    + right. split.
      * intros Hc. apply (count_occ_In string_dec) in Hc. lia.
      * apply (count_occ_In string_dec). lia.
    + left. split.
      * apply (count_occ_In string_dec). lia.
      * intros Hc. apply (count_occ_In string_dec) in Hc. lia.
  - assert (Hs : totalInvoices (summary r) = List.length invoices /\
                 matchedInvoices (summary r) = List.length (matched r) /\
                 exceptionalInvoices (summary r) = List.length (exceptions r)).
    { subst r. unfold performReconciliation. rewrite fold_push. simpl. auto. }
    destruct Hs as (H1 & H2 & H3).
    split; [exact H1|]. split; [exact H2|]. split; [exact H3|]. split.
    + rewrite H1, H2, H3. subst r. rewrite Hm, He.
      rewrite lefts_rights_length. now rewrite length_map.
    + reflexivity.
Qed.

Lemma invoices_partitioned_witness :
  NoDup (map Invoice.invoiceId [inv1; inv2]) /\
  In inv1 [inv1; inv2] /\
  ((In (Invoice.invoiceId inv1) (map Matched.invoiceId (matched sampleRun)) /\
    ~ In (Invoice.invoiceId inv1) (map Exception.invoiceId (exceptions sampleRun))) \/
   (~ In (Invoice.invoiceId inv1) (map Matched.invoiceId (matched sampleRun)) /\
    In (Invoice.invoiceId inv1) (map Exception.invoiceId (exceptions sampleRun)))).
Proof.
  assert (Hnd : NoDup (map Invoice.invoiceId [inv1; inv2])).
  { repeat constructor; simpl; intuition discriminate. }
  assert (Hin : In inv1 [inv1; inv2]) by (left; reflexivity).
  split; [exact Hnd|]. split; [exact Hin|].
  exact (proj1 (proj2 (invoices_partitioned [inv1; inv2] [sampleDelivery 1030] getDefaultRules))
           Hnd inv1 Hin).
Defined.

(** *** Applying the results *)

Lemma sameInvoice_refl r : sameInvoice r r.
Proof. unfold sameInvoice. auto. Qed.

Lemma sameInvoice_status st r : sameInvoice r (setInvoiceStatus st r).
Proof. unfold sameInvoice. simpl. auto. Qed.

Lemma sameInvoice_matched score ids r : sameInvoice r (setInvoiceMatched score ids r).
Proof. unfold sameInvoice. simpl. auto. Qed.

Lemma sameInvoice_trans r1 r2 r3 :
  sameInvoice r1 r2 -> sameInvoice r2 r3 -> sameInvoice r1 r3.
Proof.
  unfold sameInvoice. intros (a & b & c & d & e) (a' & b' & c' & d' & e').
  repeat split; congruence.
Qed.

Lemma find_map_same (g : Invoice.t -> Invoice.t) (x : string) (l : list Invoice.t) :
  (forall r, sameInvoice r (g r)) ->
  find (fun r => String.eqb (Invoice.invoiceId r) x) (map g l) =
  option_map g (find (fun r => String.eqb (Invoice.invoiceId r) x) l).
Proof.
  intros Hg. induction l as [|r l IH]; [reflexivity|]. simpl.
  destruct (Hg r) as (_ & Hid & _). rewrite <- Hid.
  destruct (String.eqb (Invoice.invoiceId r) x); [reflexivity | exact IH].
Qed.

(** Moving a dispute's justification from later tables to earlier ones. *)
Lemma raisedFor_earlier clock db db' n n' g e d :
  (forall r, sameInvoice r (g r)) ->
  invoice db' = map g (invoice db) ->
  (n <= n')%nat ->
  raisedFor clock db' n' e d -> raisedFor clock db n e d.
Proof.
  intros Hg Hinv Hn (inv' & k & Hfind & Hk & H).
  unfold invoice_findUnique in Hfind. rewrite Hinv, find_map_same in Hfind by exact Hg.
  destruct (find _ (invoice db)) as [inv|] eqn:E; [|discriminate].
  injection Hfind as <-.
  destruct (Hg inv) as (a & b & c & i & p).
  exists inv, k. unfold invoice_findUnique. rewrite E.
  split; [reflexivity|]. split; [lia|].
  rewrite a, c, i, p. exact H.
Qed.

Lemma sameInvoice_mark e r : sameInvoice r (markException e r).
Proof.
  unfold markException. destruct (String.eqb _ _);
    [apply sameInvoice_status | apply sameInvoice_refl].
Qed.

Lemma markExceptions_cons e (excs : list Exception.t) r :
  markExceptions excs (markException e r) = markExceptions (e :: excs) r.
Proof.
  unfold markExceptions, markException, isException. simpl.
  destruct (String.eqb (Invoice.invoiceId r) (Exception.invoiceId e)); simpl.
  - destruct (existsb _ excs); reflexivity.
  - reflexivity.
Qed.

Lemma known_after_update db db' g e :
  (forall r, sameInvoice r (g r)) ->
  invoice db' = map g (invoice db) ->
  willDispute db' e = willDispute db e.
Proof.
  intros Hg Hinv. unfold willDispute, invoice_findUnique.
  rewrite Hinv, find_map_same by exact Hg.
  destruct (find _ (invoice db)); reflexivity.
Qed.

Lemma exceptions_loop clock : forall (excs : list Exception.t) db n,
  exists db' n' created,
    forEach excs (applyException clock) (db, n) = (tt, (db', n')) /\
    (n <= n')%nat /\
    invoice db' = map (markExceptions excs) (invoice db) /\
    dispute db' = dispute db ++ created /\
    Forall2 (raisedFor clock db n) (filter (willDispute db) excs) created /\
    sameOthers db db'.
Proof.
  induction excs as [|e excs IH]; intros db n.
  - exists db, n, []. cbn. rewrite app_nil_r.
    split; [reflexivity|]. split; [lia|]. split.
    + symmetry. erewrite map_ext; [apply map_id|]. reflexivity.
    + split; [reflexivity|]. split; [constructor|]. unfold sameOthers. auto.
  - set (db1 := invoice_updateMany (Exception.invoiceId e)
                  (setInvoiceStatus InvoiceStatus.PARTIALLY_MATCHED) db).
    assert (Hinv1 : invoice db1 = map (markException e) (invoice db)) by reflexivity.
    assert (Hfind1 : forall x, invoice_findUnique x db1 =
                               option_map (markException e) (invoice_findUnique x db)).
    { intros x. unfold invoice_findUnique. rewrite Hinv1.
      apply find_map_same, sameInvoice_mark. }
    assert (Hfilter : forall dbx, invoice dbx = invoice db1 ->
              filter (willDispute dbx) excs = filter (willDispute db) excs).
    { intros dbx Hx. apply filter_ext. intros e'.
      apply (known_after_update db dbx (markException e)).
      - apply sameInvoice_mark.
      - now rewrite Hx. }
    pose proof (Hfind1 (Exception.invoiceId e)) as Efind1.
    unfold willDispute. cbn [filter].
    destruct (isHigh (Exception.severity e)) eqn:Ehigh;
      [destruct (invoice_findUnique (Exception.invoiceId e) db) as [inv|] eqn:Efind|];
      cbn [andb] in *; simpl in Efind1.
    + set (row := {| Dispute.disputeId := ("DSP-" ++ string_of_Z (clock n))%string;
                     Dispute.invoiceId := Invoice.id (markException e inv);
                     Dispute.contractId := Invoice.contractId (markException e inv);
                     Dispute.raisedById := Invoice.counterpartyId (markException e inv);
                     Dispute.receivedById := Invoice.issuerId (markException e inv);
                     Dispute.reasonCode := DisputeReason.QUANTITY_VARIANCE;
                     Dispute.description := Exception.recommendation e;
                     Dispute.status := Dispute.status_default;
                     Dispute.slaDeadline := (clock (S n) + sevenDaysMs)%Z |}).
      set (db2 := dispute_create row db1).
      destruct (IH db2 (S (S n))) as (db' & n' & created & Hrun & Hn & Hinv & Hdis & Hall & Hoth).
      exists db', n', (row :: created).
      split.
      { cbn [forEach]. unfold bind at 1. unfold applyException.
        unfold bind at 1. unfold onDb at 1, modify at 1. cbn [fst snd].
        fold db1. rewrite Ehigh.
        unfold bind at 1, gets at 1. cbn [fst snd]. rewrite Efind1.
        unfold createDisputeFor, bind, Date_now, onDb, modify. cbn [fst snd].
        fold row. fold db2. exact Hrun. }
      split; [lia|]. split.
      { rewrite Hinv. change (invoice db2) with (invoice db1).
        rewrite Hinv1, map_map. apply map_ext. intros r. apply markExceptions_cons. }
      split.
      { rewrite Hdis. change (dispute db2) with (dispute db ++ [row]).
        now rewrite <- app_assoc. }
      split.
      { constructor.
        - destruct (sameInvoice_mark e inv) as (a & b & c & i & p).
          exists inv, (S n). rewrite Efind.
          split; [reflexivity|]. split; [lia|].
          subst row. cbn. rewrite <- a, <- c, <- i, <- p. repeat split; reflexivity.
        - rewrite Hfilter in Hall by reflexivity.
          eapply Forall2_impl; [|exact Hall].
          intros e' d'. apply (raisedFor_earlier clock db db2 n (S (S n)) (markException e)).
          + apply sameInvoice_mark.
          + exact Hinv1.
          + lia. }
      { unfold sameOthers in *. exact Hoth. }
    + destruct (IH db1 n) as (db' & n' & created & Hrun & Hn & Hinv & Hdis & Hall & Hoth).
      exists db', n', created.
      split.
      { cbn [forEach]. unfold bind at 1. unfold applyException.
        unfold bind at 1. unfold onDb at 1, modify at 1. cbn [fst snd].
        fold db1. rewrite Ehigh.
        unfold bind at 1, gets at 1. cbn [fst snd]. rewrite Efind1.
        unfold ret. exact Hrun. }
      split; [lia|]. split.
      { rewrite Hinv, Hinv1, map_map. apply map_ext. intros r. apply markExceptions_cons. }
      split; [exact Hdis|]. split.
      { rewrite Hfilter in Hall by reflexivity.
        eapply Forall2_impl; [|exact Hall].
        intros e' d'. apply (raisedFor_earlier clock db db1 n n (markException e)).
        - apply sameInvoice_mark.
        - exact Hinv1.
        - lia. }
      { exact Hoth. }
    + destruct (IH db1 n) as (db' & n' & created & Hrun & Hn & Hinv & Hdis & Hall & Hoth).
      exists db', n', created.
      split.
      { cbn [forEach]. unfold bind at 1. unfold applyException.
        unfold bind at 1. unfold onDb at 1, modify at 1. cbn [fst snd].
        fold db1. rewrite Ehigh. unfold ret. exact Hrun. }
      split; [lia|]. split.
      { rewrite Hinv, Hinv1, map_map. apply map_ext. intros r. apply markExceptions_cons. }
      split; [exact Hdis|]. split.
      { rewrite Hfilter in Hall by reflexivity.
        eapply Forall2_impl; [|exact Hall].
        intros e' d'. apply (raisedFor_earlier clock db db1 n n (markException e)).
        - apply sameInvoice_mark.
        - exact Hinv1.
        - lia. }
      { exact Hoth. }
Qed.

Lemma matched_loop : forall (ms : list Matched.t) db n,
  exists db' g,
    forEach ms applyMatched (db, n) = (tt, (db', n)) /\
    (forall r, sameInvoice r (g r)) /\
    invoice db' = map g (invoice db) /\
    dispute db' = dispute db /\
    sameOthers db db'.
Proof.
  induction ms as [|m ms IH]; intros db n.
  - exists db, (fun r => r). cbn.
    split; [reflexivity|]. split; [apply sameInvoice_refl|].
    split; [now rewrite map_id|]. split; [reflexivity|]. unfold sameOthers; auto.
  - set (g1 := fun r => if String.eqb (Invoice.invoiceId r) (Matched.invoiceId m)
                        then setInvoiceMatched (Matched.confidenceScore m)
                               (Matched.deliveryIds m) r
                        else r).
    set (db1 := invoice_updateMany (Matched.invoiceId m)
                  (setInvoiceMatched (Matched.confidenceScore m) (Matched.deliveryIds m)) db).
    destruct (IH db1 n) as (db' & g & Hrun & Hg & Hinv & Hdis & Hoth).
    exists db', (fun r => g (g1 r)).
    split; [exact Hrun|]. split.
    { intros r. apply (sameInvoice_trans r (g1 r)); [|apply Hg].
      unfold g1. destruct (String.eqb _ _);
        [apply sameInvoice_matched | apply sameInvoice_refl]. }
    split.
    { rewrite Hinv. change (invoice db1) with (map g1 (invoice db)).
      now rewrite map_map. }
    split; [exact Hdis | exact Hoth].
Qed.

Lemma isException_In (excs : list Exception.t) e r :
  In e excs -> Invoice.invoiceId r = Exception.invoiceId e -> isException excs r = true.
Proof.
  intros Hin Hid. unfold isException. apply existsb_exists.
  exists e. split; [assumption|]. rewrite Hid. apply String.eqb_refl.
Qed.

Lemma updateInvoiceStatuses_run clock (ms : list Matched.t) (excs : list Exception.t) db n :
  exists db' n' created,
    updateInvoiceStatuses clock ms excs (db, n) = (tt, (db', n')) /\
    (forall e r, In e excs -> In r (invoice db') ->
       Invoice.invoiceId r = Exception.invoiceId e ->
       Invoice.status r = InvoiceStatus.PARTIALLY_MATCHED) /\
    dispute db' = dispute db ++ created /\
    Forall2 (raisedFor clock db n) (filter (willDispute db) excs) created /\
    sameOthers db db'.
Proof.
  destruct (matched_loop ms db n) as (dbm & g & Hrun1 & Hg & Hinv1 & Hdis1 & Hoth1).
  destruct (exceptions_loop clock excs dbm n)
    as (db' & n' & created & Hrun2 & Hn & Hinv2 & Hdis2 & Hall & Hoth2).
  exists db', n', created.
  split.
  { unfold updateInvoiceStatuses, bind. rewrite Hrun1. exact Hrun2. }
  split.
  { intros e r Hin Hr Hid. rewrite Hinv2 in Hr. apply in_map_iff in Hr.
    destruct Hr as (r0 & <- & _).
    unfold markExceptions in *.
    destruct (isException excs r0) eqn:E; [reflexivity|].
    rewrite (isException_In excs e r0 Hin Hid) in E. discriminate. }
  split; [now rewrite Hdis2, Hdis1|]. split.
  { rewrite (filter_ext _ _ (fun e => known_after_update db dbm g e Hg Hinv1)) in Hall.
    eapply Forall2_impl; [|exact Hall].
    intros e d. apply (raisedFor_earlier clock db dbm n n g e d Hg Hinv1). lia. }
  { destruct Hoth1 as (a & b & c & d), Hoth2 as (a' & b' & c' & d').
    unfold sameOthers. repeat split; congruence. }
Qed.

End ReconciliationProofs.

(** ** Settlement *)

Module SettlementProofs.

Import Ledger.

(** *** The smart-contract handlers *)

Lemma createPayments_run env ex : forall legs i db chain,
  Blockchain.createPayments env ex i legs (db, chain) =
  (tt, (with_payment (fun rows => rows ++ Blockchain.paymentsFrom env ex i legs) db, chain)).
Proof.
  induction legs as [|leg legs IH]; intros i db chain.
  - cbn. unfold with_payment. rewrite app_nil_r. now destruct db.
  - cbn [Blockchain.createPayments Blockchain.paymentsFrom].
    unfold bind at 1. unfold Blockchain.onDb, modify. cbn [fst snd].
    rewrite IH. unfold payment_create, with_payment. cbn.
    now rewrite <- app_assoc.
Qed.

(** What [approveSettlement] does, by the outcome of consensus and quorum. *)
Lemma approve_run env sd db chain :
  let ok := Blockchain.simulateConsensus env
              (Blockchain.transaction
                 (fst (Blockchain.approveSettlement env sd (db, chain))))
            && Blockchain.hasQuorum sd in
  let r := Blockchain.approveSettlement env sd (db, chain) in
  Blockchain.success (fst r) = ok /\
  snd r =
    if ok then
      (settlementBatch_updateMany (Blockchain.sd_batchId sd)
         (fun b => setBatchStatus SettlementStatus.APPROVED
                     (Some (Blockchain.txId (Blockchain.transaction (fst r))))
                     (SettlementBatch.executedAt b) b) db,
       {| Blockchain.transactions :=
            Blockchain.transactions chain ++ [Blockchain.transaction (fst r)];
          Blockchain.currentBlock := S (Blockchain.currentBlock chain) |})
    else (db, chain).
Proof.
  unfold Blockchain.approveSettlement, Blockchain.simulateConsensus, bind, gets, ret,
    Blockchain.commit, Blockchain.onDb, modify.
  cbn [fst snd].
  destruct (Qltb (5 # 100) (Blockchain.consensusDraw env) && Blockchain.hasQuorum sd);
    cbn; split; reflexivity.
Qed.

Lemma execute_run env ex db chain :
  let ok := Blockchain.simulateConsensus env
              (Blockchain.transaction
                 (fst (Blockchain.executeSettlement env ex (db, chain)))) in
  let r := Blockchain.executeSettlement env ex (db, chain) in
  Blockchain.success (fst r) = ok /\
  snd r =
    if ok then
      (with_payment
         (fun rows => rows ++ Blockchain.paymentsFrom env ex 0 (Blockchain.settlementLegs ex))
         (settlementBatch_updateMany (Blockchain.ex_batchId ex)
            (fun b => setBatchStatus SettlementStatus.EXECUTED
                        (SettlementBatch.smartContractTxId b)
                        (Some (Blockchain.executedTime env)) b) db),
       {| Blockchain.transactions :=
            Blockchain.transactions chain ++ [Blockchain.transaction (fst r)];
          Blockchain.currentBlock := S (Blockchain.currentBlock chain) |})
    else (db, chain).
Proof.
  unfold Blockchain.executeSettlement, Blockchain.simulateConsensus, bind, gets, ret,
    Blockchain.commit, Blockchain.onDb, modify.
  cbn [fst snd].
  destruct (Qltb (5 # 100) (Blockchain.consensusDraw env)).
  - rewrite createPayments_run. cbn. split; reflexivity.
  - cbn. split; reflexivity.
Qed.

(** The approval threshold is a proportion of the approvers listed in the
    request.  For fewer than 1500 approvers the rounded product has the
    ceiling of the exact one, the least integer not below 67 percent of
    their number. *)
Lemma ceiling_67_percent (n : Z) :
  let r := Qceiling (inject_Z n * (67 # 100)) in
  (67 * n <= 100 * r < 67 * n + 100)%Z.
Proof.
  intros r. unfold r.
  unfold Qceiling, Qfloor, inject_Z, Qmult, Qopp. cbn [Qnum Qden].
  change (Z.pos (1 * 100)) with 100%Z.
  pose proof (Z.div_mod (- (n * 67)) 100 ltac:(lia)) as Hdm.
  pose proof (Z.mod_pos_bound (- (n * 67)) 100 ltac:(lia)) as Hb.
  lia.
Qed.

Lemma rounded_67_percent :
  forallb (fun n => Z.eqb (Qceiling (Double.mul (ofNat n) (Double.round (67 # 100))))
                          (Qceiling (ofNat n * (67 # 100))))
          (seq 0 1500) = true.
Proof. vm_compute. reflexivity. Qed.

Lemma requiredApprovals_proportion sd :
  let n := Z.of_nat (List.length (Blockchain.approvers sd)) in
  let r := Blockchain.requiredApprovals sd in
  (List.length (Blockchain.approvers sd) < 1500)%nat ->
  (67 * n <= 100 * r < 67 * n + 100)%Z.
Proof.
  intros n r Hn. unfold r, Blockchain.requiredApprovals.
  pose proof rounded_67_percent as H. rewrite forallb_forall in H.
  specialize (H (List.length (Blockchain.approvers sd))).
  rewrite Z.eqb_eq in H. rewrite H by (apply in_seq; lia).
  apply ceiling_67_percent.
Qed.

(** With 1500 approvers the product [1500 * 0.67] is the double
    [1005.0000000000001] and the threshold 1006, one more than 67 percent
    asks for. *)
Lemma requiredApprovals_1500 sd :
  List.length (Blockchain.approvers sd) = 1500%nat ->
  Blockchain.requiredApprovals sd = 1006%Z.
Proof.
  intros H. unfold Blockchain.requiredApprovals. rewrite H.
  vm_compute. reflexivity.
Qed.

(** *** The treasury handlers *)

Lemma treasury_execute_guard h now batchId db :
  Treasury.isApproved (settlementBatch_findUnique batchId db) = false ->
  Treasury.executeSettlement h now batchId db =
  (Treasury.Error "Settlement not approved" 400, db).
Proof.
  intros H. unfold Treasury.executeSettlement, bind, gets, ret. now rewrite H.
Qed.

Lemma treasury_reserve_failure h now batchId db db1 :
  Treasury.isApproved (settlementBatch_findUnique batchId db) = true ->
  (forall request, Treasury.reserveFunds h request db = (false, db1)) ->
  Treasury.executeSettlement h now batchId db =
  (Treasury.Error "Insufficient escrow funds" 400, db1).
Proof.
  intros H Hr. unfold Treasury.executeSettlement, bind, gets, ret.
  rewrite H. cbn [negb]. now rewrite Hr.
Qed.

Lemma treasury_approve_stubs data db :
  snd (Treasury.approveSettlement Treasury.stubs data db) = db.
Proof.
  unfold Treasury.approveSettlement, bind, gets, ret, modify. cbn.
  destruct (negb (Treasury.hasAuthority _)); reflexivity.
Qed.

Lemma treasury_execute_stubs_audit now batchId db :
  auditLog (snd (Treasury.executeSettlement Treasury.stubs now batchId db)) = auditLog db.
Proof.
  unfold Treasury.executeSettlement, bind, gets, ret, modify. cbn.
  destruct (negb (Treasury.isApproved _)); reflexivity.
Qed.

(** *** Approval quorum *)

(** C3 (approval quorum), on the code.  The claim asks for a fixed quorum
    of three distinct approvers with duplicates rejected.  On the
    smart-contract route a request listing two approvers and carrying two
    approvals, both by MoE, needs [ceil(2 * 0.67) = 2] approvals, counts the
    repeated one, and the batch becomes APPROVED.  On the treasury route,
    whose handler tests [approvals.length >= 3] and 'Already approved',
    approvals by three distinct authorised users and then a repeat of the
    first all answer success with zero approvals counted, and the batch stays
    COMPUTED: the helpers that record and read approvals are empty. *)
Theorem approval_quorum_observed :
  let r := Blockchain.approveSettlement Blockchain.sampleEnv Blockchain.repeatedApproval
             (Blockchain.sampleDb SettlementStatus.COMPUTED, Blockchain.genesis) in
  let t := Treasury.fourApprovals (Blockchain.sampleDb SettlementStatus.COMPUTED) in
  Blockchain.requiredApprovals Blockchain.repeatedApproval = 2%Z /\
  Blockchain.success (fst r) = true /\
  Blockchain.batchStatuses (fst (snd r)) = [SettlementStatus.APPROVED] /\
  fst t = [Treasury.Approved false 0 3; Treasury.Approved false 0 3;
           Treasury.Approved false 0 3; Treasury.Approved false 0 3] /\
  Blockchain.batchStatuses (snd t) = [SettlementStatus.COMPUTED].
Proof.
  cbv zeta. repeat split; vm_compute; reflexivity.
Qed.

(** *** Execution *)

(** C4 (execution only from APPROVED), on the code.  The smart-contract
    route's [executeSettlement] never reads the batch status: on a batch that
    is still COMPUTED, with consensus reached, it sets the status to EXECUTED
    and creates a COMPLETED payment for the leg.  The treasury route's
    [executeSettlement] refuses the same batch with 'Settlement not approved'
    and changes nothing. *)
Theorem execution_without_approval :
  let db := Blockchain.sampleDb SettlementStatus.COMPUTED in
  let r := Blockchain.executeSettlement Blockchain.sampleEnv Blockchain.sampleExecution
             (db, Blockchain.genesis) in
  Blockchain.batchStatuses db = [SettlementStatus.COMPUTED] /\
  Blockchain.success (fst r) = true /\
  Blockchain.batchStatuses (fst (snd r)) = [SettlementStatus.EXECUTED] /\
  map Payment.status (payment (fst (snd r))) = [PaymentStatus.COMPLETED] /\
  Treasury.executeSettlement Treasury.stubs 1700000000250 "SB-202501-1" db =
    (Treasury.Error "Settlement not approved" 400, db).
Proof.
  cbv zeta. repeat split; vm_compute; reflexivity.
Qed.

(** C8 (reservation failure aborts execution), on the code.  The
    smart-contract route's [executeSettlement] has no reservation step: an
    APPROVED batch is executed and its payment created without any call to
    the escrow, so no shortage of funds can stop it.  The treasury route does
    reserve first and, with an escrow that refuses, reports 'Insufficient
    escrow funds' and changes nothing; with the helpers the file has, the
    reservation is for the total of an empty leg list and always succeeds. *)
Theorem execution_without_reservation :
  let db := Blockchain.sampleDb SettlementStatus.APPROVED in
  let r := Blockchain.executeSettlement Blockchain.sampleEnv Blockchain.sampleExecution
             (db, Blockchain.genesis) in
  Blockchain.success (fst r) = true /\
  Blockchain.batchStatuses (fst (snd r)) = [SettlementStatus.EXECUTED] /\
  map Payment.amount (payment (fst (snd r))) = [60] /\
  Treasury.executeSettlement Treasury.refusingEscrow 1700000000250 "SB-202501-1" db =
    (Treasury.Error "Insufficient escrow funds" 400, db) /\
  fst (Treasury.executeSettlement Treasury.stubs 1700000000250 "SB-202501-1" db) =
    Treasury.Executed true "SB-202501-1" [] 0 0 0.
Proof.
  cbv zeta. repeat split; vm_compute; reflexivity.
Qed.

End SettlementProofs.

(** ** Netting: positions, legs and summary *)

Module NettingExtra.

Import Netting NettingSummary.

Lemma Map_has_In k (m : PositionMap) : Map_has k m = true <-> In k (map fst m).
Proof.
  induction m as [|[k' v] m IH]; simpl; [split; [discriminate|tauto]|].
  destruct (String.eqb_spec k k') as [->|Hne].
  - split; auto.
  - rewrite IH. split; [auto|]. intros [H|H]; [congruence|assumption].
Qed.

Lemma Map_set_absent k v (m : PositionMap) :
  Map_has k m = false -> Map_set k v m = m ++ [(k, v)].
Proof.
  induction m as [|[k' v'] m IH]; simpl; [reflexivity|].
  destruct (String.eqb k k'); [discriminate|]. intros H. now rewrite IH.
Qed.

Lemma Map_modify_present k f (m : PositionMap) :
  Map_has k m = true ->
  exists l1 v l2,
    m = l1 ++ (k, v) :: l2 /\ Map_modify k f m = l1 ++ (k, f v) :: l2 /\
    ~ In k (map fst l1).
Proof.
  induction m as [|[k' v'] m IH]; simpl; [discriminate|].
  destruct (String.eqb_spec k k') as [->|Hne]; intros H.
  - exists [], v', m. simpl. auto.
  - destruct (IH H) as (l1 & v & l2 & -> & Hm & Hl1).
    exists ((k', v') :: l1), v, l2. simpl. rewrite Hm.
    split; [reflexivity|]. split; [reflexivity|].
    intros [E|E]; [congruence|contradiction].
Qed.

(** One update of the loop body: the position of party [p] is created if
    the map has none, then changed by [f]. *)
Lemma touch_split p f (m : PositionMap) :
  exists l1 v l2,
    Map_modify (id p) f (ensure p m) = l1 ++ (id p, f v) :: l2 /\
    ~ In (id p) (map fst l1) /\
    (m = l1 ++ (id p, v) :: l2 \/
     (m = l1 /\ l2 = [] /\ v = newPosition p)).
Proof.
  unfold ensure. destruct (Map_has (id p) m) eqn:E.
  - destruct (Map_modify_present (id p) f m E) as (l1 & v & l2 & Hm & Hf & Hn).
    exists l1, v, l2. auto.
  - rewrite Map_set_absent by exact E.
    assert (Hn : ~ In (id p) (map fst m)).
    { intros H. apply Map_has_In in H. congruence. }
    exists m, (newPosition p), []. split; [|split; [exact Hn | right; auto]].
    clear E. induction m as [|[k' v'] m IH]; simpl.
    + now rewrite String.eqb_refl.
    + destruct (String.eqb_spec (id p) k') as [Heq|Hne].
      * exfalso. apply Hn. simpl. left. symmetry. exact Heq.
      * rewrite IH; [reflexivity|]. intros H. apply Hn. simpl. right. exact H.
Qed.

(** *** One record per party *)

Lemma keyed_touch p f m :
  (forall v, partyId (f v) = partyId v) ->
  keyed m -> keyed (Map_modify (id p) f (ensure p m)).
Proof.
  intros Hf [Hk Hnd].
  destruct (touch_split p f m) as (l1 & v & l2 & -> & Hn & [Hm|(Hm & -> & ->)]); subst m.
  - apply Forall_app in Hk. destruct Hk as [Hk1 Hk2].
    inversion Hk2 as [|? ? Hv Hk3]; subst. simpl in Hv.
    split.
    + apply Forall_app. split; [assumption|].
      constructor; [simpl; now rewrite Hf | assumption].
    + rewrite map_app in *. exact Hnd.
  - split.
    + apply Forall_app. split; [assumption|].
      constructor; [simpl; now rewrite Hf | constructor].
    + rewrite map_app. simpl.
      apply NoDup_app; [assumption | repeat constructor; simpl; tauto |].
      intros k Hin [<-|[]]. contradiction.
Qed.

Lemma keyed_step m invoice : keyed m -> keyed (nettingStep m invoice).
Proof.
  intros H. unfold nettingStep.
  destruct (Qle_bool _ 0); [assumption|].
  apply keyed_touch; [reflexivity|]. apply keyed_touch; [reflexivity|assumption].
Qed.

Lemma keyed_fold invoices : forall m,
  keyed m -> keyed (fold_left nettingStep invoices m).
Proof.
  induction invoices as [|i invoices IH]; intros m H; simpl; [assumption|].
  apply IH, keyed_step, H.
Qed.

(** X1.  [calculateNettingPositions] returns one record per party: no party
    id occurs twice in its result, however often the party issues or
    receives invoices. *)
Theorem one_position_per_party (invoices : list Invoice) :
  NoDup (map partyId (calculateNettingPositions invoices)).
Proof.
  destruct (keyed_fold invoices []) as [Hk Hnd].
  { split; constructor. }
  unfold calculateNettingPositions, Map_values. rewrite map_map.
  erewrite map_ext_in; [exact Hnd|].
  intros kv Hin. rewrite Forall_forall in Hk. now apply Hk.
Qed.

(** *** Shape of the positions *)

Lemma Forall_touch (P : NettingPosition -> Prop) p f m :
  Forall P (Map_values m) ->
  (forall v, P v -> P (f v)) -> P (f (newPosition p)) ->
  Forall P (Map_values (Map_modify (id p) f (ensure p m))).
Proof.
  intros Hm Hf Hnew. unfold Map_values in *.
  destruct (touch_split p f m) as (l1 & v & l2 & -> & _ & [E|(E & -> & ->)]); subst m;
    rewrite map_app in *; simpl in *.
  - apply Forall_app in Hm. destruct Hm as [H1 H2].
    inversion H2; subst. apply Forall_app. split; [assumption|].
    constructor; auto.
  - apply Forall_app. split; [assumption|]. constructor; [assumption|constructor].
Qed.

(** *** Invoices paid in full *)

(** *** Shape and number of the legs *)

Lemma legBetween_weaken ds cs ds' cs' leg :
  incl (map ident ds') (map ident ds) -> incl (map ident cs') (map ident cs) ->
  legBetween ds' cs' leg -> legBetween ds cs leg.
Proof.
  intros Hd Hc (Ha & Hg & Hp & He). repeat split; auto.
Qed.

Lemma settle_legs fuel : forall ds cs,
  Forall isNeg ds -> Forall isPos cs ->
  (List.length ds + List.length cs <= fuel)%nat ->
  exists legs,
    settle fuel ds cs = Some legs /\
    Forall (legBetween ds cs) legs /\
    (ds <> [] -> cs <> [] ->
     (1 <= List.length legs /\
      List.length legs + 1 <= List.length ds + List.length cs)%nat).
Proof.
  induction fuel as [|fuel IH]; intros ds cs Hds Hcs Hlen.
  - destruct ds as [|d ds]; [|destruct cs as [|c cs]; [|simpl in Hlen; lia]].
    + exists []. split; [reflexivity|]. split; [constructor|]. congruence.
    + exists []. split; [reflexivity|]. split; [constructor|]. congruence.
  - destruct ds as [|d ds].
    { exists []. rewrite NettingProofs.settle_nil_l.
      split; [reflexivity|]. split; [constructor|]. congruence. }
    destruct cs as [|c cs].
    { exists []. rewrite NettingProofs.settle_nil_r.
      split; [reflexivity|]. split; [constructor|]. congruence. }
    inversion Hds as [|? ? Hd Hds']; subst.
    inversion Hcs as [|? ? Hc Hcs']; subst.
    unfold isNeg in Hd. unfold isPos in Hc.
    destruct (NettingProofs.iteration_facts _ _ Hd Hc)
      as (Ha & Hda & Hca & Habs & Hzero & _).
    cbn [settle].
    set (a := Qmin (Qabs (netPosition d)) (netPosition c)) in *.
    assert (Hpos : Qltb 0 a = true) by (apply Qltb_true; exact Ha).
    rewrite Hpos. cbn [netPosition setNet].
    destruct (Qltb (Qabs (netPosition d + a)) (1 # 100)) eqn:Ed;
    destruct (Qltb (netPosition c - a) (1 # 100)) eqn:Ec.
    all: try (apply Qltb_true in Ed; rewrite Habs in Ed).
    all: try (apply Qltb_false in Ed; rewrite Habs in Ed).
    all: try apply Qltb_true in Ec.
    all: try apply Qltb_false in Ec.
    4: { exfalso. destruct Hzero; lra. }
    all: match goal with
         | |- context [settle _ ?ds' ?cs'] =>
             destruct (IH ds' cs') as (legs & Hs & Hall & Hcount)
         end.
    all: try assumption.
    all: try (constructor; [unfold isNeg, isPos; cbn [netPosition setNet]; lra | assumption]).
    all: try (simpl in Hlen |- *; lia).
    all: rewrite Hs; eexists; (split; [reflexivity|]).
    all: split.
    all: try (constructor;
              [ unfold legBetween; cbn; split; [exact Ha|]; split; [reflexivity|];
                split; left; reflexivity
              | eapply Forall_impl; [|exact Hall]; intros leg;
                apply legBetween_weaken; cbn; intros x Hx; cbn in *; tauto ]).
    all: intros _ _; cbn [List.length].
    + destruct ds as [|d' ds];
        [rewrite NettingProofs.settle_nil_l in Hs; injection Hs as <-; simpl; lia|].
      destruct cs as [|c' cs];
        [rewrite NettingProofs.settle_nil_r in Hs; injection Hs as <-; simpl; lia|].
      destruct Hcount as [H1 H2]; [congruence|congruence|]. simpl in *. lia.
    + destruct ds as [|d' ds];
        [rewrite NettingProofs.settle_nil_l in Hs; injection Hs as <-; simpl; lia|].
      destruct Hcount as [H1 H2]; [congruence|congruence|]. simpl in *. lia.
    + destruct cs as [|c' cs];
        [rewrite NettingProofs.settle_nil_r in Hs; injection Hs as <-; simpl; lia|].
      destruct Hcount as [H1 H2]; [congruence|congruence|]. simpl in *. lia.
Qed.

Lemma sort_insert_In le (x y : NettingPosition) l :
  In y (sort_insert le x l) -> y = x \/ In y l.
Proof.
  induction l as [|z l IH]; simpl.
  - intros [H|[]]; auto.
  - destruct (le x z); simpl; intros H.
    + destruct H as [H|[H|H]]; auto.
    + destruct H as [H|H]; [auto|]. destruct (IH H); auto.
Qed.

Lemma sort_In le (y : NettingPosition) l : In y (sort le l) -> In y l.
Proof.
  induction l as [|x l IH]; simpl; [tauto|].
  intros H. apply sort_insert_In in H. destruct H; auto.
Qed.

Lemma debtor_origin positions pid pname :
  In (pid, pname) (map ident (debtorsOf positions)) ->
  exists d, In d positions /\ netPosition d < 0 /\
            pid = partyId d /\ pname = partyName d.
Proof.
  intros H. apply in_map_iff in H. destruct H as (d & E & Hd).
  unfold debtorsOf in Hd. apply sort_In, filter_In in Hd. destruct Hd as [Hin Hneg].
  apply Qltb_true in Hneg. injection E as <- <-. exists d. auto.
Qed.

Lemma creditor_origin positions pid pname :
  In (pid, pname) (map ident (creditorsOf positions)) ->
  exists c, In c positions /\ 0 < netPosition c /\
            pid = partyId c /\ pname = partyName c.
Proof.
  intros H. apply in_map_iff in H. destruct H as (c & E & Hc).
  unfold creditorsOf in Hc. apply sort_In, filter_In in Hc. destruct Hc as [Hin Hpos].
  apply Qltb_true in Hpos. injection E as <- <-. exists c. auto.
Qed.

Lemma generate_legs positions fuel :
  (List.length positions <= fuel)%nat ->
  exists legs,
    generateSettlementLegs fuel positions = Some legs /\
    Forall (legBetween (debtorsOf positions) (creditorsOf positions)) legs /\
    covers (debtorsOf positions) (creditorsOf positions) legs /\
    (debtorsOf positions <> [] -> creditorsOf positions <> [] ->
     (1 <= List.length legs /\
      List.length legs + 1 <=
        List.length (debtorsOf positions) + List.length (creditorsOf positions))%nat).
Proof.
  intros Hfuel. pose proof (NettingProofs.parties_length positions) as Hlen.
  destruct (settle_legs fuel (debtorsOf positions) (creditorsOf positions))
    as (legs & Hs & Hall & Hcount);
    [apply NettingProofs.debtors_neg | apply NettingProofs.creditors_pos | lia |].
  destruct (NettingProofs.settle_spec fuel (debtorsOf positions) (creditorsOf positions))
    as (legs' & Hs' & Hcov);
    [apply NettingProofs.debtors_neg | apply NettingProofs.creditors_pos | lia |].
  assert (legs' = legs) by congruence. subst legs'.
  exists legs. unfold generateSettlementLegs. auto.
Qed.

(** X5.  Every settlement leg has a positive amount in GHS, its payer is a
    position of negative net amount and its payee a position of positive net
    amount of the input: a party with net position zero is in no leg. *)
Theorem legs_debtor_to_creditor (positions : list NettingPosition) (fuel : nat) :
  (List.length positions <= fuel)%nat ->
  exists legs,
    generateSettlementLegs fuel positions = Some legs /\
    Forall (debtorToCreditor positions) legs.
Proof.
  intros Hfuel. destruct (generate_legs positions fuel Hfuel) as (legs & Hs & Hall & _).
  exists legs. split; [exact Hs|].
  eapply Forall_impl; [|exact Hall].
  intros leg (Ha & Hg & Hp & He). unfold debtorToCreditor.
  split; [exact Ha|]. split; [exact Hg|]. split.
  - apply debtor_origin in Hp. exact Hp.
  - apply creditor_origin in He. exact He.
Qed.

Lemma legs_debtor_to_creditor_witness :
  (List.length threeParties <= 3)%nat /\
  exists legs,
    generateSettlementLegs 3 threeParties = Some legs /\
    Forall (debtorToCreditor threeParties) legs.
Proof.
  assert (H : (List.length threeParties <= 3)%nat) by (simpl; lia).
  split; [exact H|]. exact (legs_debtor_to_creditor threeParties 3 H).
Defined.

(** X6.  Without a debtor or without a creditor [generateSettlementLegs]
    returns no leg; otherwise it returns at least one leg and at most one
    less than the number of debtors and creditors together, so fewer legs
    than positions. *)
Theorem legs_count (positions : list NettingPosition) (fuel : nat) :
  (List.length positions <= fuel)%nat ->
  let debtors := filter (fun p => Qltb (netPosition p) 0) positions in
  let creditors := filter (fun p => Qltb 0 (netPosition p)) positions in
  exists legs,
    generateSettlementLegs fuel positions = Some legs /\
    (debtors = [] \/ creditors = [] -> legs = []) /\
    (debtors <> [] -> creditors <> [] ->
     (1 <= List.length legs /\
      List.length legs + 1 <= List.length debtors + List.length creditors)%nat) /\
    (legs <> [] -> (List.length legs < List.length positions)%nat).
Proof.
  intros Hfuel debtors creditors.
  destruct (generate_legs positions fuel Hfuel) as (legs & Hs & _ & _ & Hcount).
  pose proof (NettingProofs.parties_length positions) as Hlen.
  assert (Hd : List.length (debtorsOf positions) = List.length debtors)
    by apply NettingProofs.sort_length.
  assert (Hc : List.length (creditorsOf positions) = List.length creditors)
    by apply NettingProofs.sort_length.
  assert (Hdn : debtorsOf positions = [] <-> debtors = []).
  { split; intros E; apply length_zero_iff_nil; apply length_zero_iff_nil in E; lia. }
  assert (Hcn : creditorsOf positions = [] <-> creditors = []).
  { split; intros E; apply length_zero_iff_nil; apply length_zero_iff_nil in E; lia. }
  exists legs. split; [exact Hs|]. split; [|split].
  - unfold generateSettlementLegs in Hs. intros [E|E].
    + apply Hdn in E. rewrite E, NettingProofs.settle_nil_l in Hs. congruence.
    + apply Hcn in E. rewrite E, NettingProofs.settle_nil_r in Hs. congruence.
  - intros Hd0 Hc0. rewrite <- Hd, <- Hc. apply Hcount; tauto.
  - intros Hne.
    destruct (debtorsOf positions) as [|d ds] eqn:Ed.
    { unfold generateSettlementLegs in Hs.
      rewrite Ed, NettingProofs.settle_nil_l in Hs. congruence. }
    destruct (creditorsOf positions) as [|c cs] eqn:Ec.
    { unfold generateSettlementLegs in Hs.
      rewrite Ec, NettingProofs.settle_nil_r in Hs. congruence. }
    destruct Hcount as [_ H]; [congruence|congruence|]. lia.
Qed.

Lemma legs_count_witness :
  (List.length threeParties <= 3)%nat /\
  exists legs,
    generateSettlementLegs 3 threeParties = Some legs /\
    (1 <= List.length legs)%nat /\ (List.length legs < List.length threeParties)%nat.
Proof.
  assert (H : (List.length threeParties <= 3)%nat) by (simpl; lia).
  split; [exact H|].
  destruct (legs_count threeParties 3 H) as (legs & Hs & _ & Hc & Hlt).
  exists legs. split; [exact Hs|].
  assert (Hne : legs <> []).
  { intros E. rewrite E in Hs. vm_compute in Hs. discriminate Hs. }
  split; [|exact (Hlt Hne)].
  destruct legs; [congruence | simpl; lia].
Defined.

Lemma filter_length_le {A : Type} (f g : A -> bool) (l : list A) :
  (forall x, In x l -> f x = true -> g x = true) ->
  (List.length (filter f l) <= List.length (filter g l))%nat.
Proof.
  induction l as [|x l IH]; intros H; simpl; [lia|].
  assert (IH' : (List.length (filter f l) <= List.length (filter g l))%nat).
  { apply IH. intros y Hy. apply H. now right. }
  destruct (f x) eqn:Ef.
  - rewrite (H x (or_introl eq_refl) Ef). simpl. lia.
  - destruct (g x); simpl; lia.
Qed.

End NettingExtra.

(** ** Reconciliation: results, rules and the POST handler *)

Module ReconciliationExtra.

Import Ledger Reconciliation ReconciliationRoute.

(** *** Matches *)

Lemma In_lefts {A B : Type} (a : A) (l : list (A + B)) :
  In a (lefts l) <-> In (inl a) l.
Proof.
  induction l as [|[x|y] l IH]; simpl; [tauto| |].
  - rewrite IH. split; intros [H|H]; auto; left; congruence.
  - rewrite IH. split; [auto|]. intros [H|H]; [discriminate|assumption].
Qed.

Lemma In_rights {A B : Type} (b : B) (l : list (A + B)) :
  In b (rights l) <-> In (inr b) l.
Proof.
  induction l as [|[x|y] l IH]; simpl; [tauto| |].
  - rewrite IH. split; [auto|]. intros [H|H]; [discriminate|assumption].
  - rewrite IH. split; intros [H|H]; auto; left; congruence.
Qed.

Lemma matched_origin invoices deliveries rules m :
  In m (matched (performReconciliation invoices deliveries rules)) ->
  exists invoice, In invoice invoices /\
                  reconcileInvoice rules deliveries invoice = inl m.
Proof.
  destruct (ReconciliationProofs.performReconciliation_lists invoices deliveries rules)
    as [-> _].
  rewrite In_lefts, in_map_iff. intros (i & E & Hin). eauto.
Qed.

Lemma exception_origin invoices deliveries rules e :
  In e (exceptions (performReconciliation invoices deliveries rules)) ->
  exists invoice, In invoice invoices /\
                  reconcileInvoice rules deliveries invoice = inr e.
Proof.
  destruct (ReconciliationProofs.performReconciliation_lists invoices deliveries rules)
    as [_ ->].
  rewrite In_rights, in_map_iff. intros (i & E & Hin). eauto.
Qed.

(** X8.  Every entry of [matched] comes from an input invoice: it carries
    that invoice's id and total amount, the ids of its matching deliveries,
    of which there is at least one, a variance between 0 and the tolerance
    band, and a confidence score between 0 and 100 that is at least 100 minus
    the band. *)
Theorem match_record_bounds invoices deliveries rules m :
  In m (matched (performReconciliation invoices deliveries rules)) ->
  exists invoice,
    In invoice invoices /\
    Matched.invoiceId m = Invoice.invoiceId invoice /\
    Matched.matchedAmount m = Invoice.totalAmount invoice /\
    Matched.deliveryIds m =
      map Delivery.deliveryId (matchingDeliveries rules deliveries invoice) /\
    Matched.deliveryIds m <> [] /\
    0 <= Matched.variance m /\ Matched.variance m <= tolerancePercent rules /\
    0 <= Matched.confidenceScore m /\ Matched.confidenceScore m <= 100 /\
    100 - tolerancePercent rules <= Matched.confidenceScore m.
Proof.
  intros Hin. destruct (matched_origin _ _ _ _ Hin) as (invoice & Hi & Hr).
  exists invoice. split; [exact Hi|].
  unfold reconcileInvoice in Hr. cbv zeta in Hr.
  destruct (matchingDeliveries rules deliveries invoice) as [|d ds] eqn:Em;
    [discriminate|]. cbn [List.length Nat.eqb] in Hr.
  set (v := varianceOf (totalDelivered (d :: ds)) (expectedQuantity invoice)) in *.
  destruct (Qle_bool v (tolerancePercent rules)) eqn:Ev; [|discriminate].
  apply Qle_bool_iff in Ev. injection Hr as <-. cbn.
  pose proof (ReconciliationProofs.varianceOf_nonneg
                (totalDelivered (d :: ds)) (expectedQuantity invoice)) as Hv.
  fold v in Hv.
  destruct (ReconciliationProofs.confidenceOf_range v Hv) as [Hc0 Hc1].
  assert (Hc2 : 100 - v <= confidenceOf v) by (unfold confidenceOf; apply Q.le_max_r).
  repeat (split; [first [reflexivity | discriminate | assumption | lra]|]).
  lra.
Qed.

Lemma match_record_bounds_witness :
  let m := {| Matched.invoiceId := "INV-1"; Matched.deliveryIds := ["DEL-1"%string];
              Matched.confidenceScore := confidenceOf (varianceOf 1030 1000);
              Matched.matchedAmount := 5000;
              Matched.variance := varianceOf 1030 1000 |} in
  In m (matched sampleRun) /\
  exists invoice,
    In invoice [inv1; inv2] /\
    Matched.invoiceId m = Invoice.invoiceId invoice /\
    0 <= Matched.confidenceScore m /\ Matched.confidenceScore m <= 100.
Proof.
  cbv zeta.
  assert (H : In {| Matched.invoiceId := "INV-1";
                    Matched.deliveryIds := ["DEL-1"%string];
                    Matched.confidenceScore := confidenceOf (varianceOf 1030 1000);
                    Matched.matchedAmount := 5000;
                    Matched.variance := varianceOf 1030 1000 |}
                 (matched sampleRun)).
  { left. vm_compute. reflexivity. }
  split; [exact H|].
  destruct (match_record_bounds [inv1; inv2] [sampleDelivery 1030] getDefaultRules _ H)
    as (invoice & Hin & Hid & _ & _ & _ & _ & _ & Hc0 & Hc1 & _).
  exists invoice. auto.
Defined.

(** *** Summary *)

(** *** Rules *)

Lemma reconcile_by_parameters rules1 rules2 :
  timeWindowMs rules1 = timeWindowMs rules2 ->
  tolerancePercent rules1 = tolerancePercent rules2 ->
  forall invoices deliveries,
    performReconciliation invoices deliveries rules1 =
    performReconciliation invoices deliveries rules2.
Proof.
  intros Hw Ht invoices deliveries.
  assert (H : forall invoice, reconcileInvoice rules1 deliveries invoice =
                              reconcileInvoice rules2 deliveries invoice).
  { intros invoice. unfold reconcileInvoice, matchingDeliveries.
    assert (Hf : forall d, inWindow rules1 invoice d = inWindow rules2 invoice d).
    { intros d. unfold inWindow. now rewrite Hw. }
    rewrite (filter_ext _ _ Hf), Ht. reflexivity. }
  unfold performReconciliation.
  assert (Hfold : forall acc,
    fold_left (fun acc invoice => pushResult acc (reconcileInvoice rules1 deliveries invoice))
      invoices acc =
    fold_left (fun acc invoice => pushResult acc (reconcileInvoice rules2 deliveries invoice))
      invoices acc).
  { induction invoices as [|i invoices IH]; intros acc; simpl; [reflexivity|].
    now rewrite H, IH. }
  now rewrite Hfold.
Qed.

Lemma find_without_contract_terms (f : ReconciliationRule -> bool) rules :
  (forall r, isContractTerms r = true -> f r = false) ->
  find f (withoutContractTerms rules) = find f rules.
Proof.
  intros Hf. induction rules as [|r rules IH]; simpl; [reflexivity|].
  destruct (isContractTerms r) eqn:E; simpl.
  - now rewrite (Hf r E).
  - destruct (f r); [reflexivity | exact IH].
Qed.

Lemma find_with_unit (f : ReconciliationRule -> bool) u rules :
  (forall r, f (withUnit u r) = f r) ->
  option_map value (find f (map (withUnit u) rules)) = option_map value (find f rules).
Proof.
  intros Hf. induction rules as [|r rules IH]; simpl; [reflexivity|].
  rewrite Hf. destruct (f r); [reflexivity | exact IH].
Qed.

(** X10.  What [performReconciliation] reads of the rules: an empty rule list
    gives the result of the default rules (7 days, 5 percent); CONTRACT_TERMS
    rules have no effect, the result is the same without them; and the unit
    of a rule is never read, so replacing every unit changes nothing. *)
Theorem rules_read invoices deliveries rules u :
  performReconciliation invoices deliveries [] =
    performReconciliation invoices deliveries getDefaultRules /\
  performReconciliation invoices deliveries (withoutContractTerms rules) =
    performReconciliation invoices deliveries rules /\
  performReconciliation invoices deliveries (map (withUnit u) rules) =
    performReconciliation invoices deliveries rules.
Proof.
  split; [|split]; apply reconcile_by_parameters.
  - reflexivity.
  - reflexivity.
  - unfold timeWindowMs. rewrite find_without_contract_terms; [reflexivity|].
    intros r. unfold isContractTerms, isTimeWindow. now destruct (type r).
  - unfold tolerancePercent. rewrite find_without_contract_terms; [reflexivity|].
    intros r. unfold isContractTerms, isToleranceBand. now destruct (type r).
  - unfold timeWindowMs.
    pose proof (find_with_unit isTimeWindow u rules (fun r => eq_refl)) as H.
    destruct (find isTimeWindow (map (withUnit u) rules)),
             (find isTimeWindow rules); simpl in H; congruence.
  - unfold tolerancePercent.
    pose proof (find_with_unit isToleranceBand u rules (fun r => eq_refl)) as H.
    destruct (find isToleranceBand (map (withUnit u) rules)),
             (find isToleranceBand rules); simpl in H; congruence.
Qed.

(** *** Line items that do not parse *)

(** X11.  An invoice whose line items do not parse, with at least one
    matching delivery, is given variance 100 and never fails the run: under a
    tolerance band below 100 it is the exception QUANTITY_VARIANCE of severity
    HIGH with the text 'Quantity variance of 100.0% exceeds tolerance'; under
    a band of 100 or more it is matched, with confidence 0. *)
Theorem unparsed_line_items rules deliveries invoice d0 :
  Invoice.lineItems invoice = None ->
  In d0 deliveries -> eligible rules invoice d0 ->
  (tolerancePercent rules < 100 ->
   reconcileInvoice rules deliveries invoice =
     inr {| Exception.invoiceId := Invoice.invoiceId invoice;
            Exception.reason := "QUANTITY_VARIANCE";
            Exception.severity := HIGH;
            Exception.recommendation :=
              "Quantity variance of 100.0% exceeds tolerance" |}) /\
  (100 <= tolerancePercent rules ->
   exists m, reconcileInvoice rules deliveries invoice = inl m /\
             Matched.variance m = 100 /\ Matched.confidenceScore m == 0).
Proof.
  intros Hli Hin Hel.
  pose proof (ReconciliationProofs.some_matching _ _ _ _ Hin Hel) as Hne.
  assert (He : expectedQuantity invoice = 0) by (unfold expectedQuantity; now rewrite Hli).
  unfold reconcileInvoice. cbv zeta. rewrite Hne, He.
  assert (Hv : forall td, varianceOf td 0 = 100) by reflexivity.
  rewrite Hv. split; intros Ht.
  - apply Qle_bool_false in Ht. rewrite Ht. reflexivity.
  - apply Qle_bool_iff in Ht. rewrite Ht. eexists. split; [reflexivity|].
    split; reflexivity.
Qed.

Lemma unparsed_line_items_witness :
  Invoice.lineItems unparsedInvoice = None /\
  In (sampleDelivery 1030) [sampleDelivery 1030] /\
  eligible getDefaultRules unparsedInvoice (sampleDelivery 1030) /\
  tolerancePercent getDefaultRules < 100 /\
  reconcileInvoice getDefaultRules [sampleDelivery 1030] unparsedInvoice =
    inr {| Exception.invoiceId := "INV-4";
           Exception.reason := "QUANTITY_VARIANCE";
           Exception.severity := HIGH;
           Exception.recommendation :=
             "Quantity variance of 100.0% exceeds tolerance" |}.
Proof.
  assert (Hin : In (sampleDelivery 1030) [sampleDelivery 1030]) by (left; reflexivity).
  assert (Hel : eligible getDefaultRules unparsedInvoice (sampleDelivery 1030)).
  { unfold eligible. split; [reflexivity|]. split; vm_compute; discriminate. }
  assert (Ht : tolerancePercent getDefaultRules < 100) by (vm_compute; reflexivity).
  split; [reflexivity|]. split; [exact Hin|]. split; [exact Hel|]. split; [exact Ht|].
  exact (proj1 (unparsed_line_items getDefaultRules [sampleDelivery 1030]
                  unparsedInvoice (sampleDelivery 1030) eq_refl Hin Hel) Ht).
Defined.

(** *** Rows after the update *)

Lemma sameInvoice_markMatched m r : sameInvoice r (markMatched m r).
Proof.
  unfold markMatched. destruct (String.eqb _ _);
    [apply ReconciliationProofs.sameInvoice_matched
    | apply ReconciliationProofs.sameInvoice_refl].
Qed.

Lemma sameInvoice_applyMatches ms : forall r, sameInvoice r (applyMatches ms r).
Proof.
  induction ms as [|m ms IH]; intros r; simpl.
  - apply ReconciliationProofs.sameInvoice_refl.
  - eapply ReconciliationProofs.sameInvoice_trans;
      [apply sameInvoice_markMatched | apply IH].
Qed.

Lemma isMatch_same ms r r' : sameInvoice r r' -> isMatch ms r' = isMatch ms r.
Proof.
  intros (_ & Hid & _). unfold isMatch. now rewrite Hid.
Qed.

Lemma applyMatches_none ms : forall r, isMatch ms r = false -> applyMatches ms r = r.
Proof.
  induction ms as [|m ms IH]; intros r H; simpl in *; [reflexivity|].
  apply orb_false_iff in H. destruct H as [H1 H2].
  unfold markMatched. rewrite H1. now apply IH.
Qed.

Lemma applyMatches_some ms : forall r,
  isMatch ms r = true ->
  exists m, In m ms /\ Matched.invoiceId m = Invoice.invoiceId r /\
            Invoice.status (applyMatches ms r) = InvoiceStatus.MATCHED /\
            Invoice.confidenceScore (applyMatches ms r) = Some (Matched.confidenceScore m) /\
            Invoice.matchedDeliveries (applyMatches ms r) = Some (Matched.deliveryIds m).
Proof.
  induction ms as [|m ms IH]; intros r H; [discriminate|].
  cbn [applyMatches fold_left]. fold (applyMatches ms (markMatched m r)).
  destruct (isMatch ms r) eqn:Erest.
  - destruct (IH (markMatched m r)) as (m' & Hin & Hid & Hrest).
    { now rewrite (isMatch_same ms r _ (sameInvoice_markMatched m r)). }
    exists m'. destruct (sameInvoice_markMatched m r) as (_ & Hid' & _).
    split; [now right|]. split; [congruence | exact Hrest].
  - unfold isMatch in H, Erest. cbn [existsb] in H. rewrite Erest, orb_false_r in H.
    fold (isMatch ms r) in Erest.
    rewrite applyMatches_none
      by now rewrite (isMatch_same ms r _ (sameInvoice_markMatched m r)).
    exists m. split; [now left|].
    unfold markMatched. rewrite H. apply String.eqb_eq in H.
    split; [now symmetry|]. simpl. auto.
Qed.

Lemma matched_loop_rows : forall (ms : list Matched.t) db n,
  exists db',
    forEach ms applyMatched (db, n) = (tt, (db', n)) /\
    invoice db' = map (applyMatches ms) (invoice db) /\
    dispute db' = dispute db /\ sameOthers db db'.
Proof.
  induction ms as [|m ms IH]; intros db n.
  - exists db. cbn. split; [reflexivity|]. split; [now rewrite map_id|].
    split; [reflexivity|]. unfold sameOthers; auto.
  - set (db1 := invoice_updateMany (Matched.invoiceId m)
                  (setInvoiceMatched (Matched.confidenceScore m) (Matched.deliveryIds m)) db).
    destruct (IH db1 n) as (db' & Hrun & Hinv & Hdis & Hoth).
    exists db'. split; [exact Hrun|]. split; [|split; [exact Hdis | exact Hoth]].
    rewrite Hinv. change (invoice db1) with (map (markMatched m) (invoice db)).
    now rewrite map_map.
Qed.

Lemma update_rows clock (ms : list Matched.t) (excs : list Exception.t) db n :
  exists db' n',
    updateInvoiceStatuses clock ms excs (db, n) = (tt, (db', n')) /\
    invoice db' = map (fun r => markExceptions excs (applyMatches ms r)) (invoice db) /\
    (exists created,
       dispute db' = dispute db ++ created /\
       List.length created = List.length (filter (willDispute db) excs)) /\
    sameOthers db db'.
Proof.
  destruct (matched_loop_rows ms db n) as (dbm & Hrun1 & Hinv1 & Hdis1 & Hoth1).
  destruct (ReconciliationProofs.exceptions_loop clock excs dbm n)
    as (db' & n' & created & Hrun2 & Hn & Hinv2 & Hdis2 & Hall & Hoth2).
  exists db', n'. split.
  { unfold updateInvoiceStatuses, bind. rewrite Hrun1. exact Hrun2. }
  split; [now rewrite Hinv2, Hinv1, map_map|]. split.
  - exists created. split; [now rewrite Hdis2, Hdis1|].
    apply Forall2_length in Hall. rewrite <- Hall.
    f_equal. apply filter_ext. intros e.
    apply (ReconciliationProofs.known_after_update db dbm (applyMatches ms));
      [apply sameInvoice_applyMatches | exact Hinv1].
  - destruct Hoth1 as (a & b & c & d), Hoth2 as (a' & b' & c' & d').
    unfold sameOthers. repeat split; congruence.
Qed.

Lemma rowAfter_holds ms excs r :
  rowAfter ms excs r (markExceptions excs (applyMatches ms r)).
Proof.
  pose proof (sameInvoice_applyMatches ms r) as Hsame.
  assert (Hex : isException excs (applyMatches ms r) = isException excs r).
  { destruct Hsame as (_ & Hid & _). unfold isException. now rewrite Hid. }
  unfold rowAfter, markExceptions. rewrite Hex.
  destruct (isException excs r) eqn:E.
  - split; [|split; [reflexivity|split; discriminate]].
    eapply ReconciliationProofs.sameInvoice_trans;
      [exact Hsame | apply ReconciliationProofs.sameInvoice_status].
  - split; [exact Hsame|]. split; [discriminate|]. split.
    + intros _ Hm. destruct (applyMatches_some ms r Hm) as (m & Hin & Hid & Hst & Hc & Hd).
      split; [exact Hst|]. exists m. auto.
    + intros _ Hm. now apply applyMatches_none.
Qed.

(** When every database call succeeds, [updateInvoiceStatuses] rewrites the
    invoice table row by row and
    keeps its rows, their order and their identity: a row an exception names
    ends PARTIALLY_MATCHED (also when a match names it too); a row named by a
    match and by no exception ends MATCHED with the confidence score and
    delivery list of a match of that invoice; every other row is
    unchanged. *)
Lemma succeeding_rows clock (ms : list Matched.t) (excs : list Exception.t) db n :
  let db' := fst (snd (updateInvoiceStatuses clock ms excs (db, n))) in
  Forall2 (rowAfter ms excs) (invoice db) (invoice db').
Proof.
  cbv zeta. destruct (update_rows clock ms excs db n) as (db' & n' & Hrun & Hinv & _).
  rewrite Hrun. cbn [fst snd]. rewrite Hinv. clear.
  induction (invoice db) as [|r rows IH]; simpl;
    [constructor | constructor; [apply rowAfter_holds | exact IH]].
Qed.

(** *** The POST handler *)

Lemma POST_run clock deliveryTable request db n :
  let invoices := filter (invoiceInScope request) (invoice db) in
  let deliveries := filter (deliveryInScope request) deliveryTable in
  let result := performReconciliation invoices deliveries (rulesOf request) in
  fst (POST clock deliveryTable request (db, n)) = result /\
  snd (POST clock deliveryTable request (db, n)) =
    snd (updateInvoiceStatuses clock (matched result) (exceptions result) (db, n)).
Proof.
  cbv zeta. unfold POST, bind, gets, ret. cbn [fst snd].
  destruct (updateInvoiceStatuses _ _ _ _). split; reflexivity.
Qed.

Lemma reconciled_named rules deliveries invoices invoice :
  In invoice invoices ->
  let r := performReconciliation invoices deliveries rules in
  isException (exceptions r) invoice = true \/ isMatch (matched r) invoice = true.
Proof.
  intros Hin r.
  destruct (ReconciliationProofs.performReconciliation_lists invoices deliveries rules)
    as [Hm He]. fold r in Hm, He.
  pose proof (ReconciliationProofs.reconcileInvoice_id rules deliveries invoice) as Hid.
  assert (Hr : In (reconcileInvoice rules deliveries invoice)
                  (map (reconcileInvoice rules deliveries) invoices))
    by now apply in_map.
  destruct (reconcileInvoice rules deliveries invoice) as [m|e].
  - right. unfold isMatch. apply existsb_exists. exists m.
    split; [rewrite Hm; now apply In_lefts|]. rewrite Hid. apply String.eqb_refl.
  - left. unfold isException. apply existsb_exists. exists e.
    split; [rewrite He; now apply In_rights|]. rewrite Hid. apply String.eqb_refl.
Qed.

Lemma NoDup_map_injective {A B : Type} (f : A -> B) (l : list A) a b :
  NoDup (map f l) -> In a l -> In b l -> f a = f b -> a = b.
Proof.
  induction l as [|x l IH]; simpl; [tauto|].
  intros Hnd Ha Hb E. inversion Hnd as [|? ? Hx Hl]; subst.
  destruct Ha as [->|Ha], Hb as [->|Hb]; auto.
  - exfalso. apply Hx. rewrite E. now apply in_map.
  - exfalso. apply Hx. rewrite <- E. now apply in_map.
Qed.

Lemma unnamed_out_of_scope rules deliveries table (f : Invoice.t -> bool) row :
  NoDup (map Invoice.invoiceId table) -> In row table -> f row = false ->
  let r := performReconciliation (filter f table) deliveries rules in
  isException (exceptions r) row = false /\ isMatch (matched r) row = false.
Proof.
  intros Hnd Hin Hf r.
  assert (Hfresh : forall i, In i (filter f table) ->
                             Invoice.invoiceId row <> Invoice.invoiceId i).
  { intros i Hi E. apply filter_In in Hi. destruct Hi as [Hi Hfi].
    assert (row = i) by (eapply NoDup_map_injective; eauto). subst. congruence. }
  split.
  - destruct (isException (exceptions r) row) eqn:E; [|reflexivity].
    unfold isException in E. apply existsb_exists in E. destruct E as (e & He & Hid).
    apply exception_origin in He. destruct He as (i & Hi & Hr).
    pose proof (ReconciliationProofs.reconcileInvoice_id rules deliveries i) as Hidi.
    rewrite Hr in Hidi. apply String.eqb_eq in Hid.
    exfalso. apply (Hfresh i Hi). congruence.
  - destruct (isMatch (matched r) row) eqn:E; [|reflexivity].
    unfold isMatch in E. apply existsb_exists in E. destruct E as (m & Hm & Hid).
    apply matched_origin in Hm. destruct Hm as (i & Hi & Hr).
    pose proof (ReconciliationProofs.reconcileInvoice_id rules deliveries i) as Hidi.
    rewrite Hr in Hidi. apply String.eqb_eq in Hid.
    exfalso. apply (Hfresh i Hi). congruence.
Qed.

Lemma Forall2_map_r_In {A B : Type} (R : A -> B -> Prop) (g : A -> B) (l : list A) :
  (forall a, In a l -> R a (g a)) -> Forall2 R l (map g l).
Proof.
  induction l as [|a l IH]; intros H; simpl; constructor.
  - apply H. now left.
  - apply IH. intros b Hb. apply H. now right.
Qed.

(** When every database call succeeds, after the POST handler no invoice in scope (period within the
    requested one, status PENDING or PARTIALLY_MATCHED) is left PENDING: each
    ends MATCHED or PARTIALLY_MATCHED, and the table keeps its rows.  When
    invoice ids are distinct, the rows out of scope (other periods, or
    MATCHED, DISPUTED, PAID, PARTIALLY_PAID) are unchanged. *)
Lemma succeeding_post clock deliveryTable request db n :
  let db' := fst (snd (POST clock deliveryTable request (db, n))) in
  Forall2 (fun row row' =>
             sameInvoice row row' /\
             (invoiceInScope request row = true ->
              Invoice.status row' = InvoiceStatus.MATCHED \/
              Invoice.status row' = InvoiceStatus.PARTIALLY_MATCHED))
          (invoice db) (invoice db') /\
  (NoDup (map Invoice.invoiceId (invoice db)) ->
   Forall2 (fun row row' => invoiceInScope request row = false -> row' = row)
           (invoice db) (invoice db')).
Proof.
  cbv zeta. destruct (POST_run clock deliveryTable request db n) as [_ Hs].
  rewrite Hs. clear Hs.
  set (result := performReconciliation (filter (invoiceInScope request) (invoice db))
                   (filter (deliveryInScope request) deliveryTable) (rulesOf request)).
  destruct (update_rows clock (matched result) (exceptions result) db n)
    as (db' & n' & Hrun & Hinv & _).
  rewrite Hrun. cbn [fst snd]. rewrite Hinv. split.
  - apply Forall2_map_r_In. intros row Hin.
    destruct (rowAfter_holds (matched result) (exceptions result) row)
      as (Hsame & Hex & Hma & _).
    split; [exact Hsame|]. intros Hscope.
    assert (Hrow : In row (filter (invoiceInScope request) (invoice db)))
      by (apply filter_In; auto).
    destruct (isException (exceptions result) row) eqn:E.
    + right. now apply Hex.
    + left. destruct (reconciled_named (rulesOf request)
                        (filter (deliveryInScope request) deliveryTable) _ row Hrow)
        as [H|H]; [fold result in H; congruence|].
      fold result in H. now apply Hma.
  - intros Hnd. apply Forall2_map_r_In. intros row Hin Hscope.
    destruct (unnamed_out_of_scope (rulesOf request)
                (filter (deliveryInScope request) deliveryTable)
                (invoice db) (invoiceInScope request) row Hnd Hin Hscope) as [He Hm].
    fold result in He, Hm.
    destruct (rowAfter_holds (matched result) (exceptions result) row)
      as (_ & _ & _ & Hsame).
    now apply Hsame.
Qed.

Lemma match_deliveries rules deliveries invoice m :
  reconcileInvoice rules deliveries invoice = inl m ->
  Matched.deliveryIds m =
    map Delivery.deliveryId (matchingDeliveries rules deliveries invoice).
Proof.
  unfold reconcileInvoice. cbv zeta.
  destruct (Nat.eqb _ 0); [discriminate|].
  destruct (Qle_bool _ _); [|discriminate].
  intros H. injection H as <-. reflexivity.
Qed.

(** X15.  The POST handler reconciles against the deliveries of the
    requested period only: every delivery id in a match it returns is the id
    of a delivery whose timestamp lies within the request's period, so a
    delivery outside that period is never matched, even when it falls in an
    invoice's time window. *)
Theorem post_deliveries_in_period clock deliveryTable request db n m deliveryId :
  let result := fst (POST clock deliveryTable request (db, n)) in
  In m (matched result) -> In deliveryId (Matched.deliveryIds m) ->
  exists d,
    In d deliveryTable /\ Delivery.deliveryId d = deliveryId /\
    (periodStart request <= Delivery.timestamp d <= periodEnd request)%Z.
Proof.
  cbv zeta. destruct (POST_run clock deliveryTable request db n) as [Hr _].
  rewrite Hr. clear Hr. intros Hm Hid.
  apply matched_origin in Hm. destruct Hm as (invoice & _ & Hrec).
  rewrite (match_deliveries _ _ _ _ Hrec) in Hid.
  apply in_map_iff in Hid. destruct Hid as (d & <- & Hd).
  unfold matchingDeliveries in Hd. apply filter_In in Hd. destruct Hd as [Hd _].
  apply filter_In in Hd. destruct Hd as [Hd Hscope].
  exists d. split; [exact Hd|]. split; [reflexivity|].
  unfold deliveryInScope in Hscope. apply andb_true_iff in Hscope.
  destruct Hscope as [H1 H2]. apply Z.leb_le in H1, H2. lia.
Qed.

Lemma post_deliveries_in_period_witness :
  let table := [sampleDelivery 1030; lateDelivery] in
  let db := Reconciliation.sampleDb [inv1; inv2] in
  let result := fst (POST sampleClock table dayRequest (db, O)) in
  let m := {| Matched.invoiceId := "INV-1"; Matched.deliveryIds := ["DEL-1"%string];
              Matched.confidenceScore := confidenceOf (varianceOf 1030 1000);
              Matched.matchedAmount := 5000;
              Matched.variance := varianceOf 1030 1000 |} in
  In m (matched result) /\ In "DEL-1"%string (Matched.deliveryIds m) /\
  exists d,
    In d table /\ Delivery.deliveryId d = "DEL-1"%string /\
    (periodStart dayRequest <= Delivery.timestamp d <= periodEnd dayRequest)%Z.
Proof.
  cbv zeta.
  match goal with |- In ?x _ /\ _ => set (m := x) end.
  assert (Hm : In m (matched (fst (POST sampleClock [sampleDelivery 1030; lateDelivery]
                                      dayRequest
                                      (Reconciliation.sampleDb [inv1; inv2], O))))).
  { left. vm_compute. reflexivity. }
  assert (Hd : In "DEL-1"%string (Matched.deliveryIds m)) by (left; reflexivity).
  split; [exact Hm|]. split; [exact Hd|].
  exact (post_deliveries_in_period sampleClock [sampleDelivery 1030; lateDelivery]
           dayRequest (Reconciliation.sampleDb [inv1; inv2]) O m "DEL-1"%string Hm Hd).
Defined.

End ReconciliationExtra.

(** ** Smart-contract route: quorum, ledger log and lookups *)

Module ChainProofs.

Import Ledger Blockchain Chain.

(** *** Quorum *)

Lemma hasQuorum_percent sd :
  (List.length (approvers sd) < 1500)%nat ->
  (hasQuorum sd = true <->
   (67 * Z.of_nat (List.length (approvers sd))
    <= 100 * Z.of_nat (List.length (approvals sd)))%Z).
Proof.
  intros Hn.
  pose proof (SettlementProofs.requiredApprovals_proportion sd) as H. cbv zeta in H.
  specialize (H Hn). unfold hasQuorum. rewrite Z.leb_le. lia.
Qed.

(** X16.  The smart-contract route's [approveSettlement] succeeds exactly
    when the consensus draw is above 0.05 and the approvals number at least
    [Math.ceil(approvers.length * 0.67)], computed in doubles.  For a request
    that lists fewer than 1500 approvers that is: the approvals number at
    least 67 percent of the approvers ([67 * approvers <= 100 * approvals]);
    with 1500 approvers the product rounds to 1005.0000000000001 and 1006
    approvals are asked for, so that 1005 do not pass.  A request that lists
    no approver passes with no approval at all. *)
Theorem quorum_is_two_thirds env sd db chain :
  let r := approveSettlement env sd (db, chain) in
  (success (fst r) = true <->
   5 # 100 < consensusDraw env /\
   (requiredApprovals sd <= Z.of_nat (List.length (approvals sd)))%Z) /\
  ((List.length (approvers sd) < 1500)%nat ->
   (success (fst r) = true <->
    5 # 100 < consensusDraw env /\
    (67 * Z.of_nat (List.length (approvers sd))
     <= 100 * Z.of_nat (List.length (approvals sd)))%Z)) /\
  (List.length (approvers sd) = 1500%nat ->
   List.length (approvals sd) = 1005%nat -> success (fst r) = false) /\
  (approvers sd = [] -> 5 # 100 < consensusDraw env -> success (fst r) = true).
Proof.
  cbv zeta. destruct (SettlementProofs.approve_run env sd db chain) as [Hs _].
  rewrite Hs. unfold simulateConsensus.
  split; [|split; [|split]].
  - rewrite andb_true_iff, Qltb_true. unfold hasQuorum. rewrite Z.leb_le.
    reflexivity.
  - intros Hn. rewrite andb_true_iff, Qltb_true, (hasQuorum_percent sd Hn).
    reflexivity.
  - intros Hn Ha. unfold hasQuorum.
    rewrite (SettlementProofs.requiredApprovals_1500 sd Hn), Ha.
    apply andb_false_r.
  - intros E Hd. rewrite andb_true_iff, Qltb_true, hasQuorum_percent
      by (rewrite E; cbn; lia).
    rewrite E. cbn [List.length]. split; [exact Hd | lia].
Qed.

Lemma quorum_is_two_thirds_witness :
  (List.length (approvers noApprovers) < 1500)%nat /\
  approvers noApprovers = [] /\ 5 # 100 < consensusDraw sampleEnv /\
  (67 * Z.of_nat (List.length (approvers noApprovers))
   <= 100 * Z.of_nat (List.length (approvals noApprovers)))%Z /\
  success (fst (approveSettlement sampleEnv noApprovers
                  (sampleDb SettlementStatus.COMPUTED, genesis))) = true.
Proof.
  assert (Hd : 5 # 100 < consensusDraw sampleEnv) by (vm_compute; reflexivity).
  assert (Hn : (List.length (approvers noApprovers) < 1500)%nat) by (cbn; lia).
  pose proof (quorum_is_two_thirds sampleEnv noApprovers
                (sampleDb SettlementStatus.COMPUTED) genesis) as T.
  cbv zeta in T. destruct T as (_ & T2 & _ & T4).
  split; [exact Hn|]. split; [reflexivity|]. split; [exact Hd|].
  split; [exact (proj2 (proj1 (T2 Hn) (T4 eq_refl Hd)))|].
  exact (T4 eq_refl Hd).
Defined.

(** *** The transaction of a call *)

Lemma approve_tx env sd db chain :
  let r := approveSettlement env sd (db, chain) in
  blockNumber (transaction (fst r)) = S (currentBlock chain) /\
  hash (transaction (fst r)) = sha256 env /\
  status (transaction (fst r)) =
    if success (fst r) then TxStatus.CONFIRMED else TxStatus.FAILED.
Proof.
  cbv zeta. unfold approveSettlement, bind, gets, ret, simulateConsensus,
    commit, Blockchain.onDb, modify. cbn [fst snd].
  destruct (Qltb (5 # 100) (consensusDraw env) && hasQuorum sd); cbn; auto.
Qed.

Lemma execute_tx env ex db chain :
  let r := executeSettlement env ex (db, chain) in
  blockNumber (transaction (fst r)) = S (currentBlock chain) /\
  hash (transaction (fst r)) = sha256 env /\
  status (transaction (fst r)) =
    if success (fst r) then TxStatus.CONFIRMED else TxStatus.FAILED.
Proof.
  cbv zeta. unfold executeSettlement, bind, gets, ret, simulateConsensus,
    commit, Blockchain.onDb, modify. cbn [fst snd].
  destruct (Qltb (5 # 100) (consensusDraw env)).
  - rewrite SettlementProofs.createPayments_run. cbn. auto.
  - cbn. auto.
Qed.

(** *** Calls append or change nothing *)

(** X17.  A call of [approveSettlement] or [executeSettlement] that reports
    failure changes neither the tables nor the ledger log.  A call that
    reports success appends exactly its own transaction to the log, CONFIRMED
    and numbered with the next block, and raises the block height by one;
    the transactions already logged stay in place. *)
Theorem calls_append_only env sd ex db chain :
  let a := approveSettlement env sd (db, chain) in
  let e := executeSettlement env ex (db, chain) in
  (success (fst a) = false -> snd a = (db, chain)) /\
  (success (fst e) = false -> snd e = (db, chain)) /\
  (success (fst a) = true ->
   transactions (snd (snd a)) = transactions chain ++ [transaction (fst a)] /\
   currentBlock (snd (snd a)) = S (currentBlock chain) /\
   blockNumber (transaction (fst a)) = S (currentBlock chain) /\
   status (transaction (fst a)) = TxStatus.CONFIRMED) /\
  (success (fst e) = true ->
   transactions (snd (snd e)) = transactions chain ++ [transaction (fst e)] /\
   currentBlock (snd (snd e)) = S (currentBlock chain) /\
   blockNumber (transaction (fst e)) = S (currentBlock chain) /\
   status (transaction (fst e)) = TxStatus.CONFIRMED).
Proof.
  cbv zeta.
  destruct (SettlementProofs.approve_run env sd db chain) as [Ha Hsa].
  destruct (SettlementProofs.execute_run env ex db chain) as [He Hse].
  rewrite Hsa, Hse, Ha, He.
  split; [intros H; now rewrite H|]. split; [intros H; now rewrite H|].
  destruct (approve_tx env sd db chain) as (Hba & _ & Hsta).
  destruct (execute_tx env ex db chain) as (Hbe & _ & Hste).
  cbv zeta in *. rewrite Ha in Hsta. rewrite He in Hste.
  split; intros H; rewrite H in *; cbn [fst snd transactions currentBlock]; auto.
Qed.

Lemma calls_append_only_witness :
  let a := approveSettlement sampleEnv repeatedApproval
             (sampleDb SettlementStatus.COMPUTED, genesis) in
  success (fst a) = true /\
  transactions (snd (snd a)) = transactions genesis ++ [transaction (fst a)] /\
  currentBlock (snd (snd a)) = S (currentBlock genesis).
Proof.
  cbv zeta.
  assert (H : success (fst (approveSettlement sampleEnv repeatedApproval
                              (sampleDb SettlementStatus.COMPUTED, genesis))) = true)
    by (vm_compute; reflexivity).
  split; [exact H|].
  destruct (proj1 (proj2 (proj2 (calls_append_only sampleEnv repeatedApproval
                                   sampleExecution
                                   (sampleDb SettlementStatus.COMPUTED) genesis))) H)
    as (Ht & Hb & _).
  split; [exact Ht | exact Hb].
Defined.

(** *** Payments of an execution *)

Lemma paymentsFrom_pays env ex : forall legs i,
  Forall2 (paysLeg ex) legs (paymentsFrom env ex i legs).
Proof.
  induction legs as [|leg legs IH]; intros i; simpl; constructor.
  - unfold paysLeg. simpl. repeat split; reflexivity.
  - apply IH.
Qed.

Lemma executed_rows env ex (rows : list SettlementBatch.t) :
  Forall2 (executedRow env ex) rows
    (map (fun r => if String.eqb (SettlementBatch.batchId r) (ex_batchId ex)
                   then setBatchStatus SettlementStatus.EXECUTED
                          (SettlementBatch.smartContractTxId r)
                          (Some (executedTime env)) r
                   else r) rows).
Proof.
  induction rows as [|b rows IH]; simpl; constructor; [|exact IH].
  unfold executedRow. destruct (String.eqb _ _); simpl; auto.
Qed.

(** X18.  An [executeSettlement] call that reaches consensus appends one
    COMPLETED payment per leg of the request, in order, with the leg's payer,
    payee, amount, currency and bank reference; each payment's
    [settlementBatchId] is the request's [batchIdId] property, not its
    [batchId].  Every batch row with the request's batch id becomes EXECUTED
    with the execution date, whatever its status was, and keeps its total;
    other batches, invoices, disputes, the audit log and users are
    unchanged. *)
Theorem execution_effects env ex db chain :
  let r := executeSettlement env ex (db, chain) in
  let db' := fst (snd r) in
  success (fst r) = true ->
  (exists created,
     payment db' = payment db ++ created /\
     Forall2 (paysLeg ex) (settlementLegs ex) created) /\
  Forall2 (executedRow env ex) (settlementBatch db) (settlementBatch db') /\
  invoice db' = invoice db /\ dispute db' = dispute db /\
  auditLog db' = auditLog db /\ user db' = user db.
Proof.
  cbv zeta. destruct (SettlementProofs.execute_run env ex db chain) as [He Hs].
  rewrite Hs, He. intros H. rewrite H. cbn [fst snd].
  split; [|split].
  - exists (paymentsFrom env ex 0 (settlementLegs ex)).
    split; [reflexivity | apply paymentsFrom_pays].
  - apply executed_rows.
  - cbn. auto.
Qed.

Lemma execution_effects_witness :
  let r := executeSettlement sampleEnv sampleExecution
             (sampleDb SettlementStatus.APPROVED, genesis) in
  success (fst r) = true /\
  exists created,
    payment (fst (snd r)) = payment (sampleDb SettlementStatus.APPROVED) ++ created /\
    Forall2 (paysLeg sampleExecution) (settlementLegs sampleExecution) created.
Proof.
  cbv zeta.
  assert (H : success (fst (executeSettlement sampleEnv sampleExecution
                              (sampleDb SettlementStatus.APPROVED, genesis))) = true)
    by (vm_compute; reflexivity).
  split; [exact H|].
  exact (proj1 (execution_effects sampleEnv sampleExecution
                  (sampleDb SettlementStatus.APPROVED) genesis H)).
Defined.

(** *** The ledger log *)

Lemma wellFormed_push chain tx :
  wellFormed chain ->
  blockNumber tx = S (currentBlock chain) -> status tx = TxStatus.CONFIRMED ->
  wellFormed {| transactions := transactions chain ++ [tx];
                currentBlock := S (currentBlock chain) |}.
Proof.
  intros (Hb & Hn & Hc) Hbn Hst. unfold wellFormed. cbn [transactions currentBlock].
  rewrite length_app, map_app, Hn. cbn [List.length map].
  split; [lia|]. split.
  - rewrite Nat.add_1_r, seq_S. simpl. now rewrite Hbn, Hb.
  - apply Forall_app. split; [assumption|]. constructor; [assumption|constructor].
Qed.

Lemma reachable_wellFormed chain : reachable chain -> wellFormed chain.
Proof.
  induction 1 as [|chain db env sd _ IH|chain db env ex _ IH].
  - repeat split. constructor.
  - destruct (SettlementProofs.approve_run env sd db chain) as [Hs Hr]. cbv zeta in *.
    rewrite Hr.
    destruct (simulateConsensus env _ && hasQuorum sd) eqn:E; [|exact IH].
    destruct (approve_tx env sd db chain) as (Hbn & _ & Hst). cbv zeta in *.
    rewrite Hs in Hst.
    cbn [snd]. apply wellFormed_push; [exact IH | exact Hbn | exact Hst].
  - destruct (SettlementProofs.execute_run env ex db chain) as [Hs Hr]. cbv zeta in *.
    rewrite Hr.
    destruct (simulateConsensus env _) eqn:E; [|exact IH].
    destruct (execute_tx env ex db chain) as (Hbn & _ & Hst). cbv zeta in *.
    rewrite Hs in Hst.
    cbn [snd]. apply wellFormed_push; [exact IH | exact Hbn | exact Hst].
Qed.

Lemma filter_all {A : Type} (f : A -> bool) (l : list A) :
  Forall (fun x => f x = true) l -> filter f l = l.
Proof.
  induction 1 as [|x l Hx _ IH]; simpl; [reflexivity|]. now rewrite Hx, IH.
Qed.

Lemma filter_none {A : Type} (f : A -> bool) (l : list A) :
  Forall (fun x => f x = false) l -> filter f l = [].
Proof.
  induction 1 as [|x l Hx _ IH]; simpl; [reflexivity|]. now rewrite Hx, IH.
Qed.

(** *** Looking a transaction up *)

Lemma find_fresh_last (id : string) (txs : list SmartContractTransaction) tx :
  Forall (fun t => txId t <> id) txs -> txId tx = id ->
  find (fun t => String.eqb (txId t) id) (txs ++ [tx]) = Some tx.
Proof.
  intros Hfresh Hid. induction Hfresh as [|t txs Ht _ IH]; simpl.
  - rewrite Hid, String.eqb_refl. reflexivity.
  - apply String.eqb_neq in Ht. rewrite Ht. exact IH.
Qed.

Lemma lookup_after_push chain tx digest now wrong :
  Forall (fun t => txId t <> txId tx) (transactions chain) ->
  wrong <> hash tx ->
  let chain' := {| transactions := transactions chain ++ [tx];
                   currentBlock := S (currentBlock chain) |} in
  getTransaction (txId tx) chain' = TransactionFound tx /\
  verifyProof digest now
    {| pd_txId := txId tx; merkleProof := ""; expectedHash := hash tx |} chain'
    = ProofChecked true (Some tx) ("0x" ++ digest) now /\
  verifyProof digest now
    {| pd_txId := txId tx; merkleProof := ""; expectedHash := wrong |} chain'
    = ProofChecked false None ("0x" ++ digest) now.
Proof.
  intros Hfresh Hwrong chain'.
  assert (Hfind : findTransaction (txId tx) chain' = Some tx).
  { unfold findTransaction, chain'. cbn [transactions]. now apply find_fresh_last. }
  unfold getTransaction, verifyProof. cbn [pd_txId expectedHash]. rewrite Hfind.
  rewrite String.eqb_refl.
  assert (E : String.eqb (hash tx) wrong = false).
  { apply String.eqb_neq. congruence. }
  rewrite E. auto.
Qed.

(** X20.  Round trip of the ledger log.  After a successful
    [approveSettlement] or [executeSettlement] whose transaction id is not
    yet in the log, [getTransaction] returns that transaction for its id, and
    [verifyProof] accepts it with the digest of the request as expected hash
    and returns it, and rejects any other expected hash without returning the
    transaction. *)
Theorem recorded_transaction_found env sd ex db chain digest now wrong :
  wrong <> sha256 env ->
  (let r := approveSettlement env sd (db, chain) in
   let tx := transaction (fst r) in
   success (fst r) = true ->
   Forall (fun t => txId t <> txId tx) (transactions chain) ->
   getTransaction (txId tx) (snd (snd r)) = TransactionFound tx /\
   verifyProof digest now
     {| pd_txId := txId tx; merkleProof := ""; expectedHash := sha256 env |}
     (snd (snd r))
     = ProofChecked true (Some tx) ("0x" ++ digest) now /\
   verifyProof digest now
     {| pd_txId := txId tx; merkleProof := ""; expectedHash := wrong |}
     (snd (snd r))
     = ProofChecked false None ("0x" ++ digest) now) /\
  (let r := executeSettlement env ex (db, chain) in
   let tx := transaction (fst r) in
   success (fst r) = true ->
   Forall (fun t => txId t <> txId tx) (transactions chain) ->
   getTransaction (txId tx) (snd (snd r)) = TransactionFound tx /\
   verifyProof digest now
     {| pd_txId := txId tx; merkleProof := ""; expectedHash := sha256 env |}
     (snd (snd r))
     = ProofChecked true (Some tx) ("0x" ++ digest) now /\
   verifyProof digest now
     {| pd_txId := txId tx; merkleProof := ""; expectedHash := wrong |}
     (snd (snd r))
     = ProofChecked false None ("0x" ++ digest) now).
Proof.
  intros Hwrong. split; cbv zeta; intros Hok Hfresh.
  - destruct (SettlementProofs.approve_run env sd db chain) as [Hs Hr].
    destruct (approve_tx env sd db chain) as (_ & Hh & _). cbv zeta in *.
    rewrite Hr. rewrite Hs in Hok. rewrite Hok. cbn [snd]. rewrite <- Hh.
    apply lookup_after_push; [exact Hfresh | congruence].
  - destruct (SettlementProofs.execute_run env ex db chain) as [Hs Hr].
    destruct (execute_tx env ex db chain) as (_ & Hh & _). cbv zeta in *.
    rewrite Hr. rewrite Hs in Hok. rewrite Hok. cbn [snd]. rewrite <- Hh.
    apply lookup_after_push; [exact Hfresh | congruence].
Qed.

Lemma recorded_transaction_found_witness :
  let r := approveSettlement sampleEnv repeatedApproval
             (sampleDb SettlementStatus.COMPUTED, genesis) in
  "00"%string <> sha256 sampleEnv /\ success (fst r) = true /\
  Forall (fun t => txId t <> txId (transaction (fst r))) (transactions genesis) /\
  getTransaction (txId (transaction (fst r))) (snd (snd r))
    = TransactionFound (transaction (fst r)).
Proof.
  cbv zeta.
  assert (Hw : "00"%string <> sha256 sampleEnv) by discriminate.
  assert (H : success (fst (approveSettlement sampleEnv repeatedApproval
                              (sampleDb SettlementStatus.COMPUTED, genesis))) = true)
    by (vm_compute; reflexivity).
  assert (Hf : Forall (fun t => txId t <>
                         txId (transaction (fst (approveSettlement sampleEnv
                           repeatedApproval
                           (sampleDb SettlementStatus.COMPUTED, genesis)))))
                      (transactions genesis)) by constructor.
  split; [exact Hw|]. split; [exact H|]. split; [exact Hf|].
  exact (proj1 (proj1 (recorded_transaction_found sampleEnv repeatedApproval
                         sampleExecution (sampleDb SettlementStatus.COMPUTED) genesis
                         "d1" 1700000000500 "00" Hw) H Hf)).
Defined.

(** X21.  For a transaction id that no logged transaction carries,
    [getTransaction] answers 404 'Transaction not found' and [verifyProof]
    reports the transaction as not found, whatever hash is expected. *)
Theorem unknown_transaction chain digest now id hash_ :
  Forall (fun t => txId t <> id) (transactions chain) ->
  getTransaction id chain = TransactionMissing "Transaction not found" 404 /\
  verifyProof digest now
    {| pd_txId := id; merkleProof := ""; expectedHash := hash_ |} chain
    = ProofUnknown "Transaction not found".
Proof.
  intros Hfresh.
  assert (Hfind : findTransaction id chain = None).
  { unfold findTransaction. induction Hfresh as [|t txs Ht _ IH]; simpl; [reflexivity|].
    apply String.eqb_neq in Ht. now rewrite Ht. }
  unfold getTransaction, verifyProof. cbn [pd_txId]. now rewrite Hfind.
Qed.

Lemma unknown_transaction_witness :
  Forall (fun t => txId t <> "TX_NONE"%string) (transactions genesis) /\
  getTransaction "TX_NONE" genesis = TransactionMissing "Transaction not found" 404.
Proof.
  assert (H : Forall (fun t => txId t <> "TX_NONE"%string) (transactions genesis))
    by constructor.
  split; [exact H|].
  exact (proj1 (unknown_transaction genesis "d1" 1700000000500 "TX_NONE" "00" H)).
Defined.

End ChainProofs.

(** ** Treasury route: approval, execution, priority and risk *)

Module TreasuryProofs.

Import Ledger Treasury TreasuryDesk.

(** *** Approval *)

Lemma updateMany_rows batchId data d (R : SettlementBatch.t -> SettlementBatch.t -> Prop) :
  (forall b, String.eqb (SettlementBatch.batchId b) batchId = true -> R b (data b)) ->
  (forall b, String.eqb (SettlementBatch.batchId b) batchId = false -> R b b) ->
  Forall2 R (settlementBatch d) (settlementBatch (settlementBatch_updateMany batchId data d)).
Proof.
  intros Hy Hn. unfold settlementBatch_updateMany, with_settlementBatch. cbn.
  induction (settlementBatch d) as [|b bs IH]; cbn; constructor; auto.
  destruct (String.eqb (SettlementBatch.batchId b) batchId) eqn:E; auto.
Qed.

(** X22.  Treasury approval, rejections: whatever the helpers do, a request
    by a user who is unknown or whose role is neither TREASURY nor MINISTER
    is answered 'Insufficient authority' (403), and a request by an
    authorised user whose approval the helpers report as existing is
    answered 'Already approved' (400); in both cases the database is left
    as it was. *)
Theorem approval_rejections h data db :
  (forall u, user_findUnique (ap_userId data) db = Some u ->
             User.role u <> "TREASURY"%string /\ User.role u <> "MINISTER"%string) \/
  ((exists u, user_findUnique (ap_userId data) db = Some u /\
              (User.role u = "TREASURY"%string \/ User.role u = "MINISTER"%string)) /\
   checkExistingApproval h (ap_batchId data) (ap_userId data) db = true) ->
  approveSettlement h data db =
  (if hasAuthority (user_findUnique (ap_userId data) db)
   then Error "Already approved" 400
   else Error "Insufficient authority" 403, db).
Proof.
  intros [Hno | [[u [Hu Hrole]] Hex]].
  - assert (Ha : hasAuthority (user_findUnique (ap_userId data) db) = false).
    { destruct (user_findUnique (ap_userId data) db) as [u|] eqn:E; [|reflexivity].
      destruct (Hno u eq_refl) as [H1 H2]. cbn.
      apply String.eqb_neq in H1, H2. now rewrite H1, H2. }
    unfold approveSettlement, bind, gets, ret. now rewrite Ha.
  - assert (Ha : hasAuthority (user_findUnique (ap_userId data) db) = true).
    { rewrite Hu. destruct u as [uid urole]. cbn in Hrole |- *.
      destruct Hrole as [-> | ->]; reflexivity. }
    unfold approveSettlement, bind, gets, ret. rewrite Ha. cbn [negb fst snd].
    now rewrite Hex.
Qed.

Lemma approval_rejections_witness :
  let db := Blockchain.sampleDb SettlementStatus.COMPUTED in
  approveSettlement alreadyApproved (approvalBy "u-moe" "MoE" "MINISTER") db
  = (Error "Already approved" 400, db) /\
  approveSettlement stubs (approvalBy "u-ecg" "ECG" "MINISTER") db
  = (Error "Insufficient authority" 403, db).
Proof.
  intros db. split.
  - apply (approval_rejections alreadyApproved (approvalBy "u-moe" "MoE" "MINISTER") db).
    right. split; [|reflexivity].
    eexists. split; [reflexivity|]. right. reflexivity.
  - apply (approval_rejections stubs (approvalBy "u-ecg" "ECG" "MINISTER") db).
    left. intros u Hu. discriminate Hu.
Defined.

(** X23.  Treasury approval, quorum: for an authorised user with no earlier
    approval, and helpers that leave the batch table alone, the answer
    carries the number of approvals listed once the new one is recorded and
    the fixed requirement of 3; quorum is reported exactly when that number
    is at least 3.  Below 3 no batch row changes; from 3 on the rows with
    the batch id become APPROVED, whatever their status was, and every
    other row is untouched. *)
Theorem approval_quorum h data db :
  keepsBatches h ->
  hasAuthority (user_findUnique (ap_userId data) db) = true ->
  checkExistingApproval h (ap_batchId data) (ap_userId data) db = false ->
  let n := List.length (approvalsAfter h data db) in
  let r := approveSettlement h data db in
  fst r = Approved (Nat.leb 3 n) n 3 /\
  ((n < 3)%nat -> settlementBatch (snd r) = settlementBatch db) /\
  ((3 <= n)%nat ->
   Forall2 (treasuryApprovedRow (ap_batchId data))
           (settlementBatch db) (settlementBatch (snd r))).
Proof.
  intros [Hrec [Htrig _]] Ha Hex n r. subst n r.
  unfold approveSettlement, bind, gets, ret, modify. rewrite Ha. cbn [negb fst snd].
  rewrite Hex. cbn [fst snd].
  fold (approvalsAfter h data db). unfold totalRequiredApprovers.
  set (n := List.length (approvalsAfter h data db)).
  destruct (Nat.leb 3 n) eqn:E; cbn [fst snd].
  - split; [reflexivity|]. split.
    + intros Hlt. apply Nat.leb_le in E. lia.
    + intros _. rewrite Htrig.
      set (d1 := recordApproval h _ _ _ _ _ db).
      rewrite <- (Hrec (ap_batchId data) (ap_userId data) (ap_userName data)
                    (ap_role data) (ap_signature data) db). fold d1.
      apply updateMany_rows.
      * intros b Hb. unfold treasuryApprovedRow. rewrite Hb. cbn. auto.
      * intros b Hb. unfold treasuryApprovedRow. now rewrite Hb.
  - split; [reflexivity|]. split.
    + intros _. apply Hrec.
    + intros Hge. apply Nat.leb_gt in E. lia.
Qed.

Lemma stubs_keepsBatches : keepsBatches stubs.
Proof. unfold keepsBatches. cbn. repeat split. Qed.

Lemma failingLeg_keepsBatches : keepsBatches failingLeg.
Proof. unfold keepsBatches. cbn. repeat split. Qed.

Lemma approval_quorum_witness :
  let data := approvalBy "u-cagd" "CAGD" "TREASURY" in
  let db := Blockchain.sampleDb SettlementStatus.COMPUTED in
  fst (approveSettlement stubs data db) = Approved false 0 3 /\
  settlementBatch (snd (approveSettlement stubs data db)) = settlementBatch db.
Proof.
  intros data db.
  destruct (approval_quorum stubs data db stubs_keepsBatches eq_refl eq_refl)
    as [H1 [H2 _]].
  split; [exact H1|]. apply H2. cbn. lia.
Defined.

(** *** Execution *)

Lemma executeLegs_batches h batchId legs d :
  keepsBatches h ->
  settlementBatch (snd (executeLegs h batchId legs d)) = settlementBatch d /\
  List.length (fst (executeLegs h batchId legs d)) = List.length legs.
Proof.
  intros [_ [_ [_ [Hleg _]]]]. revert d.
  induction legs as [|leg legs IH]; intros d; cbn; [split; reflexivity|].
  unfold bind, ret.
  destruct (executeSettlementLeg h leg batchId d) as [r d1] eqn:E.
  specialize (IH d1).
  destruct (executeLegs h batchId legs d1) as [rs d2] eqn:E2. cbn in *.
  destruct IH as [IH1 IH2]. split; [|now rewrite IH2].
  rewrite IH1. specialize (Hleg leg batchId d). now rewrite E in Hleg.
Qed.

(** X24.  Treasury execution, effect on the batch table: with helpers that
    leave the batch table alone, a call answers success only for a batch
    that was APPROVED, and then the rows with the batch id are EXECUTED
    with the execution time and every other row is untouched.  In every
    other case, refusal or a leg that failed, the batch table is exactly as
    before: a partly executed batch stays APPROVED and is not marked
    FAILED.  The answer lists one result per leg. *)
Theorem execution_outcome h now batchId db :
  keepsBatches h ->
  let r := executeSettlement h now batchId db in
  match fst r with
  | Executed true _ results _ executed total =>
      isApproved (settlementBatch_findUnique batchId db) = true /\
      Forall (fun ok => ok = true) results /\
      executed = total /\
      Forall2 (treasuryExecutedRow now batchId)
              (settlementBatch db) (settlementBatch (snd r))
  | Executed false _ results _ executed total =>
      List.length results = total /\ (executed < total)%nat /\
      settlementBatch (snd r) = settlementBatch db
  | Error _ _ => settlementBatch (snd r) = settlementBatch db
  | Approved _ _ _ => False
  end.
Proof.
  intros Hk r. subst r.
  pose proof Hk as [_ [_ [Hres [_ [Htrig [Hrel Hroll]]]]]].
  unfold executeSettlement, bind, gets, ret, modify.
  destruct (isApproved (settlementBatch_findUnique batchId db)) eqn:Ha;
    cbn [negb fst snd]; [|reflexivity].
  set (legs := generateSettlementLegs h _).
  set (rq := Build_ReserveRequest _ _ _ _).
  pose proof (Hres rq db) as Hr.
  destruct (reserveFunds h rq db) as [ok d1] eqn:E1. cbn in Hr.
  destruct ok; cbn [negb fst snd]; [|exact Hr].
  destruct (executeLegs_batches h batchId legs d1 Hk) as [Hb Hlen].
  destruct (executeLegs h batchId legs d1) as [results d2] eqn:E2. cbn in Hb, Hlen.
  destruct (forallb (fun r => r) results) eqn:Hall; cbn [fst snd].
  - split; [reflexivity|]. rewrite forallb_forall in Hall.
    assert (HF : Forall (fun ok => ok = true) results).
    { apply Forall_forall. exact Hall. }
    split; [exact HF|]. split.
    + rewrite <- Hlen. clear -HF. induction HF as [|x l Hx _ IH]; cbn; [reflexivity|].
      rewrite Hx. cbn. now rewrite IH.
    + rewrite Hrel, Htrig. rewrite <- Hr, <- Hb.
      apply updateMany_rows.
      * intros b Hbid. unfold treasuryExecutedRow. rewrite Hbid. cbn. auto.
      * intros b Hbid. unfold treasuryExecutedRow. now rewrite Hbid.
  - split; [exact Hlen|]. split.
    + rewrite <- Hlen. clear -Hall. induction results as [|x l IH]; [discriminate|].
      cbn in *. destruct x; cbn in *.
      * specialize (IH Hall). lia.
      * pose proof (filter_length_le (fun r : bool => r) l). lia.
    + rewrite Hroll, Hb. exact Hr.
Qed.

Lemma execution_outcome_witness :
  let db := Blockchain.sampleDb SettlementStatus.APPROVED in
  fst (executeSettlement failingLeg 1700000000000 "SB-202501-1" db)
  = Executed false "SB-202501-1" [false] 60 0 1 /\
  settlementBatch (snd (executeSettlement failingLeg 1700000000000 "SB-202501-1" db))
  = settlementBatch db.
Proof.
  intros db.
  pose proof (execution_outcome failingLeg 1700000000000 "SB-202501-1" db
                failingLeg_keepsBatches) as H.
  cbv zeta in H.
  assert (E : fst (executeSettlement failingLeg 1700000000000 "SB-202501-1" db)
              = Executed false "SB-202501-1" [false] 60 0 1) by reflexivity.
  rewrite E in H. split; [exact E|]. apply H.
Defined.

(** X25.  Treasury execution, the reservation: for an APPROVED batch the
    amount asked of the escrow is the sum of the leg amounts, in GHS, under
    the reference SETTLEMENT-<batchId> for 24 hours; when the escrow refuses
    it the call answers 'Insufficient escrow funds' (400), no leg is
    executed and the database is the one the escrow helper returned. *)
Theorem reservation_refused h now batchId db batch db1 :
  settlementBatch_findUnique batchId db = Some batch ->
  SettlementBatch.status batch = SettlementStatus.APPROVED ->
  reserveFunds h (reservationFor h batchId (SettlementBatch.period batch)) db
  = (false, db1) ->
  executeSettlement h now batchId db = (Error "Insufficient escrow funds" 400, db1).
Proof.
  intros Hf Hs Hr. unfold executeSettlement, bind, gets, ret.
  rewrite Hf. cbn [isApproved periodOf]. rewrite Hs. cbn [negb].
  unfold reservationFor in Hr.
  change (24 * 60 * 60 * 1000)%Z with 86400000%Z.
  now rewrite Hr.
Qed.

Lemma reservation_refused_witness :
  let db := Blockchain.sampleDb SettlementStatus.APPROVED in
  executeSettlement refusingEscrow 1700000000000 "SB-202501-1" db
  = (Error "Insufficient escrow funds" 400, db).
Proof.
  intros db.
  apply (reservation_refused refusingEscrow 1700000000000 "SB-202501-1" db
           (Blockchain.sampleBatch SettlementStatus.APPROVED) db);
    reflexivity.
Defined.

(** *** Priority *)

Lemma Qltb_mono a b b' : b <= b' -> Qltb a b = true -> Qltb a b' = true.
Proof.
  intros Hle H. apply Qltb_true in H. apply Qltb_true. lra.
Qed.

(** X26.  [calculatePriority] is monotone: raising the amount or the age
    never lowers the priority (LOW < MEDIUM < HIGH < CRITICAL). *)
Theorem priority_monotone amount amount' age age' :
  amount <= amount' -> age <= age' ->
  (urgency (calculatePriority amount age)
   <= urgency (calculatePriority amount' age'))%nat.
Proof.
  intros Ha Hg. unfold calculatePriority.
  pose proof (Qltb_mono 1000000000 _ _ Ha) as A1.
  pose proof (Qltb_mono 500000000 _ _ Ha) as A2.
  pose proof (Qltb_mono 100000000 _ _ Ha) as A3.
  pose proof (Qltb_mono 24 _ _ Hg) as G1.
  pose proof (Qltb_mono 12 _ _ Hg) as G2.
  pose proof (Qltb_mono 6 _ _ Hg) as G3.
  assert (A12 : Qltb 1000000000 amount = true -> Qltb 500000000 amount = true).
  { intros H. apply Qltb_true in H. apply Qltb_true. lra. }
  assert (A23 : Qltb 500000000 amount = true -> Qltb 100000000 amount = true).
  { intros H. apply Qltb_true in H. apply Qltb_true. lra. }
  assert (G12 : Qltb 24 age = true -> Qltb 12 age = true).
  { intros H. apply Qltb_true in H. apply Qltb_true. lra. }
  assert (G23 : Qltb 12 age = true -> Qltb 6 age = true).
  { intros H. apply Qltb_true in H. apply Qltb_true. lra. }
  destruct (Qltb 1000000000 amount), (Qltb 500000000 amount), (Qltb 100000000 amount),
    (Qltb 24 age), (Qltb 12 age), (Qltb 6 age);
    try (specialize (A12 eq_refl)); try (specialize (A23 eq_refl));
    try (specialize (G12 eq_refl)); try (specialize (G23 eq_refl));
    try discriminate;
    try (rewrite (A1 eq_refl)); try (rewrite (A2 eq_refl)); try (rewrite (A3 eq_refl));
    try (rewrite (G1 eq_refl)); try (rewrite (G2 eq_refl)); try (rewrite (G3 eq_refl));
    cbn [andb orb urgency];
    repeat match goal with
           | |- context [Qltb ?a ?b] => destruct (Qltb a b)
           end; cbn [andb orb urgency]; lia.
Qed.

Lemma priority_monotone_witness :
  (urgency (calculatePriority 600000000 13)
   <= urgency (calculatePriority 2000000000 25))%nat.
Proof.
  apply priority_monotone; unfold Qle; cbn; lia.
Defined.

(** X27.  [calculatePriority] never rates above MEDIUM on one ground alone:
    HIGH needs an amount above 500 million and an age above 12 hours,
    CRITICAL an amount above one billion and an age above 24 hours; and a
    batch is LOW exactly when the amount is at most 100 million and the age
    at most 6 hours. *)
Theorem priority_grounds amount age :
  (calculatePriority amount age = CRITICAL <-> 1000000000 < amount /\ 24 < age) /\
  (calculatePriority amount age = HIGH ->  500000000 < amount /\ 12 < age) /\
  (calculatePriority amount age = LOW <-> amount <= 100000000 /\ age <= 6).
Proof.
  unfold calculatePriority.
  destruct (Qltb 1000000000 amount) eqn:A1; [apply Qltb_true in A1|apply Qltb_false in A1];
  destruct (Qltb 500000000 amount) eqn:A2; [apply Qltb_true in A2|apply Qltb_false in A2| |];
  try apply Qltb_true in A2; try apply Qltb_false in A2;
  (destruct (Qltb 100000000 amount) eqn:A3; [apply Qltb_true in A3|apply Qltb_false in A3]);
  (destruct (Qltb 24 age) eqn:G1; [apply Qltb_true in G1|apply Qltb_false in G1]);
  (destruct (Qltb 12 age) eqn:G2; [apply Qltb_true in G2|apply Qltb_false in G2]);
  (destruct (Qltb 6 age) eqn:G3; [apply Qltb_true in G3|apply Qltb_false in G3]);
  cbn [andb orb];
  (split; [split; [intros H; try discriminate H; split; lra
                  | intros [H1 H2]; try reflexivity; lra]
          | split; [intros H; try discriminate H; split; lra
                   | split; [intros H; try discriminate H; split; lra
                            | intros [H1 H2]; try reflexivity; lra]]]).
Qed.

(** *** Risk assessment *)

(** X28.  [assessSettlementRisk]: the score is the sum of the weights of the
    factors listed (25, 20, 15, 10, 20), each factor is listed at most
    once, and the score lies between 0 and 90, so the cap at 100 never
    applies.  The recommendation is REJECT_OR_REQUIRE_ADDITIONAL_COLLATERAL
    exactly when all five factors are present, and APPROVE whenever at most
    two are. *)
Theorem risk_score now disputeRate totalNetAmount createdAt positions :
  let r := assessSettlementRisk now disputeRate totalNetAmount createdAt positions in
  score r == Qsum (map weight (factors r)) /\
  NoDup (factors r) /\
  0 <= score r <= 90 /\
  (recommendation r = "REJECT_OR_REQUIRE_ADDITIONAL_COLLATERAL"%string <->
   List.length (factors r) = 5%nat) /\
  ((List.length (factors r) <= 2)%nat -> recommendation r = "APPROVE"%string).
Proof.
  intros r. subst r. unfold assessSettlementRisk. cbv zeta.
  set (b1 := Qltb 1000000000 totalNetAmount).
  set (b2 := match Math_max _ with Some _ => _ | None => _ end).
  set (b3 := Nat.ltb 0 _).
  set (b4 := Qltb 24 _).
  set (b5 := Qltb (1 # 10) disputeRate).
  destruct b1, b2, b3, b4, b5; vm_compute;
    (split; [reflexivity|]);
    (split; [repeat (apply NoDup_cons; [cbn; intuition discriminate|]); apply NoDup_nil|]);
    (split; [split; discriminate|]);
    (split; [split; intros H; try reflexivity; discriminate H|]);
    intros H; try reflexivity; exfalso; lia.
Qed.

(** X29.  [assessSettlementRisk] with a dispute rate of at most 10 per cent,
    as the file's [getDisputeRate] always reports (0.05): HIGH_DISPUTE_RATE
    is never listed, the score is at most 70, the recommendation is never
    to reject, and it is REVIEW_MANUALLY exactly when the four other
    factors are all present. *)
Theorem risk_low_dispute_rate now disputeRate totalNetAmount createdAt positions :
  disputeRate <= 1 # 10 ->
  let r := assessSettlementRisk now disputeRate totalNetAmount createdAt positions in
  ~ In "HIGH_DISPUTE_RATE"%string (factors r) /\
  score r <= 70 /\
  recommendation r <> "REJECT_OR_REQUIRE_ADDITIONAL_COLLATERAL"%string /\
  (recommendation r = "REVIEW_MANUALLY"%string <->
   List.length (factors r) = 4%nat).
Proof.
  intros Hrate r. subst r. unfold assessSettlementRisk. cbv zeta.
  apply Qltb_false in Hrate. rewrite Hrate.
  set (b1 := Qltb 1000000000 totalNetAmount).
  set (b2 := match Math_max _ with Some _ => _ | None => _ end).
  set (b3 := Nat.ltb 0 _).
  set (b4 := Qltb 24 _).
  destruct b1, b2, b3, b4; vm_compute;
    (split; [intuition discriminate|]);
    (split; [discriminate|]);
    (split; [discriminate|]);
    split; intros H; try reflexivity; discriminate H.
Qed.

Lemma risk_low_dispute_rate_witness :
  let r := assessSettlementRisk 1700090000000 fileDisputeRate 2345678900
             1700000000000 (calculateNetPositions stubs "2025-01") in
  score r <= 70 /\
  recommendation r = "REVIEW_MANUALLY"%string /\
  List.length (factors r) = 4%nat.
Proof.
  intros r.
  destruct (risk_low_dispute_rate 1700090000000 fileDisputeRate 2345678900
              1700000000000 (calculateNetPositions stubs "2025-01"))
    as [_ [Hs [_ Hrev]]].
  - unfold fileDisputeRate, Qle. cbn. lia.
  - fold r in Hs, Hrev. split; [exact Hs|].
    assert (Hl : List.length (factors r) = 4%nat) by reflexivity.
    split; [apply Hrev; exact Hl | exact Hl].
Defined.

End TreasuryProofs.

(** ** Netting in double arithmetic: properties *)

Module DoubleNettingProofs.
Import Netting Double DoubleFacts DoubleNetting NettingProofs.

Lemma outstanding_representable invoice : representable (outstanding invoice).
Proof. apply round_is_representable. Qed.

Lemma u53_val : pow2 (-53) == u53.
Proof. reflexivity. Qed.

(** Magnitude of a rounded sum of doubles. *)
Lemma add_abs x y :
  representable x -> representable y ->
  Qabs (add x y) <= (Qabs x + Qabs y) * (1 + u53).
Proof.
  intros Hx Hy. pose proof (add_rel x y Hx Hy) as H. rewrite u53_val in H.
  pose proof (Qabs_triangle x y) as Ht.
  pose proof (Qabs_triangle (add x y - (x + y)) (x + y)) as Hs.
  setoid_replace (add x y - (x + y) + (x + y)) with (add x y) in Hs by ring.
  unfold u53 in *.
  pose proof (Qabs_nonneg (x + y)).
  generalize dependent (Qabs (add x y - (x + y))). intros e He Hs.
  generalize dependent (Qabs (x + y)). intros s Hs1 Hs2 Hs3 Hs4.
  generalize dependent (Qabs (add x y)). intros r Hr. lra.
Qed.

Lemma sub_abs x y :
  representable x -> representable y ->
  Qabs (sub x y) <= (Qabs x + Qabs y) * (1 + u53).
Proof.
  intros Hx Hy. pose proof (add_abs x (- y) Hx (representable_opp y Hy)) as H.
  now rewrite Qabs_opp in H.
Qed.


Lemma netWithin_weaken b b' m : b <= b' -> netWithin b m -> netWithin b' m.
Proof.
  intros Hb. unfold netWithin. apply Forall_impl. intros kv [H1 H2]. split; [exact H1 | lra].
Qed.

Lemma netWithin_ensure b p m : 0 <= b -> netWithin b m -> netWithin b (ensure p m).
Proof.
  intros Hb Hm. unfold ensure. destruct (Map_has (id p) m); [exact Hm|].
  induction m as [|[k v] m IH]; cbn.
  - constructor; [|constructor]. cbn. split; [apply representable_0 | exact Hb].
  - inversion Hm as [|? ? Hkv Hm']; subst.
    destruct (String.eqb (id p) k).
    + constructor; [|exact Hm']. cbn. split; [apply representable_0 | exact Hb].
    + constructor; [exact Hkv | now apply IH].
Qed.

(** An update of the entry under [k] that moves its net position by
    [delta] up to [err]. *)
Lemma modify_net k f delta err b b' m :
  netWithin b m -> Map_has k m = true -> b <= b' ->
  (forall p, representable (netPosition p) -> Qabs (netPosition p) <= b ->
             representable (netPosition (f p)) /\
             Qabs (netPosition (f p)) <= b' /\
             Qabs (netPosition (f p) - (netPosition p + delta)) <= err) ->
  netWithin b' (Map_modify k f m) /\
  Qabs (mapNet (Map_modify k f m) - (mapNet m + delta)) <= err.
Proof.
  intros Hm Hk Hb Hf. induction m as [|[k' v] m IH];
    cbn [Map_modify Map_has] in *; [discriminate|].
  inversion Hm as [|? ? [Hv1 Hv2] Hm']; subst. cbn [snd] in Hv1, Hv2.
  destruct (String.eqb k k').
  - destruct (Hf v Hv1 Hv2) as (F1 & F2 & F3). split.
    + constructor; [cbn; split; assumption|]. now apply (netWithin_weaken b).
    + rewrite !NettingProofs.mapNet_cons.
      setoid_replace (netPosition (f v) + mapNet m - (netPosition v + mapNet m + delta))
        with (netPosition (f v) - (netPosition v + delta)) by ring.
      exact F3.
  - destruct (IH Hm' Hk) as [I1 I2]. split.
    + constructor; [cbn; split; [exact Hv1 | lra] | exact I1].
    + rewrite !NettingProofs.mapNet_cons.
      setoid_replace (netPosition v + mapNet (Map_modify k f m)
                      - (netPosition v + mapNet m + delta))
        with (mapNet (Map_modify k f m) - (mapNet m + delta)) by ring.
      exact I2.
Qed.

Lemma gross_nonneg invoices : 0 <= grossOutstanding invoices.
Proof.
  unfold grossOutstanding, openInvoices, Qsum.
  induction invoices as [|i invoices IH]; cbn [filter]; [apply Qle_refl|].
  destruct (isOpen i) eqn:E; [|exact IH]. cbn [map fold_right] in *.
  unfold isOpen in E. apply negb_true_iff in E. apply Qle_bool_false in E. lra.
Qed.

Lemma open_cons i invoices :
  isOpen i = true -> openInvoices (i :: invoices) = i :: openInvoices invoices.
Proof. intros E. unfold openInvoices. cbn [filter]. now rewrite E. Qed.

Lemma open_skip i invoices :
  isOpen i = false -> openInvoices (i :: invoices) = openInvoices invoices.
Proof. intros E. unfold openInvoices. cbn [filter]. now rewrite E. Qed.

Lemma gross_open i invoices :
  isOpen i = true ->
  grossOutstanding (i :: invoices) == outstanding i + grossOutstanding invoices.
Proof. intros E. unfold grossOutstanding. now rewrite (open_cons _ _ E). Qed.

Lemma gross_skip i invoices :
  isOpen i = false -> grossOutstanding (i :: invoices) == grossOutstanding invoices.
Proof. intros E. unfold grossOutstanding. now rewrite (open_skip _ _ E). Qed.

Section Budget.
(** [cap] bounds the outstanding total of the whole run. *)
Variable cap : Q.
Hypothesis cap_nonneg : 0 <= cap.

Let growth : Q := 9 * u53 * cap.
Let drift : Q := 8 * u53 * cap.

Lemma step_bound m invoice B e1 e2 :
  0 <= B -> 0 <= e1 ->
  netWithin (2 * B + e1) m -> Qabs (mapNet m) <= e2 ->
  isOpen invoice = true ->
  B + outstanding invoice <= cap -> e1 + growth <= cap ->
  netWithin (2 * (B + outstanding invoice) + (e1 + growth)) (nettingStep m invoice) /\
  Qabs (mapNet (nettingStep m invoice)) <= e2 + drift.
Proof.
  intros HB He1 Hm HS Hopen Hcap Hg.
  unfold isOpen in Hopen. apply negb_true_iff in Hopen.
  unfold nettingStep. cbv zeta. rewrite Hopen.
  pose proof (outstanding_representable invoice) as Ho.
  apply Qle_bool_false in Hopen.
  set (o := outstanding invoice) in *.
  set (M := 2 * B + e1) in *.
  set (M1 := (M + o) * (1 + u53)).
  set (M2 := 2 * (B + o) + (e1 + growth)).
  assert (HM : 0 <= M) by (unfold M; lra).
  assert (HM1 : M <= M1) by (unfold M1, M, u53 in *; lra).
  assert (HM12 : M1 <= M2).
  { unfold M1, M2, growth, M, u53 in *. lra. }
  (* issuer *)
  pose proof (netWithin_ensure M (issuer invoice) m HM Hm) as Hm1.
  destruct (modify_net (id (issuer invoice)) (addReceivable o) o (3 * u53 * cap)
              M M1 (ensure (issuer invoice) m) Hm1
              (NettingProofs.Map_has_ensure _ _) HM1) as [Hw1 Hs1].
  { intros p Hp1 Hp2. cbn. split; [apply add_representable|]. split.
    - eapply Qle_trans; [apply (add_abs _ _ Hp1 Ho)|].
      rewrite (Qabs_pos o) by lra. unfold M1, M, u53 in *.
      generalize dependent (Qabs (netPosition p)). intros. lra.
    - eapply Qle_trans; [apply (add_rel _ _ Hp1 Ho)|]. rewrite u53_val.
      pose proof (Qabs_triangle (netPosition p) o) as Ht.
      rewrite (Qabs_pos o) in Ht by lra.
      unfold M, growth, u53 in *. generalize dependent (Qabs (netPosition p + o)).
      generalize dependent (Qabs (netPosition p)). intros. lra. }
  rewrite NettingProofs.mapNet_ensure in Hs1.
  (* counterparty *)
  set (m2 := Map_modify (id (issuer invoice)) (addReceivable o)
               (ensure (issuer invoice) m)) in *.
  assert (HM1' : 0 <= M1) by lra.
  pose proof (netWithin_ensure M1 (counterparty invoice) m2 HM1' Hw1) as Hm3.
  destruct (modify_net (id (counterparty invoice)) (addPayable o) (- o) (5 * u53 * cap)
              M1 M2 (ensure (counterparty invoice) m2) Hm3
              (NettingProofs.Map_has_ensure _ _) HM12) as [Hw2 Hs2].
  { intros p Hp1 Hp2. cbn. split; [apply sub_representable|]. split.
    - eapply Qle_trans; [apply (sub_abs _ _ Hp1 Ho)|].
      rewrite (Qabs_pos o) by lra.
      unfold M2, M1, growth, M, u53 in *.
      generalize dependent (Qabs (netPosition p)). intros. lra.
    - eapply Qle_trans; [apply (sub_rel _ _ Hp1 Ho)|]. rewrite u53_val.
      pose proof (Qabs_triangle (netPosition p) (- o)) as Ht.
      rewrite Qabs_opp, (Qabs_pos o) in Ht by lra.
      unfold M1, M, growth, u53, Qminus in *.
      generalize dependent (Qabs (netPosition p + - o)).
      generalize dependent (Qabs (netPosition p)). intros. lra. }
  rewrite NettingProofs.mapNet_ensure in Hs2.
  split; [exact Hw2|].
  set (S0 := mapNet m) in *. set (S1 := mapNet m2) in *.
  set (S2 := mapNet (Map_modify (id (counterparty invoice)) (addPayable o)
                      (ensure (counterparty invoice) m2))) in *.
  unfold drift, growth, u53 in *.
  apply Qabs_Qle_condition in Hs1, Hs2, HS. apply Qabs_Qle_condition.
  split; lra.
Qed.

Lemma fold_bound invoices : forall m B e1 e2,
  0 <= B -> 0 <= e1 ->
  netWithin (2 * B + e1) m -> Qabs (mapNet m) <= e2 ->
  B + grossOutstanding invoices <= cap ->
  e1 + ofNat (List.length (openInvoices invoices)) * growth <= cap ->
  Qabs (mapNet (fold_left nettingStep invoices m))
    <= e2 + ofNat (List.length (openInvoices invoices)) * drift.
Proof.
  induction invoices as [|i invoices IH]; intros m B e1 e2 HB He1 Hm HS Hcap Hg.
  - cbn [fold_left openInvoices filter List.length]. change (ofNat 0) with 0.
    setoid_replace (e2 + 0 * drift) with e2 by ring. exact HS.
  - cbn [fold_left].
    pose proof (gross_nonneg invoices) as Hrest.
    assert (Hgr : 0 <= growth) by (unfold growth, u53; lra).
    pose proof (ofNat_nonneg (List.length (openInvoices invoices))) as Hn.
    destruct (isOpen i) eqn:Ei.
    + rewrite (gross_open i invoices Ei) in Hcap.
      rewrite (open_cons i invoices Ei) in *. cbn [List.length] in *.
      rewrite ofNat_S in *.
      set (N := ofNat (List.length (openInvoices invoices))) in *.
      assert (Hp : 0 <= N * growth) by (apply Qmult_le_0_compat; assumption).
      setoid_replace ((N + 1) * growth) with (N * growth + growth) in Hg by ring.
      setoid_replace ((N + 1) * drift) with (N * drift + drift) by ring.
      assert (Ho : 0 < outstanding i).
      { unfold isOpen in Ei. apply negb_true_iff in Ei. now apply Qle_bool_false in Ei. }
      destruct (step_bound m i B e1 e2 HB He1 Hm HS Ei) as [Hw Hs].
      { generalize dependent (grossOutstanding invoices). intros. lra. }
      { generalize dependent (N * growth). intros. lra. }
      eapply Qle_trans.
      * apply (IH _ (B + outstanding i) (e1 + growth) (e2 + drift)).
        -- lra.
        -- lra.
        -- exact Hw.
        -- exact Hs.
        -- generalize dependent (grossOutstanding invoices). intros. lra.
        -- fold N. generalize dependent (N * growth). intros. lra.
      * fold N. generalize (N * drift). intros. lra.
    + assert (Hskip : nettingStep m i = m).
      { unfold nettingStep. cbv zeta. unfold isOpen in Ei.
        apply negb_false_iff in Ei. now rewrite Ei. }
      rewrite Hskip.
      rewrite (gross_skip i invoices Ei) in Hcap.
      rewrite (open_skip i invoices Ei) in *.
      now apply (IH m B e1 e2).
Qed.

End Budget.

(** C1 (conservation), as the code has it.  The net positions that
    [calculateNettingPositions] returns sum to zero up to the rounding of
    double arithmetic: for [n] invoices with an outstanding amount, these
    amounts totalling [G], the sum is at most [2^-50 * n * G] in absolute
    value.  It is therefore within the tolerance of 1e-6 whenever
    [n * G] is at most 1e9. *)
Theorem conservation_up_to_rounding (invoices : list Invoice) :
  let positions := calculateNettingPositions invoices in
  let n := List.length (openInvoices invoices) in
  let G := grossOutstanding invoices in
  Forall inRange invoices ->
  (9 * Z.of_nat n <= 2 ^ 53)%Z ->
  Qabs (Qsum (map netPosition positions)) <= pow2 (-50) * (ofNat n * G) /\
  (ofNat n * G <= 1000000000 ->
   Qabs (Qsum (map netPosition positions)) <= 1 # 1000000).
Proof.
  intros positions n G _ Hn.
  pose proof (gross_nonneg invoices) as HG. fold G in HG.
  pose proof (ofNat_nonneg n) as Hn0.
  assert (Hn9 : 9 * ofNat n <= inject_Z (2 ^ 53)).
  { unfold ofNat. change 9 with (inject_Z 9). rewrite <- inject_Z_mult, <- Zle_Qle.
    exact Hn. }
  assert (Hprod : 0 <= ofNat n * G) by (apply Qmult_le_0_compat; assumption).
  assert (Hmain : Qabs (Qsum (map netPosition positions)) <= pow2 (-50) * (ofNat n * G)).
  { pose proof (fold_bound G HG invoices [] 0 0 0) as H.
    fold n in H.
    change (Qabs (mapNet (fold_left nettingStep invoices []))
            <= pow2 (-50) * (ofNat n * G)).
    setoid_replace (pow2 (-50)) with (8 * u53) by reflexivity.
    eapply Qle_trans; [apply H|].
    - lra.
    - lra.
    - constructor.
    - cbn. lra.
    - fold G. lra.
    - setoid_replace (0 + ofNat n * (9 * u53 * G)) with (9 * u53 * (ofNat n * G)) by ring.
      change (inject_Z (2 ^ 53)) with (9007199254740992 # 1) in Hn9.
      unfold u53.
      assert (Hc : (9 # 9007199254740992) * ofNat n <= 1) by lra.
      setoid_replace (9 * (1 # 9007199254740992) * (ofNat n * G))
        with ((9 # 9007199254740992) * ofNat n * G) by ring.
      setoid_replace G with (1 * G) at 2 by ring.
      apply Qmult_le_compat_r; assumption.
    - setoid_replace (0 + ofNat n * (8 * u53 * G)) with (8 * u53 * (ofNat n * G)) by ring.
      lra. }
  split; [exact Hmain|].
  intros Hsmall. eapply Qle_trans; [exact Hmain|].
  setoid_replace (pow2 (-50)) with (1 # 1125899906842624) by reflexivity.
  generalize dependent (ofNat n * G). intros. lra.
Qed.




















(** The books used as examples lie within the limits. *)
Lemma books_inRange :
  Forall inRange largeBook /\ Forall inRange smallBook.
Proof.
  split; repeat constructor; vm_compute; intros; discriminate.
Qed.

Lemma conservation_up_to_rounding_witness :
  Forall inRange smallBook /\
  (9 * Z.of_nat (List.length (openInvoices smallBook)) <= 2 ^ 53)%Z /\
  ofNat (List.length (openInvoices smallBook)) * grossOutstanding smallBook
    <= 1000000000 /\
  Qabs (Qsum (map netPosition (calculateNettingPositions smallBook))) <= 1 # 1000000.
Proof.
  assert (Hr : Forall inRange smallBook) by apply books_inRange.
  assert (Hn : (9 * Z.of_nat (List.length (openInvoices smallBook)) <= 2 ^ 53)%Z)
    by (vm_compute; discriminate).
  assert (Hg : ofNat (List.length (openInvoices smallBook)) * grossOutstanding smallBook
               <= 1000000000) by (vm_compute; discriminate).
  split; [exact Hr|]. split; [exact Hn|]. split; [exact Hg|].
  exact (proj2 (conservation_up_to_rounding smallBook Hr Hn) Hg).
Defined.

(** Conservation within 1e-6 fails on large amounts.  A issues an invoice of
    10000000000.1 to B and one of 10000000000.3 to C, nothing is paid.  The
    three net positions are doubles whose sum is [2^-19], about 1.9e-6,
    whether it is taken exactly or with the additions of the code. *)
Lemma conservation_fails :
  let positions := calculateNettingPositions largeBook in
  Forall inRange largeBook /\
  map partyId positions = ["A"; "B"; "C"]%string /\
  Qsum (map netPosition positions) == 1 # 524288 /\
  netSum positions == 1 # 524288 /\
  ~ Qabs (Qsum (map netPosition positions)) <= 1 # 1000000.
Proof.
  cbv zeta. split; [apply books_inRange|].
  split; [vm_compute; reflexivity|].
  split; [vm_compute; reflexivity|].
  split; [vm_compute; reflexivity|].
  vm_compute. intros H. apply H. reflexivity.
Qed.


(** Whole hundredths are not enough.  With A owing 5.01, B owed 5 and C owed
    0.01 the only leg is A to B, 5: the sum [-5.01 + 5] is the double
    [-0.00999999999999979], below the threshold 0.01 in magnitude, and A is
    passed over with C unpaid. *)
Lemma cents_not_covered :
  exists leg,
    generateSettlementLegs 3 centPositions = Some [leg] /\
    payerId leg = "A"%string /\ payeeId leg = "B"%string /\ amount leg == 5 /\
    Qabs (Double.add (netPosition (positionOf "A" (-501 # 100))) 5) < cent /\
    legTotal [leg] < positiveTotal centPositions.
Proof.
  eexists. split; [vm_compute; reflexivity|].
  repeat split; vm_compute; reflexivity.
Qed.

(** *** Invoices paid in full *)

(** X4.  An invoice whose outstanding amount, computed in doubles as
    [totalAmount - totalPaid], passes the test [outstanding <= 0] is
    ignored: the positions are those computed from the other invoices alone,
    so an overpayment creates no reverse obligation.  The test is on the
    computed amount: an
    invoice of 1 paid in ten instalments of 0.1 keeps an outstanding amount
    of [2^-53] and is not ignored. *)
Theorem paid_invoices_ignored (invoices : list Invoice) :
  calculateNettingPositions invoices =
    calculateNettingPositions (openInvoices invoices) /\
  (forall invoice, In invoice (openInvoices invoices) <->
     In invoice invoices /\ ~ outstanding invoice <= 0) /\
  outstanding instalments == 1 # 9007199254740992 /\
  openInvoices [instalments] = [instalments].
Proof.
  split; [|split; [|split]].
  - unfold calculateNettingPositions, openInvoices. f_equal.
    generalize (@nil (string * NettingPosition)).
    induction invoices as [|i invoices IH]; intros m; cbn [filter fold_left];
      [reflexivity|].
    destruct (isOpen i) eqn:E; cbn [fold_left].
    + apply IH.
    + rewrite <- IH. f_equal. unfold nettingStep. cbv zeta.
      unfold isOpen in E. apply negb_false_iff in E. now rewrite E.
  - intros invoice. unfold openInvoices. rewrite filter_In. unfold isOpen.
    rewrite negb_true_iff. split; intros [H1 H2]; (split; [exact H1|]).
    + apply Qle_bool_false in H2. lra.
    + destruct (Qle_bool (outstanding invoice) 0) eqn:E; [|reflexivity].
      apply Qle_bool_iff in E. contradiction.
  - vm_compute. reflexivity.
  - vm_compute. reflexivity.
Qed.

(** *** Shape of the positions *)

Lemma oneSided_new party : oneSided (newPosition party).
Proof.
  unfold oneSided, newPosition. cbn.
  split; [apply representable_0|]. split; [apply representable_0|].
  split; [lra|]. split; [lra|]. split; intros _; reflexivity.
Qed.

Lemma oneSided_receivable o p :
  representable o -> 0 < o -> oneSided p ->
  oneSided (addReceivable o p) /\ 0 < totalReceivable (addReceivable o p).
Proof.
  intros Ho Hpos (Hr & Hp & Hr0 & Hp0 & H1 & H2). unfold oneSided, addReceivable. cbn.
  assert (Hgt : 0 < add (totalReceivable p) o).
  { unfold add. apply (round_pos_representable o); [exact Ho | exact Hpos | lra]. }
  split; [|exact Hgt].
  split; [apply round_is_representable|]. split; [exact Hp|].
  split; [lra|]. split; [exact Hp0|]. split.
  - intros E. unfold add. rewrite (round_wd (netPosition p + o) (totalReceivable p + o));
      [reflexivity|]. now rewrite (H1 E).
  - intros E. lra.
Qed.

Lemma oneSided_payable o p :
  representable o -> 0 < o -> oneSided p ->
  oneSided (addPayable o p) /\ 0 < totalPayable (addPayable o p).
Proof.
  intros Ho Hpos (Hr & Hp & Hr0 & Hp0 & H1 & H2). unfold oneSided, addPayable. cbn.
  assert (Hgt : 0 < add (totalPayable p) o).
  { unfold add. apply (round_pos_representable o); [exact Ho | exact Hpos | lra]. }
  split; [|exact Hgt].
  split; [exact Hr|]. split; [apply round_is_representable|].
  split; [exact Hr0|]. split; [lra|]. split.
  - intros E. lra.
  - intros E. unfold sub, add.
    rewrite (round_wd (netPosition p - o) (- (totalPayable p + o)));
      [apply round_opp|]. rewrite (H2 E). ring.
Qed.

Lemma oneSided_step m invoice :
  Forall (fun p => oneSided p /\ NettingSummary.touched p) (Map_values m) ->
  Forall (fun p => oneSided p /\ NettingSummary.touched p) (Map_values (nettingStep m invoice)).
Proof.
  intros H. unfold nettingStep. cbv zeta.
  destruct (Qle_bool (outstanding invoice) 0) eqn:E; [exact H|].
  apply Qle_bool_false in E.
  pose proof (outstanding_representable invoice) as Ho.
  apply NettingExtra.Forall_touch; [apply NettingExtra.Forall_touch; [exact H| |] | |].
  - intros v [Hv _]. destruct (oneSided_receivable _ v Ho E Hv) as [H1 H2].
    split; [exact H1 | left; exact H2].
  - destruct (oneSided_receivable _ _ Ho E (oneSided_new (issuer invoice))) as [H1 H2].
    split; [exact H1 | left; exact H2].
  - intros v [Hv _]. destruct (oneSided_payable _ v Ho E Hv) as [H1 H2].
    split; [exact H1 | right; exact H2].
  - destruct (oneSided_payable _ _ Ho E (oneSided_new (counterparty invoice))) as [H1 H2].
    split; [exact H1 | right; exact H2].
Qed.

Lemma oneSided_fold invoices : forall m,
  Forall (fun p => oneSided p /\ NettingSummary.touched p) (Map_values m) ->
  Forall (fun p => oneSided p /\ NettingSummary.touched p)
         (Map_values (fold_left nettingStep invoices m)).
Proof.
  induction invoices as [|i invoices IH]; intros m H; cbn [fold_left]; [exact H|].
  apply IH, oneSided_step, H.
Qed.

(** X2.  Every position [calculateNettingPositions] returns has totals that
    are not negative, at least one of them positive (a party is listed only
    when an open invoice touches it); a party that owes nothing has
    [netPosition = totalReceivable] and a party that is owed nothing has
    [netPosition = - totalPayable].  For a party on both sides the rounded
    net position need not be the difference of the rounded totals: with A
    issuing 0.1 to B, B 0.3 to A and A 0.2 to B, A's net position is
    [2^-55] and its totals differ by [2^-54]. *)
Theorem positions_balanced (invoices : list Invoice) (p : NettingPosition) :
  Forall inRange invoices ->
  In p (calculateNettingPositions invoices) ->
  0 <= totalReceivable p /\ 0 <= totalPayable p /\
  (0 < totalReceivable p \/ 0 < totalPayable p) /\
  (totalPayable p == 0 -> netPosition p == totalReceivable p) /\
  (totalReceivable p == 0 -> netPosition p == - totalPayable p) /\
  (let a := hd (newPosition {| id := "A"; name := "A" |})
               (calculateNettingPositions crossBook) in
   partyId a = "A"%string /\
   netPosition a == pow2 (-55) /\
   totalReceivable a - totalPayable a == pow2 (-54)).
Proof.
  intros _ Hin.
  pose proof (oneSided_fold invoices [] (Forall_nil _)) as H.
  rewrite Forall_forall in H.
  destruct (H p Hin) as ((_ & _ & Hr & Hp & H1 & H2) & Ht).
  split; [exact Hr|]. split; [exact Hp|]. split; [exact Ht|].
  split; [exact H1|]. split; [exact H2|].
  cbv zeta. split; [vm_compute; reflexivity|].
  split; vm_compute; reflexivity.
Qed.

Lemma positions_balanced_witness :
  let p := {| partyId := "B"; partyName := "B"; totalReceivable := 0;
              totalPayable := Double.round (100000000001 # 10);
              netPosition := - Double.round (100000000001 # 10) |} in
  Forall inRange largeBook /\
  In p (calculateNettingPositions largeBook) /\
  totalReceivable p == 0 /\ netPosition p == - totalPayable p.
Proof.
  cbv zeta.
  match goal with |- _ /\ In ?x _ /\ _ => set (p := x) end.
  assert (Hr : Forall inRange largeBook) by apply books_inRange.
  assert (H : In p (calculateNettingPositions largeBook)).
  { vm_compute. right. left. reflexivity. }
  assert (Hz : totalReceivable p == 0) by reflexivity.
  split; [exact Hr|]. split; [exact H|]. split; [exact Hz|].
  destruct (positions_balanced largeBook p Hr H) as (_ & _ & _ & _ & H2 & _).
  exact (H2 Hz).
Defined.

End DoubleNettingProofs.

(** ** The reconciliation summary in double arithmetic: properties *)

Module DoubleSummaryProofs.
Import Double DoubleFacts DoubleSummary.

Lemma representable_1 : representable 1.
Proof. apply (representable_Z 1). reflexivity. Qed.

Lemma representable_100 : representable 100.
Proof. apply (representable_Z 100). reflexivity. Qed.

Lemma round_unit_interval q : 0 <= q <= 1 -> 0 <= round q <= 1.
Proof.
  intros [H0 H1]. split; [now apply round_nonneg|].
  destruct (Qeq_dec q 0) as [E|E]; [rewrite (round_zero q E); lra|].
  apply round_le_representable; [apply representable_1 | lra | exact H1].
Qed.

Lemma share_unit_interval (m n : nat) :
  (m <= n)%nat -> (0 < n)%nat -> 0 <= ofNat m / ofNat n <= 1.
Proof.
  intros Hmn Hn.
  assert (Hn0 : 0 < ofNat n).
  { unfold ofNat. change 0 with (inject_Z 0). rewrite <- Zlt_Qlt. lia. }
  assert (Hm0 : 0 <= ofNat m) by apply ofNat_nonneg.
  assert (Hle : ofNat m <= ofNat n).
  { unfold ofNat. rewrite <- Zle_Qle. lia. }
  split.
  - apply Qle_shift_div_l; [exact Hn0 | lra].
  - apply Qle_shift_div_r; [exact Hn0 | lra].
Qed.

(** X9.  The match rate of the summary, computed in doubles as
    [matched.length / invoices.length * 100], lies between 0 and 100; it is
    0 for an empty input and when nothing matched, and 100 when every
    invoice matched.  It is the rounded share, not the exact one: for one
    match among three invoices it is [33.33333333333333], three times which
    is below 100.  The total matched amount, a running sum in doubles, is
    not negative when no matched amount is. *)
Theorem summary_rates (matchedInvoices totalInvoices : nat) (matchedAmounts : list Q) :
  (matchedInvoices <= totalInvoices)%nat ->
  0 <= matchRate matchedInvoices totalInvoices <= 100 /\
  matchRate matchedInvoices 0 == 0 /\
  matchRate 0 totalInvoices == 0 /\
  ((0 < totalInvoices)%nat -> matchRate totalInvoices totalInvoices == 100) /\
  matchRate 1 3 * 3 < 100 /\
  (Forall (fun a => 0 <= a) matchedAmounts -> 0 <= totalMatchedAmount matchedAmounts).
Proof.
  intros Hmn. split; [|split; [|split; [|split; [|split]]]].
  - unfold matchRate. destruct (Nat.ltb 0 totalInvoices) eqn:E; [|lra].
    apply Nat.ltb_lt in E.
    pose proof (share_unit_interval _ _ Hmn E) as Hs.
    apply round_unit_interval in Hs. unfold mul, div.
    set (r := round (ofNat matchedInvoices / ofNat totalInvoices)) in *.
    split; [apply round_nonneg; lra|].
    destruct (Qeq_dec (r * 100) 0) as [Z|Z]; [rewrite (round_zero _ Z); lra|].
    apply round_le_representable; [apply representable_100 | lra | lra].
  - reflexivity.
  - unfold matchRate. destruct (Nat.ltb 0 totalInvoices); [|reflexivity].
    unfold mul, div. rewrite (round_zero (ofNat 0 / ofNat totalInvoices)).
    + reflexivity.
    + unfold ofNat. cbn. unfold Qdiv. ring.
  - intros Hn. unfold matchRate. apply Nat.ltb_lt in Hn. rewrite Hn.
    apply Nat.ltb_lt in Hn.
    assert (Hn0 : 0 < ofNat totalInvoices).
    { unfold ofNat. change 0 with (inject_Z 0). rewrite <- Zlt_Qlt. lia. }
    unfold mul, div.
    assert (E1 : ofNat totalInvoices / ofNat totalInvoices == inject_Z 1).
    { change (inject_Z 1) with 1. field. lra. }
    rewrite (round_wd _ _ E1).
    assert (E2 : round (inject_Z 1) * 100 == inject_Z 100).
    { rewrite round_Z by reflexivity. reflexivity. }
    rewrite (round_wd _ _ E2). apply round_Z. reflexivity.
  - vm_compute. reflexivity.
  - intros Hall. unfold totalMatchedAmount.
    assert (G : forall acc, 0 <= acc -> 0 <= fold_left add matchedAmounts acc).
    { induction Hall as [|a l Ha _ IH]; intros acc Hacc; cbn [fold_left]; [exact Hacc|].
      apply IH. unfold add. apply round_nonneg. lra. }
    apply G. lra.
Qed.

Lemma summary_rates_witness :
  (1 <= 3)%nat /\ 0 <= matchRate 1 3 <= 100 /\
  Forall (fun a => 0 <= a) [5000; 1 # 10] /\
  0 <= totalMatchedAmount [5000; 1 # 10].
Proof.
  assert (H : (1 <= 3)%nat) by lia.
  assert (F : Forall (fun a => 0 <= a) [5000; 1 # 10]).
  { repeat constructor; discriminate. }
  destruct (summary_rates 1 3 [5000; 1 # 10] H) as (T1 & _ & _ & _ & _ & T6).
  split; [exact H|]. split; [exact T1|]. split; [exact F | exact (T6 F)].
Defined.

End DoubleSummaryProofs.

(** ** Reconciliation in double arithmetic: properties *)

Module FloatReconciliationProofs.
Import Floats.PrimFloat Floats.SpecFloat Floats.FloatAxioms Floats.FloatOps.
Import Binary64 Reconciliation FloatReconciliation.
Local Set Warnings "-inexact-float".
Local Open Scope float_scope.

(** *** Comparisons and absolute value of doubles *)

Lemma SFcompare_antisym a b :
  SFcompare b a = option_map CompOpp (SFcompare a b).
Proof.
  destruct a as [sa|sa| |sa ma ea], b as [sb|sb| |sb mb eb]; cbn;
    try destruct sa; try destruct sb; cbn; try reflexivity.
  - rewrite (Z.compare_antisym ea eb). destruct (ea ?= eb)%Z; cbn; try reflexivity.
    change (Pos.compare_cont Eq mb ma) with (Pos.compare mb ma).
    change (Pos.compare_cont Eq ma mb) with (Pos.compare ma mb).
    rewrite (Pos.compare_antisym ma mb). destruct (ma ?= mb)%positive; reflexivity.
  - rewrite (Z.compare_antisym ea eb). destruct (ea ?= eb)%Z; cbn; try reflexivity.
    change (Pos.compare_cont Eq mb ma) with (Pos.compare mb ma).
    change (Pos.compare_cont Eq ma mb) with (Pos.compare ma mb).
    rewrite (Pos.compare_antisym ma mb). destruct (ma ?= mb)%positive; reflexivity.
Qed.

Lemma leb_not_ltb x y : (x <=? y) = true -> (y <? x) = false.
Proof.
  rewrite leb_spec, ltb_spec. unfold SFleb, SFltb.
  rewrite (SFcompare_antisym (Prim2SF x) (Prim2SF y)).
  destruct (SFcompare (Prim2SF x) (Prim2SF y)) as [[| |]|]; cbn; congruence.
Qed.

Lemma ltb_leb_or_ltb x y z :
  (x <? y) = true -> (z =? z) = true -> (y <=? z) = true \/ (z <? y) = true.
Proof.
  rewrite ltb_spec, leb_spec, ltb_spec. unfold SFleb, SFltb.
  rewrite (SFcompare_antisym (Prim2SF y) (Prim2SF z)).
  rewrite eqb_spec. unfold SFeqb.
  destruct (Prim2SF x) as [sx|sx| |sx mx ex], (Prim2SF y) as [sy|sy| |sy my ey],
    (Prim2SF z) as [sz|sz| |sz mz ez]; cbn; try discriminate;
    try (destruct sy); try (destruct sz); try destruct sx; cbn; try discriminate; auto;
    intros _ _;
    try (destruct (ey ?= ez)%Z; cbn; auto;
         change (Pos.compare_cont Eq my mz) with (Pos.compare my mz);
         destruct (my ?= mz)%positive; cbn; auto).
Qed.

Lemma Prim2SF_inj x y : Prim2SF x = Prim2SF y -> x = y.
Proof.
  intros H. rewrite <- (SF2Prim_Prim2SF x), <- (SF2Prim_Prim2SF y). now rewrite H.
Qed.

Lemma SFabs_round s m e l :
  SFabs (binary_round_aux prec emax s m e l) = binary_round_aux prec emax false m e l.
Proof.
  unfold binary_round_aux.
  destruct (shr_fexp prec emax m e l) as [mrs' e'].
  destruct (shr_fexp prec emax _ e' loc_Exact) as [mrs'' e''].
  destruct (shr_m mrs''); [reflexivity| |reflexivity].
  destruct (Z.leb e'' (emax - prec)); reflexivity.
Qed.

Lemma SFabs_div a b : SFabs (SF64div a b) = SF64div (SFabs a) (SFabs b).
Proof.
  unfold SF64div, SFdiv.
  destruct a as [sa|sa| |sa ma ea], b as [sb|sb| |sb mb eb]; cbn [SFabs xorb];
    try reflexivity.
  destruct (SFdiv_core_binary prec emax (Z.pos ma) ea (Z.pos mb) eb) as [[mz ez] lz].
  apply SFabs_round.
Qed.

Lemma SFabs_mul a b : SFabs (SF64mul a b) = SF64mul (SFabs a) (SFabs b).
Proof.
  unfold SF64mul, SFmul.
  destruct a as [sa|sa| |sa ma ea], b as [sb|sb| |sb mb eb]; cbn [SFabs xorb];
    try reflexivity.
  apply SFabs_round.
Qed.

Lemma abs_positive e : (0 <? e) = true -> abs e = e.
Proof.
  rewrite ltb_spec. intros H. apply Prim2SF_inj. rewrite abs_spec.
  unfold SFltb in H. change (Prim2SF 0) with (S754_zero false) in H.
  destruct (Prim2SF e) as [s|s| |s m x]; cbn in *; try discriminate.
  - destruct s; [discriminate | reflexivity].
  - destruct s; [discriminate | reflexivity].
Qed.

(** [Math.abs] can be taken before the division. *)
Lemma abs_percent d e :
  (0 <? e) = true -> abs (d / e * 100) = abs d / e * 100.
Proof.
  intros He. apply Prim2SF_inj.
  rewrite abs_spec, !mul_spec, !div_spec, SFabs_mul, SFabs_div, abs_spec.
  rewrite <- (abs_spec e), (abs_positive e He). reflexivity.
Qed.

(** *** Variance and severity *)

Lemma some_matching_float rules deliveries invoice :
  matchingDeliveries rules deliveries invoice <> [] ->
  Nat.eqb (List.length (matchingDeliveries rules deliveries invoice)) 0 = false.
Proof.
  destruct (matchingDeliveries rules deliveries invoice); [congruence | reflexivity].
Qed.

Lemma no_matching_float rules deliveries invoice :
  (forall d, In d deliveries -> inWindow rules invoice d = false) ->
  matchingDeliveries rules deliveries invoice = [].
Proof.
  intros H. unfold matchingDeliveries.
  induction deliveries as [|d ds IH]; [reflexivity|]. cbn [filter].
  rewrite (H d (or_introl eq_refl)). apply IH. intros d' Hd. apply H. now right.
Qed.

(** C5 (variance, confidence, tolerance boundary), as the code has it, in
    double arithmetic.  For every invoice with at least one matching
    delivery the engine computes the variance
    [|totalDelivered - expectedQuantity| / expectedQuantity * 100], each
    operation rounded to a double, when [expectedQuantity > 0], and 100
    whenever that test fails (zero, negative, or line items that do not
    give a number).  The invoice is matched exactly when the computed
    variance is [<=] the tolerance band (boundary included), the match
    carrying [confidenceScore = Math.max(0, 100 - variance)]; otherwise, and
    so whenever the computed variance is above the band, it is a
    QUANTITY_VARIANCE exception. *)
Theorem variance_confidence_match rules deliveries invoice :
  let matching := matchingDeliveries rules deliveries invoice in
  let delivered := totalDelivered matching in
  let expected := expectedQuantity invoice in
  let variance := varianceOf delivered expected in
  matching <> [] ->
  ((0 <? expected) = true ->
   variance = abs (delivered - expected) / expected * 100) /\
  ((0 <? expected) = false -> variance = 100) /\
  ((variance <=? tolerancePercent rules) = true ->
   reconcileInvoice rules deliveries invoice =
     inl {| m_invoiceId := invoiceId invoice;
            deliveryIds := map deliveryId matching;
            confidenceScore := Math_max 0 (100 - variance);
            matchedAmount := totalAmount invoice;
            variance := variance |}) /\
  ((variance <=? tolerancePercent rules) = false ->
   exists e, reconcileInvoice rules deliveries invoice = inr e /\
             Exception.invoiceId e = invoiceId invoice /\
             Exception.reason e = "QUANTITY_VARIANCE"%string) /\
  ((tolerancePercent rules <? variance) = true ->
   (variance <=? tolerancePercent rules) = false).
Proof.
  intros matching delivered expected variance Hne.
  pose proof (some_matching_float _ _ _ Hne) as Hlen.
  split; [|split; [|split; [|split]]].
  5: { intros Hv. destruct (variance <=? tolerancePercent rules) eqn:E; [|reflexivity].
       apply leb_not_ltb in E. congruence. }
  - intros He. unfold variance, varianceOf. rewrite He. now apply abs_percent.
  - intros He. unfold variance, varianceOf. now rewrite He.
  - intros Hv. unfold reconcileInvoice. cbv zeta. rewrite Hlen.
    fold matching. fold delivered. fold expected. fold variance.
    rewrite Hv. reflexivity.
  - intros Hv. unfold reconcileInvoice. cbv zeta. rewrite Hlen.
    fold matching. fold delivered. fold expected. fold variance.
    rewrite Hv. eexists. split; [reflexivity|]. split; reflexivity.
Qed.

Lemma variance_confidence_match_witness :
  let rules := bandOf 5 in
  let deliveries := [sampleDelivery 1030] in
  let invoice := sampleInvoice 1000 in
  matchingDeliveries rules deliveries invoice <> [] /\
  (0 <? expectedQuantity invoice) = true /\
  varianceOf (totalDelivered (matchingDeliveries rules deliveries invoice))
             (expectedQuantity invoice) = 3 /\
  exists m, reconcileInvoice rules deliveries invoice = inl m /\
            variance m = 3 /\ confidenceScore m = 97.
Proof.
  cbv zeta.
  assert (Hne : matchingDeliveries (bandOf 5) [sampleDelivery 1030] (sampleInvoice 1000)
                <> []) by (vm_compute; discriminate).
  assert (He : (0 <? expectedQuantity (sampleInvoice 1000)) = true)
    by (vm_compute; reflexivity).
  pose proof (variance_confidence_match (bandOf 5) [sampleDelivery 1030]
                (sampleInvoice 1000)) as T.
  cbv zeta in T. destruct (T Hne) as (T1 & _ & T3 & _ & _).
  split; [exact Hne|]. split; [exact He|].
  split; [rewrite (T1 He); vm_compute; reflexivity|].
  eexists. split; [apply T3; vm_compute; reflexivity|].
  split; vm_compute; reflexivity.
Defined.

(** The boundary is that of the computed variance.  An invoice declaring
    100 units with one delivery of 107 under a band of 7: the quotient
    [7 / 100] is the double [0.07], whose product with 100 rounds to
    [7.000000000000001], above the band, and the invoice is an exception (of
    severity LOW, its text showing 7.0).  With 103 units delivered under a
    band of 3 the computed variance is 3 and the invoice is matched. *)
Lemma boundary_of_computed_variance :
  varianceOf 107 100 = 7.000000000000001 /\
  (varianceOf 107 100 <=? 7) = false /\
  reconcileInvoice (bandOf 7) [sampleDelivery 107] (sampleInvoice 100) =
    inr {| Exception.invoiceId := "INV-1";
           Exception.reason := "QUANTITY_VARIANCE";
           Exception.severity := LOW;
           Exception.recommendation :=
             "Quantity variance of 7.0% exceeds tolerance" |} /\
  varianceOf 103 100 = 3 /\
  exists m, reconcileInvoice (bandOf 3) [sampleDelivery 103] (sampleInvoice 100)
            = inl m /\ variance m = 3 /\ confidenceScore m = 97.
Proof.
  split; [vm_compute; reflexivity|]. split; [vm_compute; reflexivity|].
  split; [vm_compute; reflexivity|]. split; [vm_compute; reflexivity|].
  eexists. split; [vm_compute; reflexivity|]. split; vm_compute; reflexivity.
Qed.

(** C6 (exception severity), in double arithmetic.  An invoice with no
    delivery of its contract in its time window is an exception
    NO_MATCHING_DELIVERIES of severity HIGH.  An invoice with a matching
    delivery whose computed variance is not within the tolerance band is an
    exception QUANTITY_VARIANCE, of severity HIGH when [variance > 20],
    MEDIUM when [10 < variance <= 20], LOW otherwise; its recommendation
    shows the variance with one decimal. *)
Theorem severity_assignment rules deliveries invoice :
  let variance :=
    varianceOf (totalDelivered (matchingDeliveries rules deliveries invoice))
               (expectedQuantity invoice) in
  ((forall d, In d deliveries -> inWindow rules invoice d = false) ->
   reconcileInvoice rules deliveries invoice =
     inr {| Exception.invoiceId := invoiceId invoice;
            Exception.reason := "NO_MATCHING_DELIVERIES";
            Exception.severity := HIGH;
            Exception.recommendation := "Verify delivery data or invoice period" |}) /\
  (matchingDeliveries rules deliveries invoice <> [] ->
   (variance <=? tolerancePercent rules) = false ->
   exists e, reconcileInvoice rules deliveries invoice = inr e /\
             Exception.invoiceId e = invoiceId invoice /\
             Exception.reason e = "QUANTITY_VARIANCE"%string /\
             Exception.recommendation e =
               ("Quantity variance of " ++ toFixed1 variance ++
                "% exceeds tolerance")%string /\
             ((20 <? variance) = true -> Exception.severity e = HIGH) /\
             ((10 <? variance) = true -> (variance <=? 20) = true ->
              Exception.severity e = MEDIUM) /\
             ((20 <? variance) = false ->
              (10 <? variance) && (variance <=? 20) = false ->
              Exception.severity e = LOW)).
Proof.
  intros variance. split.
  - intros H. unfold reconcileInvoice. cbv zeta.
    rewrite (no_matching_float _ _ _ H). reflexivity.
  - intros Hne Hv. unfold reconcileInvoice. cbv zeta.
    rewrite (some_matching_float _ _ _ Hne). fold variance. rewrite Hv.
    eexists. split; [reflexivity|]. cbn.
    split; [reflexivity|]. split; [reflexivity|]. split; [reflexivity|].
    unfold severityOf.
    split; [intros ->; reflexivity|]. split.
    + intros H10 H20. apply leb_not_ltb in H20. now rewrite H20, H10.
    + intros H20 Hm. rewrite H20.
      destruct (10 <? variance) eqn:H10; [|reflexivity].
      cbn [andb] in Hm.
      destruct (ltb_leb_or_ltb 10 variance 20 H10 eq_refl); congruence.
Qed.

Lemma severity_assignment_witness :
  (exists e, reconcileInvoice (bandOf 5) [otherDelivery 1000] (sampleInvoice 1000)
             = inr e /\
             Exception.reason e = "NO_MATCHING_DELIVERIES"%string /\
             Exception.severity e = HIGH) /\
  (exists e, reconcileInvoice (bandOf 5) [sampleDelivery 1151; otherDelivery 1000]
               (sampleInvoice 1000) = inr e /\
             Exception.reason e = "QUANTITY_VARIANCE"%string /\
             Exception.severity e = MEDIUM).
Proof.
  split.
  - eexists. split.
    + apply (proj1 (severity_assignment (bandOf 5) [otherDelivery 1000]
                      (sampleInvoice 1000))).
      intros d [<-|[]]. vm_compute. reflexivity.
    + split; reflexivity.
  - destruct (proj2 (severity_assignment (bandOf 5)
                       [sampleDelivery 1151; otherDelivery 1000] (sampleInvoice 1000)))
      as (e & He & _ & Hr & _ & _ & Hs & _).
    + vm_compute. discriminate.
    + vm_compute. reflexivity.
    + exists e. split; [exact He|]. split; [exact Hr|].
      apply Hs; vm_compute; reflexivity.
Defined.

(** The thresholds are met by the computed variance.  1201.68 delivered
    against 1001.4 declared gives [20.000000000000011], severity HIGH;
    900.63 against 1000.7 gives [10.000000000000005], severity MEDIUM;
    106.35 against 100 gives [6.349999999999994], shown as 6.3. *)
Lemma severity_of_computed_variance :
  varianceOf 1201.68 1001.4 = 20.000000000000011 /\
  reconcileInvoice (bandOf 5) [sampleDelivery 1201.68] (sampleInvoice 1001.4) =
    inr {| Exception.invoiceId := "INV-1";
           Exception.reason := "QUANTITY_VARIANCE";
           Exception.severity := HIGH;
           Exception.recommendation :=
             "Quantity variance of 20.0% exceeds tolerance" |} /\
  varianceOf 900.63 1000.7 = 10.000000000000005 /\
  reconcileInvoice (bandOf 5) [sampleDelivery 900.63] (sampleInvoice 1000.7) =
    inr {| Exception.invoiceId := "INV-1";
           Exception.reason := "QUANTITY_VARIANCE";
           Exception.severity := MEDIUM;
           Exception.recommendation :=
             "Quantity variance of 10.0% exceeds tolerance" |} /\
  reconcileInvoice (bandOf 5) [sampleDelivery 106.35] (sampleInvoice 100) =
    inr {| Exception.invoiceId := "INV-1";
           Exception.reason := "QUANTITY_VARIANCE";
           Exception.severity := LOW;
           Exception.recommendation :=
             "Quantity variance of 6.3% exceeds tolerance" |}.
Proof.
  split; [vm_compute; reflexivity|]. split; [vm_compute; reflexivity|].
  split; [vm_compute; reflexivity|]. split; [vm_compute; reflexivity|].
  vm_compute. reflexivity.
Qed.

(** [Double.round] and the kernel's binary64 arithmetic agree on the
    numbers used as examples in this file. *)
Lemma round_agrees_with_binary64 :
  toQ 0.67 = Some (Double.round (67 # 100)) /\
  toQ (1500 * 0.67) = Some (Double.mul 1500 (Double.round (67 # 100))) /\
  toQ 0.01 = Some (Double.round (1 # 100)) /\
  toQ (-5.01 + 5) = Some (Double.add (Double.round (-501 # 100)) 5) /\
  toQ (10000000000.1 + 10000000000.3) =
    Some (Double.add (Double.round (100000000001 # 10))
                     (Double.round (100000000003 # 10))) /\
  toQ (100.1 - 0.1) = Some (Double.sub (Double.round (1001 # 10)) (Double.round (1 # 10))) /\
  toQ (7 / 100 * 100) = Some (Double.mul (Double.div 7 100) 100) /\
  toQ (0x1p-1074 / 2 + 0x1p-1074) =
    Some (Double.add (Double.div (Double.pow2 (-1074)) 2) (Double.pow2 (-1074))).
Proof.
  repeat split; vm_compute; reflexivity.
Qed.

End FloatReconciliationProofs.

(** ** Dispute ids: properties *)

Module UniqueDisputesProofs.
Import Ledger Reconciliation ReconciliationRoute UniqueDisputes.

(** *** Rendering of integers *)




(** *** Runs that complete *)

Lemma matched_loop_returns (ms : list Matched.t) : forall s,
  forEachT ms (fun match_ => lift (applyMatched match_)) s =
  (Returned tt, snd (forEach ms applyMatched s)).
Proof.
  induction ms as [|m ms IH]; intros s; [reflexivity|].
  cbn [forEachT forEach]. unfold andThen, lift, bind, ret, applyMatched, onDb, modify.
  cbn [fst snd]. apply IH.
Qed.

(** One exception: either the step goes as when every call succeeds, or the
    invoice row is updated, both clock readings are taken and [create]
    throws on an id that is taken. *)
Lemma applyException_outcome clock e db n :
  let db1 := invoice_updateMany (Exception.invoiceId e)
               (setInvoiceStatus InvoiceStatus.PARTIALLY_MATCHED) db in
  (UniqueDisputes.applyException clock e (db, n) =
     (Returned tt, snd (Reconciliation.applyException clock e (db, n)))) \/
  (willDispute db1 e = true /\
   idTaken ("DSP-" ++ string_of_Z (clock n))%string db = true /\
   UniqueDisputes.applyException clock e (db, n) = (Thrown, (db1, S (S n)))).
Proof.
  cbv zeta.
  unfold UniqueDisputes.applyException, Reconciliation.applyException, willDispute.
  unfold andThen, lift, bind, ret, gets, onDb, modify. cbn [fst snd].
  destruct (isHigh (Exception.severity e)); [|left; reflexivity].
  destruct (invoice_findUnique _ _) as [inv|]; [|left; reflexivity].
  unfold UniqueDisputes.createDisputeFor, Reconciliation.createDisputeFor,
    UniqueDisputes.dispute_create.
  unfold andThen, lift, bind, ret, gets, Date_now, onDb, modify. cbn [fst snd].
  cbn [Dispute.disputeId].
  match goal with |- context [idTaken ?i ?d] => destruct (idTaken i d) eqn:E end.
  - right. split; [reflexivity|]. split; [exact E | reflexivity].
  - left. reflexivity.
Qed.

Lemma exceptions_loop_completed clock (excs : list Exception.t) : forall s s',
  forEachT excs (UniqueDisputes.applyException clock) s = (Returned tt, s') ->
  forEach excs (Reconciliation.applyException clock) s = (tt, s').
Proof.
  induction excs as [|e excs IH]; intros [db n] s' H.
  - cbn in H. injection H as <-. reflexivity.
  - cbn [forEachT forEach] in *. unfold andThen, bind in *.
    destruct (applyException_outcome clock e db n) as [E|(_ & _ & E)];
      cbv zeta in E; rewrite E in H.
    + destruct (Reconciliation.applyException clock e (db, n)) as [[] s1].
      cbn [snd] in H. now apply IH.
    + cbn in H. discriminate.
Qed.

(** A run that completes is the run of [Reconciliation.updateInvoiceStatuses]. *)
Lemma completed_run clock (ms : list Matched.t) (excs : list Exception.t) s s' :
  UniqueDisputes.updateInvoiceStatuses clock ms excs s = (Returned tt, s') ->
  Reconciliation.updateInvoiceStatuses clock ms excs s = (tt, s').
Proof.
  unfold UniqueDisputes.updateInvoiceStatuses, Reconciliation.updateInvoiceStatuses.
  unfold andThen, bind. rewrite matched_loop_returns.
  destruct (forEach ms applyMatched s) as [[] s1]. cbn [snd].
  apply exceptions_loop_completed.
Qed.

Lemma completed_post clock deliveryTable request s result s' :
  UniqueDisputes.POST clock deliveryTable request s = (Ok result, s') ->
  ReconciliationRoute.POST clock deliveryTable request s = (result, s').
Proof.
  unfold UniqueDisputes.POST, ReconciliationRoute.POST, bind, gets, ret.
  cbn [fst snd].
  match goal with
  | |- context [UniqueDisputes.updateInvoiceStatuses ?c ?m ?e ?s0] =>
      destruct (UniqueDisputes.updateInvoiceStatuses c m e s0) as [[[]|] s1] eqn:E
  end; [|discriminate].
  intros H. injection H as <- <-.
  now rewrite (completed_run _ _ _ _ _ E).
Qed.

(** *** Runs that throw *)

Lemma exceptions_loop_outcome clock (excs : list Exception.t) : forall db n,
  (exists s', forEachT excs (UniqueDisputes.applyException clock) (db, n)
              = (Returned tt, s')) \/
  (exists done e rest db1 n1,
     excs = done ++ e :: rest /\
     forEach done (Reconciliation.applyException clock) (db, n) = (tt, (db1, n1)) /\
     willDispute db1 e = true /\
     idTaken ("DSP-" ++ string_of_Z (clock n1))%string db1 = true /\
     forEachT excs (UniqueDisputes.applyException clock) (db, n) =
       (Thrown, (invoice_updateMany (Exception.invoiceId e)
                   (setInvoiceStatus InvoiceStatus.PARTIALLY_MATCHED) db1,
                 S (S n1)))).
Proof.
  induction excs as [|e excs IH]; intros db n.
  - left. eexists. reflexivity.
  - cbn [forEachT]. unfold andThen, bind.
    destruct (applyException_outcome clock e db n) as [E|(Hw & Ht & E)];
      cbv zeta in *; rewrite E.
    + destruct (Reconciliation.applyException clock e (db, n)) as [[] [db1 n1]] eqn:Es.
      cbn [snd]. destruct (IH db1 n1) as [(s' & H)|(done & e' & rest & db2 & n2 & H)].
      * left. exists s'. exact H.
      * right. destruct H as (H1 & H2 & H3 & H4 & H5).
        exists (e :: done), e', rest, db2, n2.
        split; [now rewrite H1|]. split.
        { cbn [forEach]. unfold bind. rewrite Es. exact H2. }
        split; [exact H3|]. split; [exact H4 | exact H5].
    + right. exists [], e, excs, db, n.
      split; [reflexivity|]. split; [reflexivity|]. split.
      { rewrite <- Hw. symmetry.
        apply (ReconciliationProofs.known_after_update db _ (markException e));
          [apply ReconciliationProofs.sameInvoice_mark | reflexivity]. }
      split; [exact Ht | reflexivity].
Qed.

Lemma sameInvoice_markExceptions (excs : list Exception.t) r :
  sameInvoice r (markExceptions excs r).
Proof.
  unfold markExceptions. destruct (isException excs r);
    [apply ReconciliationProofs.sameInvoice_status
    | apply ReconciliationProofs.sameInvoice_refl].
Qed.

Lemma filter_prefix_length {A : Type} (f : A -> bool) (l1 l2 : list A) :
  (List.length (filter f l1) <= List.length (filter f (l1 ++ l2)))%nat.
Proof. rewrite filter_app, length_app. lia. Qed.

(** What [updateInvoiceStatuses] leaves behind, however it ends. *)
Lemma update_outcome clock (ms : list Matched.t) (excs : list Exception.t) db n :
  let r := UniqueDisputes.updateInvoiceStatuses clock ms excs (db, n) in
  exists g created,
    (forall row, sameInvoice row (g row)) /\
    invoice (fst (snd r)) = map g (invoice db) /\
    dispute (fst (snd r)) = dispute db ++ created /\
    (List.length created <= List.length (filter (willDispute db) excs))%nat /\
    sameOthers db (fst (snd r)).
Proof.
  cbv zeta. unfold UniqueDisputes.updateInvoiceStatuses, andThen, bind.
  rewrite matched_loop_returns.
  destruct (ReconciliationExtra.matched_loop_rows ms db n)
    as (dbm & Hrun1 & Hinv1 & Hdis1 & Hoth1).
  rewrite Hrun1. cbn [snd].
  assert (Hw : forall l, filter (willDispute dbm) l = filter (willDispute db) l).
  { intros l. apply filter_ext. intros e.
    apply (ReconciliationProofs.known_after_update db dbm (applyMatches ms));
      [apply ReconciliationExtra.sameInvoice_applyMatches | exact Hinv1]. }
  destruct (exceptions_loop_outcome clock excs dbm n)
    as [(s' & H)|(done & e & rest & db1 & n1 & Hsplit & Hdone & _ & _ & H)].
  - rewrite H. cbn [fst snd].
    apply exceptions_loop_completed in H.
    destruct (ReconciliationProofs.exceptions_loop clock excs dbm n)
      as (db' & n' & created & Hrun2 & _ & Hinv2 & Hdis2 & Hall & Hoth2).
    rewrite Hrun2 in H. injection H as <-. cbn [fst].
    exists (fun row => markExceptions excs (applyMatches ms row)), created.
    split.
    { intros row. eapply ReconciliationProofs.sameInvoice_trans;
        [apply ReconciliationExtra.sameInvoice_applyMatches
        | apply sameInvoice_markExceptions]. }
    split; [now rewrite Hinv2, Hinv1, map_map|].
    split; [now rewrite Hdis2, Hdis1|]. split.
    { apply Forall2_length in Hall. rewrite <- Hall, Hw. lia. }
    destruct Hoth1 as (a & b & c & d), Hoth2 as (a' & b' & c' & d').
    unfold sameOthers. repeat split; congruence.
  - rewrite H. cbn [fst snd].
    destruct (ReconciliationProofs.exceptions_loop clock done dbm n)
      as (db' & n' & created & Hrun2 & _ & Hinv2 & Hdis2 & Hall & Hoth2).
    rewrite Hrun2 in Hdone. injection Hdone as <- <-.
    exists (fun row => markException e (markExceptions done (applyMatches ms row))),
      created.
    split.
    { intros row. eapply ReconciliationProofs.sameInvoice_trans;
        [apply ReconciliationExtra.sameInvoice_applyMatches|].
      eapply ReconciliationProofs.sameInvoice_trans;
        [apply sameInvoice_markExceptions | apply ReconciliationProofs.sameInvoice_mark]. }
    split.
    { cbn. rewrite Hinv2, Hinv1, !map_map. apply map_ext. intros row.
      unfold markException. reflexivity. }
    split; [cbn; now rewrite Hdis2, Hdis1|]. split.
    { apply Forall2_length in Hall. rewrite <- Hall, Hw, Hsplit.
      rewrite <- Hw. rewrite <- (Hw (done ++ e :: rest)).
      apply filter_prefix_length. }
    destruct Hoth1 as (a & b & c & d), Hoth2 as (a' & b' & c' & d').
    unfold sameOthers. cbn. repeat split; congruence.
Qed.

(** *** Fresh ids *)








(** *** Applying the results *)

(** When the run completes, every invoice row named by an exception has
    status PARTIALLY_MATCHED and the disputes created are, in order, one per
    exception of severity HIGH: reason QUANTITY_VARIANCE, status OPEN,
    raised by the invoice's counterparty against its issuer, SLA deadline a
    [Date.now()] reading plus seven days, description the exception's
    recommendation.  The exceptions are those of invoices in the table, as
    [performReconciliation] produces them. *)
Lemma exceptions_applied_on_completion clock (ms : list Matched.t)
    (excs : list Exception.t) db n db' n' :
  (forall e, In e excs -> invoice_findUnique (Exception.invoiceId e) db <> None) ->
  UniqueDisputes.updateInvoiceStatuses clock ms excs (db, n)
    = (Returned tt, (db', n')) ->
  (forall e r, In e excs -> In r (invoice db') ->
     Invoice.invoiceId r = Exception.invoiceId e ->
     Invoice.status r = InvoiceStatus.PARTIALLY_MATCHED) /\
  exists created,
    dispute db' = dispute db ++ created /\
    Forall2 (raisedFor clock db n)
            (filter (fun e => isHigh (Exception.severity e)) excs) created.
Proof.
  intros Hex Hrun. apply completed_run in Hrun.
  destruct (ReconciliationProofs.updateInvoiceStatuses_run clock ms excs db n)
    as (db2 & n2 & created & Hrun2 & Hst & Hdis & Hall & _).
  rewrite Hrun2 in Hrun. injection Hrun as <- <-.
  split; [exact Hst|]. exists created. split; [exact Hdis|].
  replace (filter (fun e => isHigh (Exception.severity e)) excs)
    with (filter (willDispute db) excs); [exact Hall|].
  apply filter_ext_in. intros e Hin. unfold willDispute.
  specialize (Hex e Hin).
  destruct (invoice_findUnique (Exception.invoiceId e) db); [|congruence].
  apply andb_true_r.
Qed.

(** C7 (applying exceptions), on the code.  The id of a dispute is
    [DSP-] followed by [Date.now()], and [disputeId] is a unique column.
    Three invoices without deliveries give three exceptions of severity
    HIGH.  When the clock does not advance between them, the first dispute
    is created, the second [create] throws on the id of the first and the
    loop ends there: INV-2 is PARTIALLY_MATCHED without a dispute, INV-3 is
    still PENDING without a dispute, and POST answers 500.  With a clock
    that advances at every reading the same run completes with three
    disputes. *)
Theorem disputes_within_one_millisecond :
  let db := Reconciliation.sampleDb [inv1; inv2; inv3] in
  let result := performReconciliation [inv1; inv2; inv3] [] getDefaultRules in
  let r := UniqueDisputes.updateInvoiceStatuses stoppedClock
             (matched result) (exceptions result) (db, O) in
  let r' := UniqueDisputes.updateInvoiceStatuses sampleClock
              (matched result) (exceptions result) (db, O) in
  map Exception.invoiceId (exceptions result) = ["INV-1"; "INV-2"; "INV-3"]%string /\
  map Exception.severity (exceptions result) = [HIGH; HIGH; HIGH] /\
  fst r = Thrown /\
  map Invoice.status (invoice (fst (snd r))) =
    [InvoiceStatus.PARTIALLY_MATCHED; InvoiceStatus.PARTIALLY_MATCHED;
     InvoiceStatus.PENDING] /\
  map Dispute.invoiceId (dispute (fst (snd r))) = ["id-INV-1"]%string /\
  fst (UniqueDisputes.POST stoppedClock [] dayRequest (db, O)) = Failed /\
  fst r' = Returned tt /\
  map Invoice.status (invoice (fst (snd r'))) =
    [InvoiceStatus.PARTIALLY_MATCHED; InvoiceStatus.PARTIALLY_MATCHED;
     InvoiceStatus.PARTIALLY_MATCHED] /\
  map Dispute.invoiceId (dispute (fst (snd r'))) =
    ["id-INV-1"; "id-INV-2"; "id-INV-3"]%string.
Proof.
  cbv zeta. repeat split; vm_compute; reflexivity.
Qed.

(** *** Rows after the update *)

(** X12.  [updateInvoiceStatuses] keeps the rows of the invoice table, their
    order and their identity, however it ends.  When it completes (no
    [db.dispute.create] throws), a row an exception names ends
    PARTIALLY_MATCHED (also when a match names it too); a row named by a
    match and by no exception ends MATCHED with the confidence score and
    delivery list of a match of that invoice; every other row is
    unchanged. *)
Theorem rows_after_update clock (ms : list Matched.t) (excs : list Exception.t) db n :
  let r := UniqueDisputes.updateInvoiceStatuses clock ms excs (db, n) in
  Forall2 sameInvoice (invoice db) (invoice (fst (snd r))) /\
  (fst r = Returned tt ->
   Forall2 (rowAfter ms excs) (invoice db) (invoice (fst (snd r)))).
Proof.
  cbv zeta. split.
  - destruct (update_outcome clock ms excs db n) as (g & created & Hg & Hinv & _).
    cbv zeta in Hinv. rewrite Hinv.
    apply ReconciliationExtra.Forall2_map_r_In. intros row _. apply Hg.
  - intros H.
    destruct (UniqueDisputes.updateInvoiceStatuses clock ms excs (db, n))
      as [o s'] eqn:E. cbn [fst snd] in *. subst o.
    destruct s' as [db' n']. apply completed_run in E.
    pose proof (ReconciliationExtra.succeeding_rows clock ms excs db n) as R.
    cbv zeta in R. rewrite E in R. exact R.
Qed.

Lemma rows_after_update_witness :
  let db := Reconciliation.sampleDb [inv1; inv2] in
  let r := UniqueDisputes.updateInvoiceStatuses sampleClock
             (matched sampleRun) (exceptions sampleRun) (db, O) in
  fst r = Returned tt /\
  Forall2 (rowAfter (matched sampleRun) (exceptions sampleRun))
          (invoice db) (invoice (fst (snd r))).
Proof.
  cbv zeta.
  assert (H : fst (UniqueDisputes.updateInvoiceStatuses sampleClock
                     (matched sampleRun) (exceptions sampleRun)
                     (Reconciliation.sampleDb [inv1; inv2], O)) = Returned tt)
    by (vm_compute; reflexivity).
  split; [exact H|].
  exact (proj2 (rows_after_update sampleClock (matched sampleRun) (exceptions sampleRun)
                  (Reconciliation.sampleDb [inv1; inv2]) O) H).
Defined.



(** *** The POST handler *)

(** X14.  When the reconciliation POST handler answers with a result (its
    database calls have succeeded), the result is that of
    [performReconciliation] on the invoices and deliveries in scope, and no
    invoice in scope (period within the requested one, status PENDING or
    PARTIALLY_MATCHED) is left PENDING: each ends MATCHED or
    PARTIALLY_MATCHED, and the table keeps its rows.  When invoice ids are
    distinct, the rows out of scope (other periods, or MATCHED, DISPUTED,
    PAID, PARTIALLY_PAID) are unchanged.  When it answers 500 an invoice in
    scope can be left PENDING. *)
Theorem post_statuses clock deliveryTable request db n result db' n' :
  UniqueDisputes.POST clock deliveryTable request (db, n) = (Ok result, (db', n')) ->
  result = performReconciliation (filter (invoiceInScope request) (invoice db))
             (filter (deliveryInScope request) deliveryTable) (rulesOf request) /\
  Forall2 (fun row row' =>
             sameInvoice row row' /\
             (invoiceInScope request row = true ->
              Invoice.status row' = InvoiceStatus.MATCHED \/
              Invoice.status row' = InvoiceStatus.PARTIALLY_MATCHED))
          (invoice db) (invoice db') /\
  (NoDup (map Invoice.invoiceId (invoice db)) ->
   Forall2 (fun row row' => invoiceInScope request row = false -> row' = row)
           (invoice db) (invoice db')).
Proof.
  intros H. apply completed_post in H.
  destruct (ReconciliationExtra.POST_run clock deliveryTable request db n) as [Hr _].
  pose proof (ReconciliationExtra.succeeding_post clock deliveryTable request db n) as P.
  cbv zeta in Hr, P. rewrite H in Hr, P. cbn [fst snd] in Hr, P.
  split; [now symmetry|]. exact P.
Qed.

Lemma post_statuses_witness :
  let db := Reconciliation.sampleDb [inv1; inv2; paidInvoice] in
  let table := [sampleDelivery 1030; lateDelivery] in
  exists result db' n',
    UniqueDisputes.POST sampleClock table dayRequest (db, O) = (Ok result, (db', n')) /\
    NoDup (map Invoice.invoiceId (invoice db)) /\
    map Invoice.status (invoice db') =
      [InvoiceStatus.MATCHED; InvoiceStatus.PARTIALLY_MATCHED; InvoiceStatus.PAID] /\
    Forall2 (fun row row' => invoiceInScope dayRequest row = false -> row' = row)
            (invoice db) (invoice db').
Proof.
  cbv zeta.
  destruct (UniqueDisputes.POST sampleClock [sampleDelivery 1030; lateDelivery]
              dayRequest (Reconciliation.sampleDb [inv1; inv2; paidInvoice], O))
    as [o [db' n']] eqn:E.
  assert (Ho : exists result, o = Ok result).
  { apply (f_equal fst) in E. cbn [fst] in E. rewrite <- E.
    eexists. vm_compute. reflexivity. }
  destruct Ho as (result & ->).
  assert (Hs : map Invoice.status (invoice db') =
      [InvoiceStatus.MATCHED; InvoiceStatus.PARTIALLY_MATCHED; InvoiceStatus.PAID]).
  { apply (f_equal (fun x => map Invoice.status (invoice (fst (snd x))))) in E.
    cbn [fst snd] in E. rewrite <- E. vm_compute. reflexivity. }
  assert (Hnd : NoDup (map Invoice.invoiceId
                         (invoice (Reconciliation.sampleDb [inv1; inv2; paidInvoice])))).
  { repeat (apply NoDup_cons; [cbn; intuition discriminate|]). apply NoDup_nil. }
  exists result, db', n'. split; [reflexivity|]. split; [exact Hnd|].
  split; [exact Hs|].
  exact (proj2 (proj2 (post_statuses sampleClock [sampleDelivery 1030; lateDelivery]
                         dayRequest (Reconciliation.sampleDb [inv1; inv2; paidInvoice]) O
                         result db' n' E)) Hnd).
Defined.

End UniqueDisputesProofs.

(** ** Requests that overlap: properties *)

Module OverlapProofs.
Import Ledger Blockchain Chain Overlap.

(** The two halves make the handler. *)
Lemma approve_split env sd s :
  approveSettlement env sd s =
  (transaction <- begin (Approve env sd) ;; resume (Approve env sd) transaction) s.
Proof. reflexivity. Qed.

Lemma execute_split env ex s :
  executeSettlement env ex s =
  (transaction <- begin (Execute env ex) ;; resume (Execute env ex) transaction) s.
Proof. reflexivity. Qed.

Lemma begin_run c db chain :
  snd (begin c (db, chain)) = (db, chain) /\
  blockNumber (fst (begin c (db, chain))) = S (currentBlock chain).
Proof. destruct c; split; reflexivity. Qed.

(** What a resumed handler does to the ledger log: nothing, or it pushes
    its transaction, CONFIRMED and with the block number it had read. *)
Lemma resume_chain c tx db chain :
  snd (snd (resume c tx (db, chain))) = chain \/
  snd (snd (resume c tx (db, chain))) =
    {| transactions := transactions chain ++ [setTxStatus TxStatus.CONFIRMED tx];
       currentBlock := S (currentBlock chain) |}.
Proof.
  destruct c as [env sd|env ex]; unfold resume, bind, ret, commit, onDb, modify;
    cbn [fst snd].
  - destruct (simulateConsensus env tx && hasQuorum sd); [right | left]; reflexivity.
  - destruct (simulateConsensus env tx); [|left; reflexivity].
    right. rewrite SettlementProofs.createPayments_run. reflexivity.
Qed.

Lemma orderly_push chain tx :
  orderly chain ->
  (1 <= blockNumber tx <= S (currentBlock chain))%nat ->
  orderly {| transactions := transactions chain ++ [setTxStatus TxStatus.CONFIRMED tx];
             currentBlock := S (currentBlock chain) |}.
Proof.
  intros (Hb & Hc & Hn) Htx. unfold orderly. cbn [transactions currentBlock].
  rewrite length_app. cbn [List.length]. split; [lia|]. split.
  - apply Forall_app. split; [exact Hc|]. constructor; [reflexivity | constructor].
  - intros i tx' Hi.
    destruct (Nat.lt_ge_cases i (List.length (transactions chain))) as [Hlt|Hge].
    + rewrite nth_error_app1 in Hi by exact Hlt. now apply Hn.
    + rewrite nth_error_app2 in Hi by exact Hge.
      destruct (i - List.length (transactions chain))%nat as [|k] eqn:E.
      * cbn in Hi. injection Hi as <-. cbn [blockNumber setTxStatus]. lia.
      * cbn in Hi. destruct k; discriminate.
Qed.

(** The invariant of the server: the log is orderly and every request in
    flight has read a block number that is at most the next one. *)
Lemma runs_orderly x :
  runs x ->
  orderly (snd (fst x)) /\
  Forall (fun p => (1 <= blockNumber (built p) <= S (currentBlock (snd (fst x))))%nat)
         (snd x).
Proof.
  induction 1 as [db|x y _ [IHo IHp] Hstep].
  - split; [|constructor]. unfold orderly. cbn.
    split; [reflexivity|]. split; [constructor|].
    intros [|i] tx H; discriminate.
  - destruct Hstep as [c [db chain] pool|p [db chain] before after|db db' chain pool];
      cbn [fst snd] in *.
    + destruct (begin_run c db chain) as [Hs Hn]. rewrite Hs. cbn [fst snd].
      split; [exact IHo|]. apply Forall_app. split; [exact IHp|].
      constructor; [|constructor]. cbn [built]. rewrite Hn. lia.
    + apply Forall_app in IHp. destruct IHp as [Hbefore Hrest].
      inversion Hrest as [|? ? Hp Hafter]; subst.
      destruct (resume_chain (call p) (built p) db chain) as [E|E]; rewrite E.
      * split; [exact IHo|]. apply Forall_app. split; assumption.
      * split; [now apply orderly_push|].
        cbn [currentBlock]. apply Forall_app. split;
          (eapply Forall_impl; [|eassumption]); cbn beta; intros; lia.
    + split; assumption.
Qed.

(** X19.  The ledger log under requests that may overlap.  In every state
    of the server the height reported by [getBlockHeight] is the number of
    transactions; every transaction of the log is CONFIRMED and carries a
    block number of at least 1 and at most its position in the log;
    [getConsensusStatus] reports no pending transaction, all of them
    confirmed, and a consensus rate of 100 once the log is not empty.  When
    the calls do not overlap the block numbers are 1, 2, ... in order; two
    approvals that arrive before either resumes are both logged with block
    number 1. *)
Theorem ledger_log_invariants (server : Server) now :
  let chain := snd (fst server) in
  (runs server ->
   bh_blockHeight (getBlockHeight now chain) = List.length (transactions chain) /\
   (forall i tx, nth_error (transactions chain) i = Some tx ->
      status tx = TxStatus.CONFIRMED /\ (1 <= blockNumber tx <= S i)%nat) /\
   pendingCount (getConsensusStatus chain) = 0%nat /\
   confirmedCount (getConsensusStatus chain) = List.length (transactions chain) /\
   (transactions chain <> [] -> consensusRate (getConsensusStatus chain) == 100)) /\
  (reachable chain ->
   map blockNumber (transactions chain) = seq 1 (List.length (transactions chain))) /\
  map blockNumber (transactions (snd (fst twoOverlapping))) = [1; 1]%nat.
Proof.
  cbv zeta. split; [|split].
  - intros Hr. destruct (runs_orderly server Hr) as [(Hb & Hc & Hn) _].
    set (chain := snd (fst server)) in *.
    assert (Hconf : filter isConfirmed (transactions chain) = transactions chain).
    { apply ChainProofs.filter_all. eapply Forall_impl; [|exact Hc].
      intros tx H. unfold isConfirmed. now rewrite H. }
    assert (Hpend : filter isPending (transactions chain) = []).
    { apply ChainProofs.filter_none. eapply Forall_impl; [|exact Hc].
      intros tx H. unfold isPending. now rewrite H. }
    unfold getBlockHeight, getConsensusStatus.
    cbn [bh_blockHeight pendingCount confirmedCount consensusRate].
    rewrite Hconf, Hpend.
    split; [exact Hb|]. split.
    { intros i tx Hi. split; [|now apply Hn].
      rewrite Forall_forall in Hc. apply Hc. eapply nth_error_In. exact Hi. }
    split; [reflexivity|]. split; [reflexivity|].
    intros Hne. destruct (transactions chain) as [|tx txs]; [congruence|].
    cbn [List.length Nat.ltb Nat.leb].
    assert (Hpos : 0 < ofNat (S (List.length txs))).
    { unfold ofNat. change 0 with (inject_Z 0). rewrite <- Zlt_Qlt. lia. }
    field. lra.
  - intros Hr. now destruct (ChainProofs.reachable_wellFormed _ Hr) as (_ & Hn & _).
  - vm_compute. reflexivity.
Qed.

Lemma runs_twoOverlapping : runs twoOverlapping.
Proof.
  unfold twoOverlapping. cbv zeta.
  set (s0 := (sampleDb SettlementStatus.COMPUTED, genesis)).
  set (c := Approve sampleEnv repeatedApproval).
  set (p := {| call := c; built := fst (begin c s0) |}).
  eapply runs_step; [|apply (resumes p _ [] [])].
  eapply runs_step; [|apply (resumes p s0 [] [p])].
  eapply runs_step; [|apply (arrives c s0 [p])].
  eapply runs_step; [|apply (arrives c s0 [])].
  apply runs_start.
Qed.

Lemma ledger_log_invariants_witness :
  runs twoOverlapping /\
  reachable twoCalls /\
  bh_blockHeight (getBlockHeight 1700000000500 (snd (fst twoOverlapping))) = 2%nat /\
  map blockNumber (transactions (snd (fst twoOverlapping))) = [1; 1]%nat /\
  map blockNumber (transactions twoCalls) = [1; 2]%nat.
Proof.
  assert (H : runs twoOverlapping) by apply runs_twoOverlapping.
  assert (R : reachable twoCalls).
  { unfold twoCalls. apply reach_execute. apply reach_approve. apply reach_genesis. }
  split; [exact H|]. split; [exact R|].
  destruct (ledger_log_invariants twoOverlapping 1700000000500) as (T1 & _ & T3).
  cbv zeta in T1. destruct (T1 H) as (Hb & _).
  split; [exact Hb|]. split; [exact T3|].
  exact (proj1 (proj2 (ledger_log_invariants ((sampleDb SettlementStatus.APPROVED, twoCalls), [])
                         1700000000500)) R).
Defined.

End OverlapProofs.

(** ** The audit trail *)

Module AuditProofs.
Import Ledger Blockchain.

Lemma register_run env auditTime invoiceData db chain :
  let r := registerInvoice env auditTime invoiceData (db, chain) in
  success (fst r) = simulateConsensus env (transaction (fst r)) /\
  blockNumber (transaction (fst r)) = S (currentBlock chain) /\
  snd r =
    if success (fst r) then
      (auditLog_create
         {| AuditLog.action := "BLOCKCHAIN_INVOICE_REGISTER";
            AuditLog.entityType := "invoice";
            AuditLog.entityId := in_invoiceId invoiceData;
            AuditLog.newValues :=
              registrationValues (txId (transaction (fst r)))
                (blockNumber (transaction (fst r))) (hash (transaction (fst r)));
            AuditLog.timestamp := auditTime |} db,
       {| transactions := transactions chain ++ [transaction (fst r)];
          currentBlock := S (currentBlock chain) |})
    else (db, chain).
Proof.
  unfold registerInvoice, simulateConsensus, bind, gets, ret, commit, onDb, modify.
  cbn [fst snd].
  destruct (Qltb (5 # 100) (consensusDraw env)); cbn; repeat split; reflexivity.
Qed.

(** C9 (one audit event per status transition), on the code.  In the
    smart-contract route the handler [registerInvoice] appends one
    [auditLog] row whenever it commits its transaction; the handlers that
    change the status of a batch, [approveSettlement] and
    [executeSettlement], commit a transaction and update the batch but write
    no [auditLog] row, and [updateInvoiceStatuses], which changes invoice
    statuses, writes none either.  Approving the sample batch moves it from
    COMPUTED to APPROVED, executing it moves it to EXECUTED, and applying
    the sample run moves INV-1 to MATCHED and INV-2 to PARTIALLY_MATCHED:
    the audit log is empty after each, while registering INV-1 leaves one
    row. *)
Theorem transitions_without_audit_event :
  (forall env auditTime invoiceData db chain,
     let r := registerInvoice env auditTime invoiceData (db, chain) in
     auditLog (fst (snd r)) =
       if success (fst r)
       then auditLog db ++
            [ {| AuditLog.action := "BLOCKCHAIN_INVOICE_REGISTER";
                 AuditLog.entityType := "invoice";
                 AuditLog.entityId := in_invoiceId invoiceData;
                 AuditLog.newValues :=
                   registrationValues (txId (transaction (fst r)))
                     (blockNumber (transaction (fst r))) (hash (transaction (fst r)));
                 AuditLog.timestamp := auditTime |} ]
       else auditLog db) /\
  (forall env sd db chain,
     auditLog (fst (snd (approveSettlement env sd (db, chain)))) = auditLog db) /\
  (forall env ex db chain,
     auditLog (fst (snd (executeSettlement env ex (db, chain)))) = auditLog db) /\
  (forall clock (ms : list Reconciliation.Matched.t)
          (excs : list Reconciliation.Exception.t) db n,
     auditLog (fst (snd (UniqueDisputes.updateInvoiceStatuses clock ms excs (db, n))))
     = auditLog db) /\
  (let r := approveSettlement sampleEnv repeatedApproval
              (sampleDb SettlementStatus.COMPUTED, genesis) in
   batchStatuses (fst (snd r)) = [SettlementStatus.APPROVED] /\
   List.length (transactions (snd (snd r))) = 1%nat /\
   auditLog (fst (snd r)) = []) /\
  (let r := executeSettlement sampleEnv sampleExecution
              (sampleDb SettlementStatus.APPROVED, genesis) in
   batchStatuses (fst (snd r)) = [SettlementStatus.EXECUTED] /\
   List.length (transactions (snd (snd r))) = 1%nat /\
   auditLog (fst (snd r)) = []) /\
  (let db := Reconciliation.sampleDb [Reconciliation.inv1; Reconciliation.inv2] in
   let r := UniqueDisputes.updateInvoiceStatuses Reconciliation.sampleClock
              (Reconciliation.matched Reconciliation.sampleRun)
              (Reconciliation.exceptions Reconciliation.sampleRun) (db, O) in
   map Invoice.status (invoice db) = [InvoiceStatus.PENDING; InvoiceStatus.PENDING] /\
   map Invoice.status (invoice (fst (snd r))) =
     [InvoiceStatus.MATCHED; InvoiceStatus.PARTIALLY_MATCHED] /\
   auditLog (fst (snd r)) = []) /\
  (let r := registerInvoice sampleEnv 1700000000400 sampleRegistration
              (sampleDb SettlementStatus.COMPUTED, genesis) in
   map AuditLog.action (auditLog (fst (snd r))) = ["BLOCKCHAIN_INVOICE_REGISTER"%string] /\
   map AuditLog.entityId (auditLog (fst (snd r))) = ["INV-1"%string]).
Proof.
  split; [|split; [|split; [|split]]].
  - intros env auditTime invoiceData db chain r.
    destruct (register_run env auditTime invoiceData db chain) as (_ & _ & Hs).
    fold r in Hs. rewrite Hs. destruct (success (fst r)); reflexivity.
  - intros env sd db chain.
    destruct (SettlementProofs.approve_run env sd db chain) as [_ Hs].
    cbv zeta in Hs. rewrite Hs.
    destruct (simulateConsensus env _ && hasQuorum sd); reflexivity.
  - intros env ex db chain.
    destruct (SettlementProofs.execute_run env ex db chain) as [_ Hs].
    cbv zeta in Hs. rewrite Hs.
    destruct (simulateConsensus env _); reflexivity.
  - intros clock ms excs db n.
    destruct (UniqueDisputesProofs.update_outcome clock ms excs db n)
      as (_ & _ & _ & _ & _ & _ & (_ & _ & Ha & _)).
    exact Ha.
  - cbv zeta. repeat split; vm_compute; reflexivity.
Qed.

End AuditProofs.
